(** * DiscBot: the guild music player and the dice roller

    A shallow embedding of [music.py] (the per-guild player: queue, history
    cursor, repeat policy, alone/idle disconnect, panel rendering, enqueue
    with the Spotify expansion cap) and of [diceroller.py] (the [/roll]
    command), with the properties of the design document stated over it;
    then of the resolver and the registry of [music.py], of [branding.py]
    and of the chat request of [meme.py], with further properties.

    Conventions.
    - Python [int] is [Z]; list lengths and loop counters that only count
      are [nat].  [Optional[T]] is [option T].
    - [str] is [string] (a byte sequence); the literals of the source are
      kept byte for byte, non-ASCII glyphs being spelled by their bytes.
    - The wall clock ([datetime.now(timezone.utc)]) is a [Z] in
      microseconds, the monotonic clock ([time.monotonic()]) a [Z] in
      nanoseconds; both are inputs of the functions that read them.
    - A coroutine is modelled by the state it leaves behind, with whether
      it returned or raised where it can raise; what the chat platform,
      the voice transport and the media resolver answer is an explicit
      argument of the function that asks. *)

From stdpp Require Import base list strings pretty gmap.
From Stdlib Require Import ZArith QArith Lia.
Close Scope Q_scope.

(** ** Data model *)

(** The part of [discord.Member] the player reads. *)
Record Member := {
  member_id : Z;
  mention : string;
  bot : bool
}.

(** [@dataclass class Track]. *)
Record Track := {
  seq : option Z;
  title : string;
  stream_url : string;
  webpage_url : string;
  duration : option Z;
  thumbnail : option string;
  requested_by : option Member
}.

(** The part of [discord.VoiceChannel] the player reads. *)
Record VoiceChannel := {
  members : list Member;
  bitrate : Z
}.

(** The observable state of a [discord.VoiceClient]: the answers of
    [is_connected()], [is_playing()], [is_paused()] and its [channel]. *)
Record VoiceClient := {
  is_connected : bool;
  is_playing : bool;
  is_paused : bool;
  channel : option VoiceChannel
}.

Record Guild := {
  guild_id : Z;
  guild_name : string;
  guild_icon : option string
}.

(** [class GuildPlayer]: the attributes set by [__init__].  Events are the
    flag they hold, tasks are [true] while a task is pending. *)
Record GuildPlayer := {
  guild : Guild;
  queue : list Track;
  queue_event : bool;
  current : option Track;
  next_event : bool;
  loop_task : bool;
  voice : option VoiceClient;
  _stopped : bool;
  panel_channel_id : option Z;
  panel_message_id : option Z;
  _start_time_utc : option Z;
  _history : list Track;
  _history_index : Z;
  repeat_mode : string;
  _navigating_history : bool;
  _seq_counter : Z;
  _ui_task : bool;
  _temp_cookie_path : option string;
  _last_panel_bump_monotonic : Z;
  _idle_started_mono : option Z;
  _last_activity_mono : Z;
  _idle_task : bool
}.

(** [GuildPlayer.__init__]; [now_mono] is the reading of [time.monotonic()]. *)
Definition new_player (g : Guild) (now_mono : Z) : GuildPlayer :=
  {| guild := g; queue := []; queue_event := false; current := None;
     next_event := false; loop_task := false; voice := None;
     _stopped := false; panel_channel_id := None; panel_message_id := None;
     _start_time_utc := None; _history := []; _history_index := (-1)%Z;
     repeat_mode := "off"; _navigating_history := false;
     _seq_counter := 0%Z; _ui_task := false; _temp_cookie_path := None;
     _last_panel_bump_monotonic := 0%Z; _idle_started_mono := None;
     _last_activity_mono := now_mono; _idle_task := false |}.

(** Attribute assignment [self.f = v], one function per attribute. *)
Definition set_queue (v : list Track) (p : GuildPlayer) : GuildPlayer :=
  {| guild := guild p; queue := v; queue_event := queue_event p;
     current := current p; next_event := next_event p;
     loop_task := loop_task p; voice := voice p; _stopped := _stopped p;
     panel_channel_id := panel_channel_id p;
     panel_message_id := panel_message_id p;
     _start_time_utc := _start_time_utc p; _history := _history p;
     _history_index := _history_index p; repeat_mode := repeat_mode p;
     _navigating_history := _navigating_history p;
     _seq_counter := _seq_counter p; _ui_task := _ui_task p;
     _temp_cookie_path := _temp_cookie_path p;
     _last_panel_bump_monotonic := _last_panel_bump_monotonic p;
     _idle_started_mono := _idle_started_mono p;
     _last_activity_mono := _last_activity_mono p;
     _idle_task := _idle_task p |}.

Definition set_queue_event (v : bool) (p : GuildPlayer) : GuildPlayer :=
  {| guild := guild p; queue := queue p; queue_event := v;
     current := current p; next_event := next_event p;
     loop_task := loop_task p; voice := voice p; _stopped := _stopped p;
     panel_channel_id := panel_channel_id p;
     panel_message_id := panel_message_id p;
     _start_time_utc := _start_time_utc p; _history := _history p;
     _history_index := _history_index p; repeat_mode := repeat_mode p;
     _navigating_history := _navigating_history p;
     _seq_counter := _seq_counter p; _ui_task := _ui_task p;
     _temp_cookie_path := _temp_cookie_path p;
     _last_panel_bump_monotonic := _last_panel_bump_monotonic p;
     _idle_started_mono := _idle_started_mono p;
     _last_activity_mono := _last_activity_mono p;
     _idle_task := _idle_task p |}.

Definition set_current (v : option Track) (p : GuildPlayer) : GuildPlayer :=
  {| guild := guild p; queue := queue p; queue_event := queue_event p;
     current := v; next_event := next_event p; loop_task := loop_task p;
     voice := voice p; _stopped := _stopped p;
     panel_channel_id := panel_channel_id p;
     panel_message_id := panel_message_id p;
     _start_time_utc := _start_time_utc p; _history := _history p;
     _history_index := _history_index p; repeat_mode := repeat_mode p;
     _navigating_history := _navigating_history p;
     _seq_counter := _seq_counter p; _ui_task := _ui_task p;
     _temp_cookie_path := _temp_cookie_path p;
     _last_panel_bump_monotonic := _last_panel_bump_monotonic p;
     _idle_started_mono := _idle_started_mono p;
     _last_activity_mono := _last_activity_mono p;
     _idle_task := _idle_task p |}.

Definition set_next_event (v : bool) (p : GuildPlayer) : GuildPlayer :=
  {| guild := guild p; queue := queue p; queue_event := queue_event p;
     current := current p; next_event := v; loop_task := loop_task p;
     voice := voice p; _stopped := _stopped p;
     panel_channel_id := panel_channel_id p;
     panel_message_id := panel_message_id p;
     _start_time_utc := _start_time_utc p; _history := _history p;
     _history_index := _history_index p; repeat_mode := repeat_mode p;
     _navigating_history := _navigating_history p;
     _seq_counter := _seq_counter p; _ui_task := _ui_task p;
     _temp_cookie_path := _temp_cookie_path p;
     _last_panel_bump_monotonic := _last_panel_bump_monotonic p;
     _idle_started_mono := _idle_started_mono p;
     _last_activity_mono := _last_activity_mono p;
     _idle_task := _idle_task p |}.

Definition set_loop_task (v : bool) (p : GuildPlayer) : GuildPlayer :=
  {| guild := guild p; queue := queue p; queue_event := queue_event p;
     current := current p; next_event := next_event p; loop_task := v;
     voice := voice p; _stopped := _stopped p;
     panel_channel_id := panel_channel_id p;
     panel_message_id := panel_message_id p;
     _start_time_utc := _start_time_utc p; _history := _history p;
     _history_index := _history_index p; repeat_mode := repeat_mode p;
     _navigating_history := _navigating_history p;
     _seq_counter := _seq_counter p; _ui_task := _ui_task p;
     _temp_cookie_path := _temp_cookie_path p;
     _last_panel_bump_monotonic := _last_panel_bump_monotonic p;
     _idle_started_mono := _idle_started_mono p;
     _last_activity_mono := _last_activity_mono p;
     _idle_task := _idle_task p |}.

Definition set_voice (v : option VoiceClient) (p : GuildPlayer) : GuildPlayer :=
  {| guild := guild p; queue := queue p; queue_event := queue_event p;
     current := current p; next_event := next_event p;
     loop_task := loop_task p; voice := v; _stopped := _stopped p;
     panel_channel_id := panel_channel_id p;
     panel_message_id := panel_message_id p;
     _start_time_utc := _start_time_utc p; _history := _history p;
     _history_index := _history_index p; repeat_mode := repeat_mode p;
     _navigating_history := _navigating_history p;
     _seq_counter := _seq_counter p; _ui_task := _ui_task p;
     _temp_cookie_path := _temp_cookie_path p;
     _last_panel_bump_monotonic := _last_panel_bump_monotonic p;
     _idle_started_mono := _idle_started_mono p;
     _last_activity_mono := _last_activity_mono p;
     _idle_task := _idle_task p |}.

Definition set_stopped (v : bool) (p : GuildPlayer) : GuildPlayer :=
  {| guild := guild p; queue := queue p; queue_event := queue_event p;
     current := current p; next_event := next_event p;
     loop_task := loop_task p; voice := voice p; _stopped := v;
     panel_channel_id := panel_channel_id p;
     panel_message_id := panel_message_id p;
     _start_time_utc := _start_time_utc p; _history := _history p;
     _history_index := _history_index p; repeat_mode := repeat_mode p;
     _navigating_history := _navigating_history p;
     _seq_counter := _seq_counter p; _ui_task := _ui_task p;
     _temp_cookie_path := _temp_cookie_path p;
     _last_panel_bump_monotonic := _last_panel_bump_monotonic p;
     _idle_started_mono := _idle_started_mono p;
     _last_activity_mono := _last_activity_mono p;
     _idle_task := _idle_task p |}.

Definition set_panel_channel_id (v : option Z) (p : GuildPlayer) : GuildPlayer :=
  {| guild := guild p; queue := queue p; queue_event := queue_event p;
     current := current p; next_event := next_event p;
     loop_task := loop_task p; voice := voice p; _stopped := _stopped p;
     panel_channel_id := v; panel_message_id := panel_message_id p;
     _start_time_utc := _start_time_utc p; _history := _history p;
     _history_index := _history_index p; repeat_mode := repeat_mode p;
     _navigating_history := _navigating_history p;
     _seq_counter := _seq_counter p; _ui_task := _ui_task p;
     _temp_cookie_path := _temp_cookie_path p;
     _last_panel_bump_monotonic := _last_panel_bump_monotonic p;
     _idle_started_mono := _idle_started_mono p;
     _last_activity_mono := _last_activity_mono p;
     _idle_task := _idle_task p |}.

Definition set_panel_message_id (v : option Z) (p : GuildPlayer) : GuildPlayer :=
  {| guild := guild p; queue := queue p; queue_event := queue_event p;
     current := current p; next_event := next_event p;
     loop_task := loop_task p; voice := voice p; _stopped := _stopped p;
     panel_channel_id := panel_channel_id p; panel_message_id := v;
     _start_time_utc := _start_time_utc p; _history := _history p;
     _history_index := _history_index p; repeat_mode := repeat_mode p;
     _navigating_history := _navigating_history p;
     _seq_counter := _seq_counter p; _ui_task := _ui_task p;
     _temp_cookie_path := _temp_cookie_path p;
     _last_panel_bump_monotonic := _last_panel_bump_monotonic p;
     _idle_started_mono := _idle_started_mono p;
     _last_activity_mono := _last_activity_mono p;
     _idle_task := _idle_task p |}.

Definition set_start_time_utc (v : option Z) (p : GuildPlayer) : GuildPlayer :=
  {| guild := guild p; queue := queue p; queue_event := queue_event p;
     current := current p; next_event := next_event p;
     loop_task := loop_task p; voice := voice p; _stopped := _stopped p;
     panel_channel_id := panel_channel_id p;
     panel_message_id := panel_message_id p; _start_time_utc := v;
     _history := _history p; _history_index := _history_index p;
     repeat_mode := repeat_mode p;
     _navigating_history := _navigating_history p;
     _seq_counter := _seq_counter p; _ui_task := _ui_task p;
     _temp_cookie_path := _temp_cookie_path p;
     _last_panel_bump_monotonic := _last_panel_bump_monotonic p;
     _idle_started_mono := _idle_started_mono p;
     _last_activity_mono := _last_activity_mono p;
     _idle_task := _idle_task p |}.

Definition set_history (v : list Track) (p : GuildPlayer) : GuildPlayer :=
  {| guild := guild p; queue := queue p; queue_event := queue_event p;
     current := current p; next_event := next_event p;
     loop_task := loop_task p; voice := voice p; _stopped := _stopped p;
     panel_channel_id := panel_channel_id p;
     panel_message_id := panel_message_id p;
     _start_time_utc := _start_time_utc p; _history := v;
     _history_index := _history_index p; repeat_mode := repeat_mode p;
     _navigating_history := _navigating_history p;
     _seq_counter := _seq_counter p; _ui_task := _ui_task p;
     _temp_cookie_path := _temp_cookie_path p;
     _last_panel_bump_monotonic := _last_panel_bump_monotonic p;
     _idle_started_mono := _idle_started_mono p;
     _last_activity_mono := _last_activity_mono p;
     _idle_task := _idle_task p |}.

Definition set_history_index (v : Z) (p : GuildPlayer) : GuildPlayer :=
  {| guild := guild p; queue := queue p; queue_event := queue_event p;
     current := current p; next_event := next_event p;
     loop_task := loop_task p; voice := voice p; _stopped := _stopped p;
     panel_channel_id := panel_channel_id p;
     panel_message_id := panel_message_id p;
     _start_time_utc := _start_time_utc p; _history := _history p;
     _history_index := v; repeat_mode := repeat_mode p;
     _navigating_history := _navigating_history p;
     _seq_counter := _seq_counter p; _ui_task := _ui_task p;
     _temp_cookie_path := _temp_cookie_path p;
     _last_panel_bump_monotonic := _last_panel_bump_monotonic p;
     _idle_started_mono := _idle_started_mono p;
     _last_activity_mono := _last_activity_mono p;
     _idle_task := _idle_task p |}.

Definition set_repeat_mode (v : string) (p : GuildPlayer) : GuildPlayer :=
  {| guild := guild p; queue := queue p; queue_event := queue_event p;
     current := current p; next_event := next_event p;
     loop_task := loop_task p; voice := voice p; _stopped := _stopped p;
     panel_channel_id := panel_channel_id p;
     panel_message_id := panel_message_id p;
     _start_time_utc := _start_time_utc p; _history := _history p;
     _history_index := _history_index p; repeat_mode := v;
     _navigating_history := _navigating_history p;
     _seq_counter := _seq_counter p; _ui_task := _ui_task p;
     _temp_cookie_path := _temp_cookie_path p;
     _last_panel_bump_monotonic := _last_panel_bump_monotonic p;
     _idle_started_mono := _idle_started_mono p;
     _last_activity_mono := _last_activity_mono p;
     _idle_task := _idle_task p |}.

Definition set_navigating_history (v : bool) (p : GuildPlayer) : GuildPlayer :=
  {| guild := guild p; queue := queue p; queue_event := queue_event p;
     current := current p; next_event := next_event p;
     loop_task := loop_task p; voice := voice p; _stopped := _stopped p;
     panel_channel_id := panel_channel_id p;
     panel_message_id := panel_message_id p;
     _start_time_utc := _start_time_utc p; _history := _history p;
     _history_index := _history_index p; repeat_mode := repeat_mode p;
     _navigating_history := v; _seq_counter := _seq_counter p;
     _ui_task := _ui_task p; _temp_cookie_path := _temp_cookie_path p;
     _last_panel_bump_monotonic := _last_panel_bump_monotonic p;
     _idle_started_mono := _idle_started_mono p;
     _last_activity_mono := _last_activity_mono p;
     _idle_task := _idle_task p |}.

Definition set_seq_counter (v : Z) (p : GuildPlayer) : GuildPlayer :=
  {| guild := guild p; queue := queue p; queue_event := queue_event p;
     current := current p; next_event := next_event p;
     loop_task := loop_task p; voice := voice p; _stopped := _stopped p;
     panel_channel_id := panel_channel_id p;
     panel_message_id := panel_message_id p;
     _start_time_utc := _start_time_utc p; _history := _history p;
     _history_index := _history_index p; repeat_mode := repeat_mode p;
     _navigating_history := _navigating_history p; _seq_counter := v;
     _ui_task := _ui_task p; _temp_cookie_path := _temp_cookie_path p;
     _last_panel_bump_monotonic := _last_panel_bump_monotonic p;
     _idle_started_mono := _idle_started_mono p;
     _last_activity_mono := _last_activity_mono p;
     _idle_task := _idle_task p |}.

Definition set_ui_task (v : bool) (p : GuildPlayer) : GuildPlayer :=
  {| guild := guild p; queue := queue p; queue_event := queue_event p;
     current := current p; next_event := next_event p;
     loop_task := loop_task p; voice := voice p; _stopped := _stopped p;
     panel_channel_id := panel_channel_id p;
     panel_message_id := panel_message_id p;
     _start_time_utc := _start_time_utc p; _history := _history p;
     _history_index := _history_index p; repeat_mode := repeat_mode p;
     _navigating_history := _navigating_history p;
     _seq_counter := _seq_counter p; _ui_task := v;
     _temp_cookie_path := _temp_cookie_path p;
     _last_panel_bump_monotonic := _last_panel_bump_monotonic p;
     _idle_started_mono := _idle_started_mono p;
     _last_activity_mono := _last_activity_mono p;
     _idle_task := _idle_task p |}.

Definition set_temp_cookie_path (v : option string) (p : GuildPlayer) : GuildPlayer :=
  {| guild := guild p; queue := queue p; queue_event := queue_event p;
     current := current p; next_event := next_event p;
     loop_task := loop_task p; voice := voice p; _stopped := _stopped p;
     panel_channel_id := panel_channel_id p;
     panel_message_id := panel_message_id p;
     _start_time_utc := _start_time_utc p; _history := _history p;
     _history_index := _history_index p; repeat_mode := repeat_mode p;
     _navigating_history := _navigating_history p;
     _seq_counter := _seq_counter p; _ui_task := _ui_task p;
     _temp_cookie_path := v;
     _last_panel_bump_monotonic := _last_panel_bump_monotonic p;
     _idle_started_mono := _idle_started_mono p;
     _last_activity_mono := _last_activity_mono p;
     _idle_task := _idle_task p |}.

Definition set_last_panel_bump_monotonic (v : Z) (p : GuildPlayer) : GuildPlayer :=
  {| guild := guild p; queue := queue p; queue_event := queue_event p;
     current := current p; next_event := next_event p;
     loop_task := loop_task p; voice := voice p; _stopped := _stopped p;
     panel_channel_id := panel_channel_id p;
     panel_message_id := panel_message_id p;
     _start_time_utc := _start_time_utc p; _history := _history p;
     _history_index := _history_index p; repeat_mode := repeat_mode p;
     _navigating_history := _navigating_history p;
     _seq_counter := _seq_counter p; _ui_task := _ui_task p;
     _temp_cookie_path := _temp_cookie_path p;
     _last_panel_bump_monotonic := v;
     _idle_started_mono := _idle_started_mono p;
     _last_activity_mono := _last_activity_mono p;
     _idle_task := _idle_task p |}.

Definition set_idle_started_mono (v : option Z) (p : GuildPlayer) : GuildPlayer :=
  {| guild := guild p; queue := queue p; queue_event := queue_event p;
     current := current p; next_event := next_event p;
     loop_task := loop_task p; voice := voice p; _stopped := _stopped p;
     panel_channel_id := panel_channel_id p;
     panel_message_id := panel_message_id p;
     _start_time_utc := _start_time_utc p; _history := _history p;
     _history_index := _history_index p; repeat_mode := repeat_mode p;
     _navigating_history := _navigating_history p;
     _seq_counter := _seq_counter p; _ui_task := _ui_task p;
     _temp_cookie_path := _temp_cookie_path p;
     _last_panel_bump_monotonic := _last_panel_bump_monotonic p;
     _idle_started_mono := v; _last_activity_mono := _last_activity_mono p;
     _idle_task := _idle_task p |}.

Definition set_last_activity_mono (v : Z) (p : GuildPlayer) : GuildPlayer :=
  {| guild := guild p; queue := queue p; queue_event := queue_event p;
     current := current p; next_event := next_event p;
     loop_task := loop_task p; voice := voice p; _stopped := _stopped p;
     panel_channel_id := panel_channel_id p;
     panel_message_id := panel_message_id p;
     _start_time_utc := _start_time_utc p; _history := _history p;
     _history_index := _history_index p; repeat_mode := repeat_mode p;
     _navigating_history := _navigating_history p;
     _seq_counter := _seq_counter p; _ui_task := _ui_task p;
     _temp_cookie_path := _temp_cookie_path p;
     _last_panel_bump_monotonic := _last_panel_bump_monotonic p;
     _idle_started_mono := _idle_started_mono p; _last_activity_mono := v;
     _idle_task := _idle_task p |}.

Definition set_idle_task (v : bool) (p : GuildPlayer) : GuildPlayer :=
  {| guild := guild p; queue := queue p; queue_event := queue_event p;
     current := current p; next_event := next_event p;
     loop_task := loop_task p; voice := voice p; _stopped := _stopped p;
     panel_channel_id := panel_channel_id p;
     panel_message_id := panel_message_id p;
     _start_time_utc := _start_time_utc p; _history := _history p;
     _history_index := _history_index p; repeat_mode := repeat_mode p;
     _navigating_history := _navigating_history p;
     _seq_counter := _seq_counter p; _ui_task := _ui_task p;
     _temp_cookie_path := _temp_cookie_path p;
     _last_panel_bump_monotonic := _last_panel_bump_monotonic p;
     _idle_started_mono := _idle_started_mono p;
     _last_activity_mono := _last_activity_mono p; _idle_task := v |}.

(** ** History: the bounded log with a cursor *)

(** [t.seq == track.seq] on [Optional[int]]. *)
Definition seq_eqb (a b : option Z) : bool := bool_decide (a = b).

(** [next((i for i, t in enumerate(h) if t.seq == s), None)], counting
    from [i]. *)
Fixpoint find_seq_from (i : nat) (s : option Z) (h : list Track) : option nat :=
  match h with
  | [] => None
  | t :: h' => if seq_eqb (seq t) s then Some i else find_seq_from (S i) s h'
  end.

(** [any(t.seq == s for t in q)]. *)
Definition seq_in (s : option Z) (q : list Track) : bool :=
  existsb (fun t => seq_eqb (seq t) s) q.

(** [GuildPlayer._update_history_for_track] (the log line left out). *)
Definition _update_history_for_track (track : option Track) (p : GuildPlayer)
  : GuildPlayer :=
  match track with
  | None => p
  | Some t =>
      match find_seq_from 0 (seq t) (_history p) with
      | Some existing_idx => set_history_index (Z.of_nat existing_idx) p
      | None =>
          let h := _history p ++ [t] in
          if (5 <? length h)%nat then
            let overflow := (length h - 5)%nat in
            let h' := drop overflow h in
            set_history_index (Z.max 0 (Z.of_nat (length h') - 1))
              (set_history h' p)
          else
            set_history_index (Z.of_nat (length h) - 1) (set_history h p)
      end
  end.

(** A run of [record] operations, oldest first. *)
Definition record_all (ts : list (option Track)) (p : GuildPlayer) : GuildPlayer :=
  foldl (fun p t => _update_history_for_track t p) p ts.

(** The cursor is [-1] on an empty history and an index of it otherwise. *)
Definition cursor_valid (p : GuildPlayer) : Prop :=
  (_history p = [] ∧ _history_index p = (-1)%Z) ∨
  (0 ≤ _history_index p < Z.of_nat (length (_history p)))%Z.

Definition history_ok (p : GuildPlayer) : Prop :=
  (length (_history p) ≤ 5)%nat ∧ cursor_valid p.


(** ** Results of fallible code *)

(** What a call that can raise leaves: a value, or an exception with its
    message. *)
Inductive Exc (A : Type) :=
  | Ok (a : A)
  | Raise (msg : string).
Arguments Ok {A} a.
Arguments Raise {A} msg.

(** Sequencing: an exception ends the computation. *)
#[global] Instance Exc_ret : MRet Exc := λ A a, Ok a.

#[global] Instance Exc_bind : MBind Exc := λ A B k m,
  match m with
  | Ok a => k a
  | Raise msg => Raise msg
  end.


(** ** Configuration and Python truthiness *)

(** The module constants read from the environment when [music.py] and
    [branding.py] are imported. *)
Record Config := {
  PLAYLIST_MAX : Z;
  SPOTIFY_MAX : Z;
  DELETE_PANEL_ON_IDLE : bool;
  PANEL_BUMP_SECONDS : Z;
  MUSIC_LAST_PLAYED_SECONDS : Z;
  YTDLP_COOKIES_FROM_BROWSER : string;
  YTDLP_COOKIES_FILE : string;
  YTDLP_COOKIES_B64 : string;
  logo_embed_url : option string
}.

(** The values used when no environment variable is set. *)
Definition default_config : Config :=
  {| PLAYLIST_MAX := 50; SPOTIFY_MAX := 100; DELETE_PANEL_ON_IDLE := false;
     PANEL_BUMP_SECONDS := 45; MUSIC_LAST_PLAYED_SECONDS := 20;
     YTDLP_COOKIES_FROM_BROWSER := ""; YTDLP_COOKIES_FILE := "";
     YTDLP_COOKIES_B64 := ""; logo_embed_url := None |}.

(** [bool(s)] for a [str]. *)
Definition str_truthy (s : string) : bool :=
  match s with EmptyString => false | _ => true end.

(** [bool(x)] for an [Optional[int]]. *)
Definition optint_truthy (x : option Z) : bool :=
  match x with Some n => negb (n =? 0)%Z | None => false end.

(** [bool(x)] for an [Optional[str]]. *)
Definition optstr_truthy (x : option string) : bool :=
  match x with Some s => str_truthy s | None => false end.

(** [bool(l)] for a list. *)
Definition list_truthy {A} (l : list A) : bool :=
  match l with [] => false | _ => true end.

(** One second of the monotonic clock. *)
Definition SECOND : Z := 1000000000.

(** ** The voice transport *)

(** [VoiceClient.stop()]: the audio player is dropped, so the client is
    neither playing nor paused afterwards. *)
Definition vc_stop (v : VoiceClient) : VoiceClient :=
  {| is_connected := is_connected v; is_playing := false;
     is_paused := false; channel := channel v |}.

(** [VoiceClient.pause()] and [VoiceClient.resume()]. *)
Definition vc_pause (v : VoiceClient) : VoiceClient :=
  {| is_connected := is_connected v; is_playing := false;
     is_paused := true; channel := channel v |}.

Definition vc_resume (v : VoiceClient) : VoiceClient :=
  {| is_connected := is_connected v; is_playing := true;
     is_paused := false; channel := channel v |}.

(** [self.voice and self.voice.is_connected()] and its siblings. *)
Definition voice_connected (p : GuildPlayer) : bool :=
  match voice p with Some v => is_connected v | None => false end.

Definition voice_playing (p : GuildPlayer) : bool :=
  match voice p with Some v => is_playing v | None => false end.

Definition voice_paused (p : GuildPlayer) : bool :=
  match voice p with Some v => is_paused v | None => false end.

(** [GuildPlayer._has_humans]. *)
Definition _has_humans (p : GuildPlayer) : bool :=
  match voice p with
  | None => false
  | Some v =>
      match channel v with
      | None => false
      | Some ch => existsb (fun m => negb (bot m)) (members ch)
      end
  end.

(** [GuildPlayer._alone_in_voice]. *)
Definition _alone_in_voice (p : GuildPlayer) : bool :=
  match voice p with
  | None => false
  | Some v =>
      match channel v with
      | None => false
      | Some ch =>
          (length (filter (fun m => bot m = false) (members ch)) =? 0)%nat
      end
  end.

(** [GuildPlayer._queue_empty]. *)
Definition _queue_empty (p : GuildPlayer) : bool := negb (list_truthy (queue p)).

(** ** Calls that raise

    A method of the player that raises has still run up to the raise:
    the caller, or whoever looks at the player next, finds the player as
    the call left it.  An [Outcome] is that player, and whether the call
    returned or an exception (with its message) left it. *)
Inductive Outcome :=
  | Returns (p : GuildPlayer)
  | Raises (e : string) (p : GuildPlayer).

(** The player a call leaves, by return or by exception.  An outcome
    written where a player is expected stands for it. *)
Definition player_left (o : Outcome) : GuildPlayer :=
  match o with Returns p | Raises _ p => p end.

Coercion player_left : Outcome >-> GuildPlayer.

(** Whether an exception left the call. *)
Definition raised (o : Outcome) : bool :=
  match o with Returns _ => false | Raises _ _ => true end.

(** [await f()] followed by the rest [k] of the caller, outside any
    [try]: an exception of [f] leaves the caller too. *)
Definition and_then (o : Outcome) (k : GuildPlayer → Outcome) : Outcome :=
  match o with
  | Returns p => k p
  | Raises e p => Raises e p
  end.

Notation "'await' p ← o ; k" := (and_then o (fun p => k))
  (at level 10, p name, o at level 100, k at level 200,
   format "'[v' 'await'  p  ←  o ; '/' k ']'").

(** [try: ... finally: f]: [f] runs on the way out, by return or by
    exception. *)
Definition finally (o : Outcome) (f : GuildPlayer → GuildPlayer) : Outcome :=
  match o with
  | Returns p => Returns (f p)
  | Raises e p => Raises e (f p)
  end.

(** ** The panel: what the chat platform answers and what it does to the
    player *)

(** The answers of the chat platform to one panel operation:
    whether [bot.get_channel] finds a text channel, whether
    [fetch_message] finds the recorded message, whether editing the
    message fetched succeeds (when not, as when the fetch fails, the
    exception is one of [NotFound], [Forbidden], [HTTPException]), the id
    of the message a [send] creates ([None] when the send raises
    [Forbidden] or [HTTPException]), and the channel's
    [last_message_id]. *)
Record PanelIO := {
  channel_found : bool;
  fetch_ok : bool;
  edit_ok : bool;
  send_result : option Z;
  last_message_id : option Z
}.

(** [GuildPlayer._resolve_panel_channel], as "a channel was found". *)
Definition _resolve_panel_channel (io : PanelIO) (p : GuildPlayer) : bool :=
  optint_truthy (panel_channel_id p) && channel_found io.

(** The message of the [AttributeError] of [discord.Embed.Empty]: the
    class has no such attribute since discord.py 2.0, the version
    [app_commands] comes with. *)
Definition NO_EMBED_EMPTY : string :=
  "type object 'Embed' has no attribute 'Empty'".

(** [guild_icon or discord.Embed.Empty], the footer icon of the panel,
    where [guild_icon = getattr(self.guild.icon, "url", None)]: the right
    operand is evaluated, and raises, when the guild has no icon.  It is
    the one place where [_panel_embed] can raise, and what the panel
    operations below take of [self._panel_embed()]: the embed itself goes
    to the chat platform. *)
Definition footer_icon_url (p : GuildPlayer) : Exc string :=
  if optstr_truthy (guild_icon (guild p))
  then Ok (default EmptyString (guild_icon (guild p)))
  else Raise NO_EMBED_EMPTY.

(** The [try: ch.send(embed=self._panel_embed(), ...)] block of
    [post_or_update_panel]: the [AttributeError] of [_panel_embed] is not
    among the exceptions it catches. *)
Definition panel_send (io : PanelIO) (p : GuildPlayer) : Outcome :=
  match footer_icon_url p with
  | Raise e => Raises e p
  | Ok _ =>
      match send_result io with
      | Some id => Returns (set_panel_message_id (Some id) p)
      | None => Returns p
      end
  end.

(** [GuildPlayer.post_or_update_panel].  The embed is built once the
    recorded message is fetched, or for the [send]. *)
Definition post_or_update_panel (io : PanelIO) (p : GuildPlayer) : Outcome :=
  if negb (_resolve_panel_channel io p) then Returns p
  else if optint_truthy (panel_message_id p) then
    if fetch_ok io then
      match footer_icon_url p with
      | Raise e => Raises e p
      | Ok _ =>
          if edit_ok io then Returns p
          else panel_send io (set_panel_message_id None p)
      end
    else panel_send io (set_panel_message_id None p)
  else panel_send io p.

(** [GuildPlayer.delete_panel]: whatever the fetch and the delete do,
    [finally] clears the id. *)
Definition delete_panel (io : PanelIO) (p : GuildPlayer) : GuildPlayer :=
  if negb (optint_truthy (panel_message_id p)) then p
  else if negb (_resolve_panel_channel io p) then p
  else set_panel_message_id None p.

(** [GuildPlayer._bump_panel_if_needed].  Its [except Exception] catches
    what the [send] raises and the [AttributeError] of [_panel_embed]
    alike: the id and the bump time are then not assigned. *)
Definition _bump_panel_if_needed (cfg : Config) (force : bool) (now_mono : Z)
    (io : PanelIO) (p : GuildPlayer) : GuildPlayer :=
  if negb (optint_truthy (panel_message_id p)) then p
  else if (PANEL_BUMP_SECONDS cfg <=? 0)%Z && negb force then p
  else if negb (_resolve_panel_channel io p) then p
  else
    let should_bump :=
      force ||
      match last_message_id io with
      | Some last_id => negb (bool_decide (Some last_id = panel_message_id p))
      | None => false
      end in
    let should_bump :=
      if negb force &&
         (now_mono - _last_panel_bump_monotonic p
            <? Z.max (PANEL_BUMP_SECONDS cfg) 1 * SECOND)%Z
      then false else should_bump in
    if should_bump then
      match footer_icon_url p, send_result io with
      | Ok _, Some id =>
          set_last_panel_bump_monotonic now_mono
            (set_panel_message_id (Some id) p)
      | _, _ => p
      end
    else p.

(** The panel update chosen by [DELETE_PANEL_ON_IDLE]:
    [if DELETE_PANEL_ON_IDLE: delete_panel() else: post_or_update_panel()]. *)
Definition idle_panel (cfg : Config) (io : PanelIO) (p : GuildPlayer) : Outcome :=
  if DELETE_PANEL_ON_IDLE cfg then Returns (delete_panel io p)
  else post_or_update_panel io p.

(** ** Controls *)

(** [GuildPlayer.connect]: [same_channel] is
    [self.voice.channel == channel], [answer] the voice client after
    [move_to], or the one [channel.connect] returns, or what either
    raises. *)
Definition connect (same_channel : bool) (answer : Exc VoiceClient)
    (p : GuildPlayer) : Outcome :=
  let answered :=
    match answer with
    | Ok v => Returns (set_voice (Some v) p)
    | Raise e => Raises e p
    end in
  if voice_connected p then
    if negb same_channel then answered else Returns p
  else answered.

(** [GuildPlayer.set_panel_channel]: [is_text] is
    [isinstance(channel, (discord.TextChannel, discord.Thread))],
    [channel_id] is [channel.id]. *)
Definition set_panel_channel (is_text : bool) (channel_id : Z) (force : bool)
    (p : GuildPlayer) : GuildPlayer :=
  if is_text then
    if force || bool_decide (panel_channel_id p = None)
    then set_panel_channel_id (Some channel_id) p
    else p
  else p.

(** [GuildPlayer._cleanup_temp_cookie_file]. *)
Definition _cleanup_temp_cookie_file (p : GuildPlayer) : GuildPlayer :=
  set_temp_cookie_path None p.

(** [GuildPlayer.skip].  The panel refresh it schedules with
    [asyncio.create_task] runs later, as [post_or_update_panel]. *)
Definition skip (p : GuildPlayer) : GuildPlayer :=
  match voice p with
  | Some v => set_voice (Some (vc_stop v)) p
  | None => p
  end.

(** [GuildPlayer.stop].  The panel refresh it schedules runs later. *)
Definition stop (p : GuildPlayer) : GuildPlayer :=
  let p := set_stopped true p in
  let p := match voice p with
           | Some v => set_voice (Some (vc_stop v)) p
           | None => p
           end in
  let p := set_queue [] p in
  _cleanup_temp_cookie_file p.

(** [ControlView.stop]: [p.stop()], then the panel refresh of the button
    handler, after the one [stop] scheduled (a task of its own: what it
    raises does not reach the handler). *)
Definition stop_button (io_task io_view : PanelIO) (p : GuildPlayer) : Outcome :=
  post_or_update_panel io_view (post_or_update_panel io_task (stop p)).

(** [GuildPlayer.pause] and [GuildPlayer.resume]. *)
Definition pause (p : GuildPlayer) : GuildPlayer :=
  match voice p with
  | Some v => if is_playing v then set_voice (Some (vc_pause v)) p else p
  | None => p
  end.

Definition resume (p : GuildPlayer) : GuildPlayer :=
  match voice p with
  | Some v => if is_paused v then set_voice (Some (vc_resume v)) p else p
  | None => p
  end.

(** The repeat button of [ControlView]: [{"off": "one", "one": "all",
    "all": "off"}[p.repeat_mode]]; [None] is the [KeyError]. *)
Definition cycle_repeat (p : GuildPlayer) : option GuildPlayer :=
  if String.eqb (repeat_mode p) "off" then Some (set_repeat_mode "one" p)
  else if String.eqb (repeat_mode p) "one" then Some (set_repeat_mode "all" p)
  else if String.eqb (repeat_mode p) "all" then Some (set_repeat_mode "off" p)
  else None.

(** [GuildPlayer.can_go_previous]. *)
Definition can_go_previous (p : GuildPlayer) : bool := list_truthy (_history p).

(** [GuildPlayer.play_previous]; [None] is the [IndexError] of
    [self._history[pointer]]. *)
Definition play_previous (p : GuildPlayer) : option GuildPlayer :=
  if negb (list_truthy (_history p)) then Some p
  else if (_history_index p <=? 0)%Z then
    match current p with
    | Some c => Some (skip (set_queue (c :: queue p) p))
    | None => Some p
    end
  else
    let pointer := (_history_index p - 1)%Z in
    match _history p !! Z.to_nat pointer with
    | None => None
    | Some target =>
        let p1 :=
          match current p with
          | Some c =>
              if negb (seq_in (seq c) (queue p))
              then set_queue (c :: queue p) p else p
          | None => p
          end in
        let p2 := set_queue (target :: queue p1) p1 in
        let p3 := set_history_index pointer p2 in
        let p4 := set_navigating_history true p3 in
        Some (skip p4)
    end.

(** [ControlView.prev]: the button does nothing unless
    [can_go_previous()]. *)
Definition prev_button (p : GuildPlayer) : option GuildPlayer :=
  if negb (can_go_previous p) then Some p else play_previous p.

(** [GuildPlayer.play_next_from_history]. *)
Definition play_next_from_history (p : GuildPlayer) : option GuildPlayer :=
  if negb (list_truthy (_history p)) || (_history_index p =? -1)%Z then Some p
  else
    let pointer := _history_index p in
    if (Z.of_nat (length (_history p)) - 1 <=? pointer)%Z then Some p
    else
      let pointer := (pointer + 1)%Z in
      let p1 := set_navigating_history true (set_history_index pointer p) in
      let idx := if (pointer <? 0)%Z
                 then (Z.of_nat (length (_history p)) + pointer)%Z
                 else pointer in
      if (idx <? 0)%Z then None else
      match _history p !! Z.to_nat idx with
      | None => None
      | Some track =>
          let p2 := skip (set_queue (track :: queue p1) p1) in
          if (Z.of_nat (length (_history p2)) - 1 <=? _history_index p2)%Z
          then Some (set_history_index (Z.of_nat (length (_history p2)) - 1) p2)
          else Some p2
      end.

(** ** Literals

    The non-ASCII glyphs of the string literals of [music.py], by the bytes
    the source file holds. *)

Definition glyph (bytes : list nat) : string :=
  String.string_of_list_ascii (map Ascii.ascii_of_nat bytes).

Definition BAR_FILLED : string :=
  glyph [226; 128; 154; 195; 177; 226; 136; 158].

Definition BAR_EMPTY : string :=
  glyph [226; 128; 154; 195; 177; 194; 177].

Definition GLYPH_OFF : string :=
  glyph [239; 163; 191; 195; 188; 195; 182; 194; 180].

Definition GLYPH_ONE : string :=
  glyph [239; 163; 191; 195; 188; 195; 174; 195; 135].

Definition GLYPH_ALL : string :=
  glyph [239; 163; 191; 195; 188; 195; 174; 195; 133].

Definition GLYPH_STREAMING : string :=
  glyph [226; 128; 154; 195; 177; 226; 136; 130; 195; 148; 226; 136; 143; 195; 168].

Definition GLYPH_WAITING : string :=
  glyph [226; 128; 154; 195; 168; 226; 136; 143; 195; 148; 226; 136; 143; 195; 168].

Definition GLYPH_STANDBY : string :=
  glyph [239; 163; 191; 195; 188; 195; 172; 194; 170].

Definition GLYPH_AWAITING : string :=
  glyph [239; 163; 191; 195; 188; 195; 173; 194; 167].

Definition GLYPH_USE : string :=
  glyph [239; 163; 191; 195; 188; 195; 173; 195; 184].

Definition GLYPH_BULLET : string :=
  glyph [226; 128; 154; 195; 132; 194; 162].

Definition GLYPH_ELLIPSIS : string :=
  glyph [226; 128; 154; 195; 132; 194; 182].

(** ** Formatting *)

Definition NL : string := String (Ascii.ascii_of_nat 10) EmptyString.

(** [str(n)] and the format [{n:d}] of an [int]. *)
Definition str_int (n : Z) : string := pretty n.

(** The format [{n:02d}]: padded with a zero on the left to two
    characters. *)
Definition fmt_02d (n : Z) : string :=
  let s := str_int n in
  if (String.length s <? 2)%nat then "0" +:+ s else s.

(** [s * n] for a [str] and an [int]: empty when [n <= 0]. *)
Fixpoint str_repeat_nat (s : string) (n : nat) : string :=
  match n with
  | O => EmptyString
  | S n' => s +:+ str_repeat_nat s n'
  end.

Definition str_repeat (s : string) (n : Z) : string := str_repeat_nat s (Z.to_nat n).

(** [sep.join(lines)]. *)
Fixpoint str_join (sep : string) (lines : list string) : string :=
  match lines with
  | [] => EmptyString
  | [l] => l
  | l :: rest => l +:+ sep +:+ str_join sep rest
  end.

(** [s.upper()] on the ASCII letters (the repeat modes are ASCII). *)
Definition ascii_upper (c : Ascii.ascii) : Ascii.ascii :=
  let n := Ascii.nat_of_ascii c in
  if (97 <=? n)%nat && (n <=? 122)%nat then Ascii.ascii_of_nat (n - 32) else c.

Fixpoint upper (s : string) : string :=
  match s with
  | EmptyString => EmptyString
  | String c s' => String (ascii_upper c) (upper s')
  end.

(** [fmt_time]. *)
Definition fmt_time (seconds : option Z) : string :=
  match seconds with
  | None => "live"
  | Some sec =>
      if (sec <? 0)%Z then "live"
      else
        let m := (sec / 60)%Z in
        let s := (sec mod 60)%Z in
        let h := (m / 60)%Z in
        let m := (m mod 60)%Z in
        if negb (h =? 0)%Z
        then str_int h +:+ ":" +:+ fmt_02d m +:+ ":" +:+ fmt_02d s
        else str_int m +:+ ":" +:+ fmt_02d s
  end.

(** ** Progress *)

(** [int(x)] for a rational: truncation towards zero. *)
Definition Qtrunc (x : Q) : Z := Z.quot (Qnum x) (Z.pos (Qden x)).

(** [min(max(x, 0.0), 1.0)]. *)
Definition clamp01 (x : Q) : Q :=
  let x := if Qle_bool 0 x then x else 0%Q in
  if Qle_bool x 1 then x else 1%Q.

(** [GuildPlayer.estimated_position]; [now] is the wall clock in
    microseconds, and [int(td.total_seconds())] truncates towards zero. *)
Definition estimated_position (now : Z) (p : GuildPlayer) : option Z :=
  match _start_time_utc p, current p with
  | Some start, Some c =>
      if optint_truthy (duration c)
      then Some (Z.quot (now - start) 1000000)
      else None
  | _, _ => None
  end.

(** [pos = self.estimated_position() or 0]. *)
Definition position_or_0 (now : Z) (p : GuildPlayer) : Z :=
  match estimated_position now p with
  | Some pos => pos
  | None => 0%Z
  end.

(** [ratio = min(max(pos / float(duration), 0.0), 1.0)], in exact
    rationals. *)
Definition progress_ratio (pos dur : Z) : Q :=
  clamp01 (inject_Z pos / inject_Z dur)%Q.

(** [filled = int(ratio * width)]. *)
Definition progress_filled (pos dur width : Z) : Z :=
  Qtrunc (progress_ratio pos dur * inject_Z width)%Q.

(** The time label [f"{fmt_time(pos)}/{fmt_time(duration)}"]. *)
Definition progress_label (pos dur : Z) : string :=
  fmt_time (Some pos) +:+ "/" +:+ fmt_time (Some dur).

(** The f-string [_progress_bar] returns, for a position and a duration. *)
Definition progress_text (pos dur width : Z) : string :=
  let filled := progress_filled pos dur width in
  str_repeat BAR_FILLED filled +:+ str_repeat BAR_EMPTY (width - filled)
    +:+ " " +:+ progress_label pos dur.

(** [GuildPlayer._progress_bar]. *)
Definition _progress_bar (width : Z) (now : Z) (p : GuildPlayer) : option string :=
  match current p with
  | None => None
  | Some c =>
      match duration c with
      | None => None
      | Some dur =>
          if (dur =? 0)%Z then None
          else Some (progress_text (position_or_0 now p) dur width)
      end
  end.

(** ** The panel embed *)

(** The content of a [discord.Embed] as [_panel_embed] fills it: fields
    are (name, value, inline), the footer is its text and its icon. *)
Record Embed := {
  embed_title : string;
  embed_description : string;
  embed_color : Z;
  embed_timestamp : Z;
  embed_fields : list (string * string * bool);
  embed_thumbnail : option string;
  embed_footer : string * string
}.

(** [palette.get(mode, 0x5865F2)]. *)
Definition palette (mode : string) : Z :=
  if String.eqb mode "off" then 5793266%Z
  else if String.eqb mode "one" then 16705372%Z
  else if String.eqb mode "all" then 5763719%Z
  else 5793266%Z.

(** [mode_badge.get(mode, mode)]. *)
Definition mode_badge (mode : string) : string :=
  if String.eqb mode "off" then GLYPH_OFF +:+ " Off"
  else if String.eqb mode "one" then GLYPH_ONE +:+ " Single"
  else if String.eqb mode "all" then GLYPH_ALL +:+ " Queue"
  else mode.

(** The status line of the panel. *)
Definition status_line (p : GuildPlayer) : string :=
  let has_track := bool_decide (current p ≠ None) in
  if voice_playing p then GLYPH_STREAMING +:+ " Streaming"
  else if voice_paused p && has_track then GLYPH_WAITING +:+ " Waiting to resume"
  else if has_track then GLYPH_STANDBY +:+ " Standby"
  else if voice_connected p then GLYPH_AWAITING +:+ " Awaiting tracks"
  else GLYPH_USE +:+ " Use **/play** or **.play** to begin".

(** A track as a markdown link, [f"[{title}]({webpage_url})"]. *)
Definition track_link (t : Track) : string :=
  "[" +:+ title t +:+ "](" +:+ webpage_url t +:+ ")".

(** The lines of the "Deck Feed" field. *)
Definition playback_lines (now : Z) (p : GuildPlayer) : list string :=
  match current p with
  | Some c =>
      ["**" +:+ track_link c +:+ "**"]
      ++ match _progress_bar 18 now p with
         | Some prog => if str_truthy prog then ["`" +:+ prog +:+ "`"] else []
         | None => []
         end
      ++ match requested_by c with
         | Some m => ["Requested " +:+ GLYPH_BULLET +:+ " " +:+ mention m]
         | None => []
         end
  | None => ["Queue a song with `/play` or `.play <search>`."]
  end.

(** The lines [f"`{idx+1:02d}` [{title}]({url})"] of the upcoming tracks,
    [idx] counting from [i]. *)
Fixpoint upcoming_lines (i : Z) (ts : list Track) : list string :=
  match ts with
  | [] => []
  | t :: ts' =>
      ("`" +:+ fmt_02d (i + 1) +:+ "` " +:+ track_link t)
        :: upcoming_lines (i + 1) ts'
  end.

(** The "Up Next" field, when the queue is not empty. *)
Definition up_next_field (p : GuildPlayer) : list (string * string * bool) :=
  let queue_len := Z.of_nat (length (queue p)) in
  let upcoming := take 5 (queue p) in
  if list_truthy upcoming then
    let lines := upcoming_lines 0 upcoming in
    let lines :=
      if (Z.of_nat (length upcoming) <? queue_len)%Z
      then lines ++ [GLYPH_ELLIPSIS +:+ "and "
                       +:+ str_int (queue_len - Z.of_nat (length upcoming))
                       +:+ " more in queue"]
      else lines in
    [("Up Next", str_join NL lines, false)]
  else [].

(** [GuildPlayer._panel_embed].  The clock is read twice: [stamp] is the
    reading of [datetime.now(timezone.utc)] for the timestamp of the
    embed, [now] the later one of [estimated_position], for the progress
    bar.  The footer is set last, and its icon raises for a guild
    without icon: the function then returns no embed. *)
Definition _panel_embed (cfg : Config) (stamp now : Z) (p : GuildPlayer)
  : Exc Embed :=
  let fields :=
    [("Deck Feed", str_join NL (playback_lines now p), false);
     ("Queue Depth", str_int (Z.of_nat (length (queue p))) +:+ " waiting", true);
     ("Repeat Mode", mode_badge (repeat_mode p), true)]
    ++ up_next_field p in
  let footer :=
    "Panel " +:+ GLYPH_BULLET +:+ " " +:+ guild_name (guild p) +:+ " "
      +:+ GLYPH_BULLET +:+ " Repeat " +:+ upper (repeat_mode p) in
  icon_url ← footer_icon_url p;
  Ok {| embed_title := "DiscBot Music Console";
        embed_description := status_line p;
        embed_color := palette (repeat_mode p);
        embed_timestamp := stamp;
        embed_fields := fields;
        embed_thumbnail := logo_embed_url cfg;
        embed_footer := (footer, icon_url) |}.

(** ** Idle tracking *)

(** What the outside answers during one stretch of the playback loop: the
    readings of [time.monotonic()] and the answers of the chat platform,
    each by the place in the code that asks (numbered in the order of the
    source), the reading of the wall clock, and whether [voice.play]
    starts the audio. *)
Record Env := {
  mono : nat → Z;
  panel : nat → PanelIO;
  utc_now : Z;
  play_ok : bool
}.

(** [GuildPlayer._safe_disconnect]: whether or not the transport's
    [disconnect] raises, the handle, the current track and the queue are
    dropped; the panel update comes last, and what it raises leaves
    [_safe_disconnect]. *)
Definition _safe_disconnect (cfg : Config) (now_mono : Z) (io : PanelIO)
    (p : GuildPlayer) : Outcome :=
  let p := set_voice None p in
  let p := set_current None p in
  let p := set_queue [] p in
  let p := set_idle_started_mono None p in
  let p := set_last_activity_mono now_mono p in
  idle_panel cfg io p.

(** [GuildPlayer._cancel_idle_timer]. *)
Definition _cancel_idle_timer (p : GuildPlayer) : GuildPlayer :=
  set_idle_started_mono None (set_idle_task false p).

(** [GuildPlayer._start_idle_timer_if_needed]; the body of the task it
    creates is [_idle_wait_start] and [_idle_wait_expired] below. *)
Definition _start_idle_timer_if_needed (cfg : Config) (now_mono : Z)
    (io : PanelIO) (p : GuildPlayer) : Outcome :=
  if negb (voice_connected p) then Returns p
  else if negb (_has_humans p) then
    _safe_disconnect cfg now_mono io (_cancel_idle_timer p)
  else if voice_playing p || voice_paused p then Returns (_cancel_idle_timer p)
  else if negb (_queue_empty p) then Returns (_cancel_idle_timer p)
  else if _idle_task p then Returns p
  else Returns (set_idle_task true p).

(** [_idle_wait], up to its [asyncio.sleep(300)]. *)
Definition _idle_wait_start (now_mono : Z) (p : GuildPlayer) : GuildPlayer :=
  set_idle_started_mono (Some now_mono) p.

(** [_idle_wait], after the sleep has run its 300 seconds; the
    [finally] clears the task and the countdown on every way out. *)
Definition _idle_wait_expired (cfg : Config) (now_mono : Z) (io : PanelIO)
    (p : GuildPlayer) : Outcome :=
  finally
    (if negb (voice_connected p) then Returns p
     else if voice_playing p || voice_paused p then Returns p
     else if negb (_queue_empty p) then Returns p
     else _safe_disconnect cfg now_mono io p)
    (fun p => set_idle_started_mono None (set_idle_task false p)).

(** [GuildPlayer._on_track_start], [_on_track_end], [_on_queue_updated]. *)
Definition _on_track_start (now_mono : Z) (p : GuildPlayer) : GuildPlayer :=
  set_last_activity_mono now_mono (_cancel_idle_timer p).

Definition _on_track_end (cfg : Config) (now_mono : Z) (io : PanelIO)
    (p : GuildPlayer) : Outcome :=
  _start_idle_timer_if_needed cfg now_mono io p.

Definition _on_queue_updated (cfg : Config) (now_mono : Z) (io : PanelIO)
    (p : GuildPlayer) : Outcome :=
  if negb (_queue_empty p) then Returns (_cancel_idle_timer p)
  else _start_idle_timer_if_needed cfg now_mono io p.

(** ** The playback loop

    [GuildPlayer.player_loop] is cut at the places one iteration can be
    observed: the [while] test, the queue check [if not self.queue:], the
    wait for the end of the track.  Each stretch is a function of the
    player state it starts from; other tasks (the controls, [enqueue])
    run between stretches and inside the waits.  An exception that
    leaves the loop ends its task; the player stays as it is then, and
    the next [ensure_loop] starts a new loop. *)

Inductive Ctl :=
  | LoopExit (p : GuildPlayer)      (** [self._stopped] holds: the loop ends *)
  | LoopContinue (p : GuildPlayer)  (** back to the [while] test *)
  | QueueCheck (p : GuildPlayer)    (** at [if not self.queue:] *)
  | WaitTrack (p : GuildPlayer)     (** at [await self.next_event.wait()] *)
  | LoopDied (e : string) (p : GuildPlayer)
                                    (** a panel update raised: the
                                        exception leaves the loop *)
  | LoopCrash.                      (** [popleft] on an empty queue raised *)

(** A call the loop awaits outside any [try], followed by [continue]. *)
Definition then_continue (o : Outcome) : Ctl :=
  match o with
  | Returns p => LoopContinue p
  | Raises e p => LoopDied e p
  end.

(** The first statement of [player_loop]. *)
Definition loop_enter (p : GuildPlayer) : GuildPlayer := set_stopped false p.

(** From the [while] test to the queue check: the alone disconnect and
    the idle tracking. *)
Definition loop_top (cfg : Config) (env : Env) (p : GuildPlayer) : Ctl :=
  if _stopped p then LoopExit p
  else if voice_connected p && negb (_has_humans p) then
    then_continue (_safe_disconnect cfg (mono env 0) (panel env 0) p)
  else if voice_connected p && negb (voice_playing p)
          && negb (voice_paused p) && negb (list_truthy (queue p)) then
    let now_mono := mono env 1 in
    match _idle_started_mono p with
    | None => QueueCheck (set_idle_started_mono (Some now_mono) p)
    | Some started =>
        if (300 * SECOND <=? now_mono - started)%Z then
          let p := set_voice None p in
          let p := set_current None p in
          let p := set_idle_started_mono None p in
          then_continue (idle_panel cfg (panel env 1) p)
        else QueueCheck p
    end
  else QueueCheck (set_idle_started_mono None p).

(** The queue check on an empty queue: the event is cleared and the loop
    waits for it, 30 seconds at most. *)
Definition queue_wait_begin (p : GuildPlayer) : GuildPlayer :=
  set_queue_event false p.

(** The wait timed out. *)
Definition queue_wait_timeout (cfg : Config) (env : Env) (p : GuildPlayer) : Ctl :=
  if DELETE_PANEL_ON_IDLE cfg && negb (bool_decide (current p ≠ None))
  then LoopContinue (delete_panel (panel env 2) p)
  else LoopContinue p.

(** From [self.current = self.queue.popleft()] to the wait for the end of
    the track.  What [voice.play] or the panel update raises is caught:
    the rest of the [try] is skipped and the completion event is set. *)
Definition start_track (cfg : Config) (env : Env) (p : GuildPlayer) : Ctl :=
  match queue p with
  | [] => LoopCrash
  | t :: rest =>
      let p := set_current (Some t) (set_queue rest p) in
      if negb (voice_connected p) then LoopContinue (set_current None p)
      else
        let p := set_last_activity_mono (mono env 3) p in
        let p := _update_history_for_track (current p) p in
        let p := set_next_event false p in
        let p := set_start_time_utc (Some (utc_now env)) p in
        let p := _on_track_start (mono env 4) p in
        if play_ok env then
          let p := match voice p with
                   | Some v => set_voice (Some (vc_resume v)) p
                   | None => p
                   end in
          match post_or_update_panel (panel env 3) p with
          | Returns p =>
              let p :=
                _bump_panel_if_needed cfg true (mono env 5) (panel env 4) p in
              WaitTrack (set_ui_task true p)
          | Raises _ p => WaitTrack (set_next_event true p)
          end
        else WaitTrack (set_next_event true p)
  end.

(** The queue check itself, when the loop does not have to wait. *)
Definition queue_check (cfg : Config) (env : Env) (p : GuildPlayer) : option Ctl :=
  if negb (list_truthy (queue p)) then None
  else Some (start_track cfg env p).

(** The repeat policy: [if self.repeat_mode == "one" and self.current: ...]
    and [if not self.queue and self.repeat_mode == "all" and
    self._history: ...]. *)
Definition apply_repeat (p : GuildPlayer) : GuildPlayer :=
  let p :=
    match current p with
    | Some c =>
        if String.eqb (repeat_mode p) "one"
        then set_queue (c :: queue p) p else p
    | None => p
    end in
  if negb (list_truthy (queue p)) && String.eqb (repeat_mode p) "all"
     && list_truthy (_history p)
  then set_queue (queue p ++ _history p) p
  else p.

(** From the end of the track (the completion event is set) back to the
    [while] test; the calls are awaited outside any [try], so that an
    exception ends the loop where it is raised. *)
Definition after_track (cfg : Config) (env : Env) (p : GuildPlayer) : Outcome :=
  let p := set_ui_task false p in
  let p := set_start_time_utc None p in
  let p := _cleanup_temp_cookie_file p in
  let p := set_navigating_history false p in
  let p := set_last_activity_mono (mono env 6) p in
  let p :=
    if negb (list_truthy (queue p)) && bool_decide (voice p ≠ None)
       && negb (voice_playing p) && negb (voice_paused p)
    then set_current None p else p in
  await p ← _on_track_end cfg (mono env 7) (panel env 5) p;
  if _stopped p then
    if DELETE_PANEL_ON_IDLE cfg then Returns (delete_panel (panel env 6) p)
    else post_or_update_panel (panel env 6) (set_current None p)
  else
    let p := apply_repeat p in
    if list_truthy (queue p) then post_or_update_panel (panel env 7) p
    else
      await p ← post_or_update_panel (panel env 8) p;
      let p := _bump_panel_if_needed cfg true (mono env 8) (panel env 9) p in
      if DELETE_PANEL_ON_IDLE cfg then Returns (delete_panel (panel env 10) p)
      else post_or_update_panel (panel env 10) (set_current None p).
(** ** Text matching *)

(** [s.startswith(pre)], returning the rest of [s]. *)
Fixpoint strip_prefix (pre s : string) : option string :=
  match pre, s with
  | EmptyString, _ => Some s
  | String a pre', String b s' =>
      if Ascii.eqb a b then strip_prefix pre' s' else None
  | String _ _, EmptyString => None
  end.

Definition startswith (pre s : string) : bool :=
  bool_decide (strip_prefix pre s ≠ None).

(** [needle in hay]. *)
Fixpoint contains (needle hay : string) : bool :=
  startswith needle hay ||
  match hay with
  | EmptyString => false
  | String _ hay' => contains needle hay'
  end.

(** [s.lower()] on the ASCII letters. *)
Definition ascii_lower (c : Ascii.ascii) : Ascii.ascii :=
  let n := Ascii.nat_of_ascii c in
  if (65 <=? n)%nat && (n <=? 90)%nat then Ascii.ascii_of_nat (n + 32) else c.

Fixpoint lower (s : string) : string :=
  match s with
  | EmptyString => EmptyString
  | String c s' => String (ascii_lower c) (lower s')
  end.

(** The class [[A-Za-z0-9]]. *)
Definition is_alnum (c : Ascii.ascii) : bool :=
  let n := Ascii.nat_of_ascii c in
  ((65 <=? n) && (n <=? 90) || (97 <=? n) && (n <=? 122)
   || (48 <=? n) && (n <=? 57))%nat.

(** The longest prefix of [s] in [[A-Za-z0-9]*]. *)
Fixpoint take_alnum (s : string) : string :=
  match s with
  | String c s' => if is_alnum c then String c (take_alnum s') else EmptyString
  | EmptyString => EmptyString
  end.

(** [(track|album|playlist)/([A-Za-z0-9]+)] at the start of [s]. *)
Definition match_kind_ident (s : string) : option (string * string) :=
  let try_kind kind :=
    match strip_prefix (kind +:+ "/") s with
    | Some rest =>
        let ident := take_alnum rest in
        if str_truthy ident then Some (kind, ident) else None
    | None => None
    end in
  match try_kind "track" with
  | Some r => Some r
  | None =>
      match try_kind "album" with
      | Some r => Some r
      | None => try_kind "playlist"
      end
  end.

(** [SPOTIFY_URL_RE.match(query)]: the groups (kind, ident) of
    [https?://open\.spotify\.com/(track|album|playlist)/([A-Za-z0-9]+)]
    matched at the start of [query]. *)
Definition SPOTIFY_URL_RE_match (query : string) : option (string * string) :=
  let after_scheme :=
    match strip_prefix "https://" query with
    | Some rest => Some rest
    | None => strip_prefix "http://" query
    end in
  match after_scheme with
  | Some rest =>
      match strip_prefix "open.spotify.com/" rest with
      | Some rest' => match_kind_ident rest'
      | None => None
      end
  | None => None
  end.

(** [_is_yt_playlist]. *)
Definition _is_yt_playlist (url : string) : bool :=
  let u := lower url in
  contains "youtube.com/playlist" u
  || (contains "list=" u && (contains "youtube.com" u || contains "youtu.be/" u)).

(** ** The resolver *)

(** The options handed to yt-dlp, as far as the player changes them. *)
Record YtdlOpts := {
  cookiesfrombrowser : option string;
  cookiefile : option string
}.

(** A track object of the Spotify API: the names of its artists, its
    name, and the [is_local] flag of playlist items. *)
Record SpTrack := {
  sp_artists : list string;
  sp_name : string;
  sp_is_local : bool
}.

(** The Spotify client: [sp.track(id)], the [items] of the page
    [sp.album_tracks(id, limit=, offset=)] and of the page
    [sp.playlist_items(id, ..., limit=, offset=)], whose [track] may be
    missing. *)
Record Spotify := {
  sp_track : string → Exc SpTrack;
  sp_album_tracks : string → Z → Z → Exc (list SpTrack);
  sp_playlist_items : string → Z → Z → Exc (list (option SpTrack))
}.

(** A flat playlist entry of yt-dlp and the playlist info. *)
Record YtEntry := {
  entry_id : option string;
  entry_url : option string;
  entry_webpage_url : option string
}.

Record YtPlaylistInfo := {
  info_id : option string;
  info_entries : list YtEntry
}.

(** The collaborators of [enqueue]: the Spotify client [make_spotify()]
    builds ([None] without credentials), [yt_extract] for a URL or a
    search, the flat extraction of a playlist ([Ok None] is an empty
    answer), and the path [write_temp_cookie_file_from_b64] creates
    ([None] when it raises). *)
Record Resolver := {
  make_spotify : option Spotify;
  yt_extract : YtdlOpts → string → Exc Track;
  yt_playlist_info : YtdlOpts → string → Exc (option YtPlaylistInfo);
  write_temp_cookie_file : option string
}.

(** [yt_search_first]. *)
Definition yt_search_first (r : Resolver) (opts : YtdlOpts) (query : string)
  : Exc Track :=
  yt_extract r opts ("ytsearch1:" +:+ query).

(** [_normalize_url] of [yt_extract_playlist]. *)
Definition _normalize_url (playlist_id : string) (entry : YtEntry) : option string :=
  let truthy o := match o with Some s => str_truthy s | None => false end in
  let page_url := if truthy (entry_url entry) then entry_url entry
                  else entry_webpage_url entry in
  match page_url with
  | Some u =>
      if str_truthy u && (startswith "http://" u || startswith "https://" u)
      then Some u
      else
        match entry_id entry with
        | Some vid =>
            if str_truthy vid then
              Some ("https://www.youtube.com/watch?v=" +:+ vid +:+
                    (if str_truthy playlist_id
                     then "&list=" +:+ playlist_id else EmptyString))
            else None
        | None => None
        end
  | None =>
      match entry_id entry with
      | Some vid =>
          if str_truthy vid then
            Some ("https://www.youtube.com/watch?v=" +:+ vid +:+
                  (if str_truthy playlist_id
                   then "&list=" +:+ playlist_id else EmptyString))
          else None
      | None => None
      end
  end.

(** The [for i, entry in enumerate(entries)] loop of
    [yt_extract_playlist]: entries past [PLAYLIST_MAX] are not looked at,
    entries without a URL and entries whose extraction raises are
    skipped. *)
Fixpoint playlist_loop (cfg : Config) (r : Resolver) (opts : YtdlOpts)
    (playlist_id : string) (i : Z) (entries : list YtEntry) : list Track :=
  match entries with
  | [] => []
  | entry :: rest =>
      if (PLAYLIST_MAX cfg <=? i)%Z then []
      else
        match _normalize_url playlist_id entry with
        | None => playlist_loop cfg r opts playlist_id (i + 1) rest
        | Some page_url =>
            match yt_extract r opts page_url with
            | Ok t => t :: playlist_loop cfg r opts playlist_id (i + 1) rest
            | _ => playlist_loop cfg r opts playlist_id (i + 1) rest
            end
        end
  end.

(** [yt_extract_playlist]. *)
Definition yt_extract_playlist (cfg : Config) (r : Resolver) (opts : YtdlOpts)
    (url : string) : Exc (list Track) :=
  info ← yt_playlist_info r opts url;
  match info with
  | None => Raise "Could not extract playlist info"
  | Some info =>
      let playlist_id := default EmptyString (info_id info) in
      let out := playlist_loop cfg r opts playlist_id 0 (info_entries info) in
      if list_truthy out then Ok out
      else Raise "Playlist contained no playable tracks"
  end.

(** ** Spotify expansion

    [_spotify_page_album_tracks] and [_spotify_page_playlist_items] are
    generators, consumed by the [for] loops of [create_tracks_from_query]
    which stop at [SPOTIFY_MAX] resolved tracks.  The model runs generator
    and consumer together: [catalog_page] is the consumer over the items
    of one page, [catalog_pages] the generator's [while True] around it.
    The two copies of the source differ in the page size, the call that
    fetches a page and the way an item becomes a search query; these are
    the parameters. *)

Section Catalog.
Context {Item : Type}.
Variable cfg : Config.
Variable r : Resolver.
Variable opts : YtdlOpts.
(** [sp.album_tracks(id, limit=, offset=)] or [sp.playlist_items(...)]. *)
Variable fetch : Z → Z → Exc (list Item).
(** The search query of an item; [Ok None] is the [continue] of the
    playlist loop. *)
Variable query_of : Item → Exc (option string).

(** The consumer over the items of one page: whether it left with
    [break], the count and the results. *)
Fixpoint catalog_page (items : list Item) (count : Z) (results : list Track)
  : Exc (bool * Z * list Track) :=
  match items with
  | [] => Ok (false, count, results)
  | it :: rest =>
      q ← query_of it;
      match q with
      | None => catalog_page rest count results
      | Some q =>
          t ← yt_search_first r opts q;
          let results := results ++ [t] in
          let count := (count + 1)%Z in
          if (SPOTIFY_MAX cfg <=? count)%Z then Ok (true, count, results)
          else catalog_page rest count results
      end
  end.

(** The generator's loop, one page per unit of fuel; [None] when the
    fuel runs out. *)
Fixpoint catalog_pages (fuel : nat) (limit fetched offset count : Z)
    (results : list Track) : option (Exc (list Track)) :=
  match fuel with
  | O => None
  | S fuel' =>
      match fetch limit offset with
      | Raise msg => Some (Raise msg)
      | Ok items =>
          if negb (list_truthy items) then Some (Ok results)
          else
            match catalog_page items count results with
            | Raise msg => Some (Raise msg)
            | Ok (broke, count, results) =>
                if broke : bool then Some (Ok results)
                else
                  let fetched := (fetched + Z.of_nat (length items))%Z in
                  if (SPOTIFY_MAX cfg <=? fetched)%Z then Some (Ok results)
                  else
                    let offset := (offset + Z.of_nat (length items))%Z in
                    if (Z.of_nat (length items) <? limit)%Z
                    then Some (Ok results)
                    else catalog_pages fuel' limit fetched offset count results
            end
      end
  end.

(** The generator fetches a further page only while fewer than
    [SPOTIFY_MAX] items were fetched, and every page it goes on from
    holds an item: this many pages are enough ([catalog_pages_total]
    below), so the last case of [catalog_tracks] is never taken. *)
Definition catalog_fuel : nat := S (Z.to_nat (SPOTIFY_MAX cfg)).

Definition catalog_tracks (limit : Z) : Exc (list Track) :=
  match catalog_pages catalog_fuel limit 0 0 0 [] with
  | Some res => res
  | None => Raise "unreachable"
  end.
End Catalog.

(** [t['artists'][0]['name']]: an [IndexError] without artists. *)
Definition first_artist (t : SpTrack) : Exc string :=
  match sp_artists t with
  | a :: _ => Ok a
  | [] => Raise "list index out of range"
  end.

(** The query of an album item, [f"{artist} {name} audio"]. *)
Definition album_query (t : SpTrack) : Exc (option string) :=
  a ← first_artist t;
  Ok (Some (a +:+ " " +:+ sp_name t +:+ " audio")).

(** The query of a playlist item: missing and local tracks are skipped,
    and a track without artists is searched by its name. *)
Definition playlist_query (it : option SpTrack) : Exc (option string) :=
  match it with
  | None => Ok None
  | Some t =>
      if sp_is_local t then Ok None
      else
        let artist_name := match sp_artists t with a :: _ => a | [] => EmptyString end in
        Ok (Some (artist_name +:+ " " +:+ sp_name t +:+ " audio"))
  end.

(** [create_tracks_from_query]. *)
Definition create_tracks_from_query (cfg : Config) (r : Resolver)
    (opts : YtdlOpts) (query : string) : Exc (list Track) :=
  match SPOTIFY_URL_RE_match query with
  | Some (kind, ident) =>
      match make_spotify r with
      | None => Raise "Spotify credentials missing"
      | Some sp =>
          if String.eqb kind "track" then
            t ← sp_track sp ident;
            a ← first_artist t;
            tr ← yt_search_first r opts (a +:+ " " +:+ sp_name t +:+ " audio");
            Ok [tr]
          else if String.eqb kind "album" then
            catalog_tracks cfg r opts (sp_album_tracks sp ident) album_query 50
          else if String.eqb kind "playlist" then
            catalog_tracks cfg r opts (sp_playlist_items sp ident) playlist_query 100
          else Ok []
      end
  | None =>
      if _is_yt_playlist query then yt_extract_playlist cfg r opts query
      else if contains "youtube.com" query || contains "youtu.be" query then
        t ← yt_extract r opts query; Ok [t]
      else
        t ← yt_search_first r opts query; Ok [t]
  end.

(** ** Enqueue *)

(** [BASE_YTDL_OPTS], as far as the cookies go. *)
Definition BASE_YTDL_OPTS (cfg : Config) : YtdlOpts :=
  if str_truthy (YTDLP_COOKIES_FROM_BROWSER cfg) then
    {| cookiesfrombrowser := Some (YTDLP_COOKIES_FROM_BROWSER cfg);
       cookiefile := None |}
  else if str_truthy (YTDLP_COOKIES_FILE cfg) then
    {| cookiesfrombrowser := None; cookiefile := Some (YTDLP_COOKIES_FILE cfg) |}
  else {| cookiesfrombrowser := None; cookiefile := None |}.

(** [GuildPlayer._ensure_temp_cookie_file]. *)
Definition _ensure_temp_cookie_file (cfg : Config) (r : Resolver)
    (p : GuildPlayer) : GuildPlayer :=
  match _temp_cookie_path p with
  | None =>
      if str_truthy (YTDLP_COOKIES_B64 cfg) then
        match write_temp_cookie_file r with
        | Some path => set_temp_cookie_path (Some path) p
        | None => p
        end
      else p
  | Some _ => p
  end.

(** [GuildPlayer.ytdl_opts]: the options and the player it leaves. *)
Definition ytdl_opts (cfg : Config) (r : Resolver) (p : GuildPlayer)
  : YtdlOpts * GuildPlayer :=
  let opts := BASE_YTDL_OPTS cfg in
  if str_truthy (YTDLP_COOKIES_B64 cfg)
     && negb (str_truthy (YTDLP_COOKIES_FROM_BROWSER cfg))
     && negb (str_truthy (YTDLP_COOKIES_FILE cfg)) then
    let p := _ensure_temp_cookie_file cfg r p in
    match _temp_cookie_path p with
    | Some path =>
        ({| cookiesfrombrowser := cookiesfrombrowser opts;
            cookiefile := Some path |}, p)
    | None => (opts, p)
    end
  else (opts, p).

(** The [for t in tracks] loop of [enqueue]: the admitted tracks, in
    order, and the player. *)
Fixpoint enqueue_loop (requester : option Member) (tracks : list Track)
    (p : GuildPlayer) : list Track * GuildPlayer :=
  match tracks with
  | [] => ([], p)
  | t :: rest =>
      if negb (str_truthy (stream_url t)) then enqueue_loop requester rest p
      else
        let p := set_seq_counter (_seq_counter p + 1) p in
        let wrapped :=
          {| seq := Some (_seq_counter p); title := title t;
             stream_url := stream_url t; webpage_url := webpage_url t;
             duration := duration t; thumbnail := thumbnail t;
             requested_by := requester |} in
        let p := set_queue (queue p ++ [wrapped]) p in
        let '(good, p)  := enqueue_loop requester rest p in
        (wrapped :: good, p)
  end.

(** [GuildPlayer.ensure_loop]. *)
Definition ensure_loop (p : GuildPlayer) : GuildPlayer :=
  if loop_task p then p else set_loop_task true p.

(** [GuildPlayer.enqueue]: what the caller gets (the admitted tracks, or
    the [RuntimeError] with the message of the resolver's exception, or
    what [_on_queue_updated] raises) and the player it leaves. *)
Definition enqueue (cfg : Config) (r : Resolver) (now_mono : Z) (io : PanelIO)
    (query : string) (requester : option Member) (p : GuildPlayer)
  : Exc (list Track) * GuildPlayer :=
  let '(opts, p) := ytdl_opts cfg r p in
  match create_tracks_from_query cfg r opts query with
  | Ok tracks =>
      let '(good, p) := enqueue_loop requester tracks p in
      if list_truthy good then
        let p := set_queue_event true p in
        let p := ensure_loop p in
        let p := set_last_activity_mono now_mono p in
        match _on_queue_updated cfg now_mono io p with
        | Returns p => (Ok good, p)
        | Raises e p => (Raise e, p)
        end
      else (Ok good, p)
  | Raise msg => (Raise msg, p)
  end.
(** ** Extraction with retries *)

(** The loop of [_extract_with_retries]: [attempt i] is what the [i]-th
    call of [_ydl_extract_async(url, opts)] does, [n] the passes of the
    [for] that are left.  The result comes with the number of calls made.
    When no pass ran, [raise last_err] raises [None], a [TypeError]. *)
Fixpoint retry_loop {A} (attempt : nat → Exc A) (n i : nat)
    (last_err : option string) : Exc A * nat :=
  match n with
  | O =>
      (match last_err with
       | Some e => Raise e
       | None => Raise "exceptions must derive from BaseException"
       end, i)
  | S n' =>
      match attempt i with
      | Ok a => (Ok a, S i)
      | Raise e => retry_loop attempt n' (S i) (Some e)
      end
  end.

(** [_extract_with_retries]; [max_retries] is [YTDL_MAX_RETRIES]. *)
Definition _extract_with_retries {A} (max_retries : Z) (attempt : nat → Exc A)
    (tries : option Z) : Exc A * nat :=
  let tries := match tries with None => max_retries | Some t => t end in
  retry_loop attempt (Z.to_nat (tries + 1)) 0 None.

(** ** One video *)

(** What [yt_extract] reads of the info yt-dlp returns.  A format: its
    audio codec, its average bitrate and its URL. *)
Record Format := {
  acodec : option string;
  abr : option Q;
  format_url : option string
}.

(** The [height] of a thumbnail: the key is absent, or holds [None], or
    an integer. *)
Inductive Height :=
  | NoHeight
  | NullHeight
  | HeightOf (h : Z).

Record Thumb := {
  thumb_height : Height;
  thumb_url : option string
}.

Record Media := {
  media_url : option string;
  media_formats : list Format;
  media_title : option string;
  media_webpage_url : option string;
  media_duration : option Z;
  media_thumbnails : list Thumb
}.

(** The answer of an extraction: nothing ([None] or an empty dict), a
    dict with the key [entries] (an entry may be [None]), or the dict of
    one video. *)
Inductive Extracted :=
  | NoInfo
  | Entries (entries : list (option Media))
  | Medium (m : Media).

(** [if info and "entries" in info: info = info["entries"][0]], then the
    info seen by [if not info]. *)
Definition first_entry (x : Extracted) : Exc (option Media) :=
  match x with
  | NoInfo => Ok None
  | Entries [] => Raise "list index out of range"
  | Entries (e :: _) => Ok e
  | Medium m => Ok (Some m)
  end.

(** [f.get("acodec") not in (None, "none")]. *)
Definition has_audio (f : Format) : bool :=
  match acodec f with
  | Some c => negb (String.eqb c "none")
  | None => false
  end.

(** [f.get("abr") or 0]. *)
Definition abr_key (f : Format) : Q := default 0%Q (abr f).

(** [max(..., key=...)]: the first format with the largest key. *)
Fixpoint max_by_abr (best : Format) (fs : list Format) : Format :=
  match fs with
  | [] => best
  | f :: fs' =>
      max_by_abr (if Qle_bool (abr_key f) (abr_key best) then best else f) fs'
  end.

(** [_pick_stream] of [yt_extract]. *)
Definition _pick_stream (info_obj : Media) : option string :=
  if optstr_truthy (media_url info_obj) then media_url info_obj
  else
    match filter (fun f => has_audio f = true) (media_formats info_obj) with
    | [] => None
    | f :: fs => format_url (max_by_abr f fs)
    end.

(** [t.get("height", 0)]; [None] is a height that is [None]. *)
Definition height_key (t : Thumb) : option Z :=
  match thumb_height t with
  | NoHeight => Some 0%Z
  | NullHeight => None
  | HeightOf h => Some h
  end.

(** The first thumbnail of the largest height (the sort is stable). *)
Fixpoint tallest (best : Thumb) (ts : list Thumb) : Thumb :=
  match ts with
  | [] => best
  | t :: ts' =>
      tallest (if (default 0 (height_key best) <? default 0 (height_key t))%Z
               then t else best) ts'
  end.

(** [sorted(thumbs, key=..., reverse=True)[0]["url"] if thumbs else None]:
    sorting two thumbnails or more compares their heights, a [TypeError]
    when one is [None]; a thumbnail without [url] is a [KeyError].
    [sort_error thumbs] is the message of the [TypeError]: it names the
    types of the two heights of the first comparison that fails, in the
    order the sort compares them. *)
Definition pick_thumbnail (sort_error : list Thumb → string)
    (thumbs : list Thumb) : Exc (option string) :=
  match thumbs with
  | [] => Ok None
  | t :: ts =>
      if list_truthy ts
         && existsb (fun t => bool_decide (height_key t = None)) thumbs
      then Raise (sort_error thumbs)
      else
        match thumb_url (tallest t ts) with
        | Some u => Ok (Some u)
        | None => Raise "'url'"
        end
  end.

(** The body of [yt_extract]: [extract web_only url] is the answer of
    [_extract_with_retries(url, opts)], with the given options or with
    the options of the web client only, [sort_error] the message of the
    [TypeError] of the sort of the thumbnails. *)
Definition yt_extract_info (sort_error : list Thumb → string)
    (extract : bool → string → Exc Extracted) (url : string) : Exc Track :=
  x ← extract false url;
  info ← first_entry x;
  match info with
  | None => Raise "Could not extract YouTube info"
  | Some info =>
      stream ←
        (let stream := _pick_stream info in
         if negb (optstr_truthy stream) then
           x2 ← extract true url;
           info2 ← first_entry x2;
           match info2 with
           | Some info2 => Ok (_pick_stream info2)
           | None => Ok None
           end
         else Ok stream);
      match stream with
      | None => Raise "No streamable audio found"
      | Some s =>
          if negb (str_truthy s) then Raise "No streamable audio found"
          else
            thumb ← pick_thumbnail sort_error (media_thumbnails info);
            Ok {| seq := None;
                  title := if optstr_truthy (media_title info)
                           then default EmptyString (media_title info)
                           else "Unknown";
                  stream_url := s;
                  webpage_url := if optstr_truthy (media_webpage_url info)
                                 then default EmptyString (media_webpage_url info)
                                 else url;
                  duration := media_duration info;
                  thumbnail := thumb;
                  requested_by := None |}
      end
  end.

(** ** The audio source *)

(** What [_ffmpeg_source] hands to [discord.FFmpegOpusAudio], as far as
    it is computed: the URL and the bitrate in kbit/s. *)
Record AudioSource := {
  source_url : string;
  source_bitrate : Z
}.

(** [GuildPlayer._ffmpeg_source]; [cap_env] is the environment variable
    [MUSIC_OPUS_BITRATE_MAX] and [int_of] the conversion [int(...)]
    ([None] when it raises).  Without a current track,
    [self.current.stream_url] is an [AttributeError]. *)
Definition _ffmpeg_source (int_of : string → option Z) (cap_env : option string)
    (p : GuildPlayer) : option AudioSource :=
  let ch_bps :=
    match voice p with
    | Some v =>
        match channel v with
        | Some ch => bitrate ch
        | None => 128000%Z
        end
    | None => 128000%Z
    end in
  let cap_kbps :=
    if optstr_truthy cap_env then
      match int_of (default EmptyString cap_env) with
      | Some n => Some (Z.max 8 (Z.min 512 n))
      | None => None
      end
    else None in
  let kbps := (ch_bps / 1000)%Z in
  let kbps := match cap_kbps with Some c => Z.min kbps c | None => kbps end in
  let kbps := Z.max 8 (Z.min 512 kbps) in
  match current p with
  | Some c => Some {| source_url := stream_url c; source_bitrate := kbps |}
  | None => None
  end.

(** ** Old panels *)

(** An embed of a message read back from the channel: its title and the
    name of its author, if it has them. *)
Record PostedEmbed := {
  posted_title : option string;
  posted_author : option string
}.

Record Message := {
  message_id : Z;
  author_id : Z;
  embeds : list PostedEmbed
}.

(** The loop of [_cleanup_old_panels] over the messages of the history:
    the ids of the messages it calls [delete()] on. *)
Fixpoint cleanup_loop (bot_id keep_id : Z) (history : list Message) : list Z :=
  match history with
  | [] => []
  | m :: rest =>
      if negb (author_id m =? bot_id)%Z then cleanup_loop bot_id keep_id rest
      else if (message_id m =? keep_id)%Z then cleanup_loop bot_id keep_id rest
      else
        match embeds m with
        | [] => cleanup_loop bot_id keep_id rest
        | embed :: _ =>
            if bool_decide (posted_author embed = Some "DiscBot Music Console")
            then message_id m :: cleanup_loop bot_id keep_id rest
            else cleanup_loop bot_id keep_id rest
        end
  end.

(** [GuildPlayer._cleanup_old_panels]: [bot_user] is the id of
    [self.bot.user], [history] what [ch.history(limit=30)] yields (an
    exception ends the cleanup). *)
Definition _cleanup_old_panels (bot_user : option Z)
    (history : Exc (list Message)) (keep_id : Z) : list Z :=
  match bot_user with
  | None => []
  | Some bot_id =>
      match history with
      | Ok messages => cleanup_loop bot_id keep_id messages
      | Raise _ => []
      end
  end.

(** ** Repeat commands *)

(** [RepeatModeView._set_mode], on the player: the mode is set and the
    panel refreshed.  Its three buttons call it with their mode. *)
Definition _set_mode (mode : string) (io : PanelIO) (p : GuildPlayer)
  : Outcome :=
  post_or_update_panel io (set_repeat_mode mode p).

Definition btn_off := _set_mode "off".
Definition btn_one := _set_mode "one".
Definition btn_all := _set_mode "all".

(** [Music.slash_repeat] in a guild: the reply, sent before the panel is
    refreshed, and the outcome for the player. *)
Definition slash_repeat (mode : option string) (io : PanelIO) (p : GuildPlayer)
  : string * Outcome :=
  if optstr_truthy mode then
    let mode := default EmptyString mode in
    if negb (bool_decide (mode ∈ ["off"; "one"; "all"]))
    then ("Valid modes: off, one, all", Returns p)
    else ("Repeat mode set to **" +:+ mode +:+ "**",
          post_or_update_panel io (set_repeat_mode mode p))
  else ("Select a repeat mode below to re-arm the deck.", Returns p).

(** ** The players of the bot *)

(** [Music.get_player]: the player and the registry [self.players]. *)
Definition get_player (g : Guild) (now_mono : Z) (players : gmap Z GuildPlayer)
  : GuildPlayer * gmap Z GuildPlayer :=
  match players !! guild_id g with
  | Some p => (p, players)
  | None =>
      let p := new_player g now_mono in
      (p, <[guild_id g := p]> players)
  end.

(** [Music.on_message]: [author_bot] is [message.author.bot],
    [guild] the id of [message.guild], [channel_id] the id of the
    channel of the message.  The result is the registry the listener
    leaves; when the panel update raises, the listener ends there and
    the bump is not tried. *)
Definition on_message (cfg : Config) (author_bot : bool) (guild : option Z)
    (channel_id : Z) (now_mono : Z) (io_post io_bump : PanelIO)
    (players : gmap Z GuildPlayer) : gmap Z GuildPlayer :=
  if author_bot then players
  else
    match guild with
    | None => players
    | Some gid =>
        match players !! gid with
        | None => players
        | Some p =>
            if negb (optint_truthy (panel_channel_id p))
               || negb (bool_decide (Some channel_id = panel_channel_id p))
            then players
            else
              match post_or_update_panel io_post p with
              | Returns p =>
                  <[gid := _bump_panel_if_needed cfg false now_mono io_bump p]>
                    players
              | Raises _ p => <[gid := p]> players
              end
        end
    end.
(** * The logo ([branding.py]) *)

Module branding.

(** What the module reads when it is imported: three environment
    variables, and for a path whether it exists ([Path.exists]) and its
    last component ([Path.name]); [strip] is [str.strip]. *)
Record LogoEnv := {
  BOT_LOGO_PATH : option string;
  BOT_LOGO_ATTACHMENT_NAME : option string;
  BOT_LOGO_URL : option string;
  path_exists : string → bool;
  path_name : string → string;
  strip : string → string
}.

(** The module constants. *)
Record Constants := {
  LOGO_PATH : option string;
  LOGO_ATTACHMENT_NAME : option string;
  LOGO_URL : option string
}.

(** The module body. *)
Definition load (e : LogoEnv) : Constants :=
  let _raw_path := default "assets/jakobys_bot.png" (BOT_LOGO_PATH e) in
  let logo_path := if path_exists e _raw_path then Some _raw_path else None in
  let name := BOT_LOGO_ATTACHMENT_NAME e in
  let name := if optstr_truthy name then option_map (strip e) name else name in
  let name :=
    match logo_path with
    | Some path => if negb (optstr_truthy name) then Some (path_name e path) else name
    | None => name
    end in
  let url := strip e (default EmptyString (BOT_LOGO_URL e)) in
  {| LOGO_PATH := logo_path;
     LOGO_ATTACHMENT_NAME := name;
     LOGO_URL := if negb (str_truthy url) then None else Some url |}.

(** [logo_embed_url]. *)
Definition logo_embed_url (c : Constants) : option string :=
  match LOGO_PATH c with
  | Some _ =>
      if optstr_truthy (LOGO_ATTACHMENT_NAME c)
      then Some ("attachment://" +:+ default EmptyString (LOGO_ATTACHMENT_NAME c))
      else if optstr_truthy (LOGO_URL c) then LOGO_URL c else None
  | None => if optstr_truthy (LOGO_URL c) then LOGO_URL c else None
  end.

(** [logo_requires_attachment]. *)
Definition logo_requires_attachment (c : Constants) : bool :=
  bool_decide (LOGO_PATH c ≠ None) && bool_decide (LOGO_ATTACHMENT_NAME c ≠ None).

(** [build_logo_file]: the path and the file name of the [discord.File]. *)
Definition build_logo_file (c : Constants) : option (string * string) :=
  match LOGO_PATH c with
  | Some path =>
      if optstr_truthy (LOGO_ATTACHMENT_NAME c)
      then Some (path, default EmptyString (LOGO_ATTACHMENT_NAME c))
      else None
  | None => None
  end.

End branding.

(** The file the panel is sent with:
    [build_logo_file() if logo_requires_attachment() else None]. *)
Definition panel_logo_file (c : branding.Constants) : option (string * string) :=
  if branding.logo_requires_attachment c then branding.build_logo_file c
  else None.

(** * The dice roller ([diceroller.py])

    The notation is a Python [str]: a list of Unicode code points.  The
    classes [\s] and [\d] of the pattern are Unicode classes; below 128
    they are written out, above they are the tables of the runtime, taken
    as [unicode_space] and [unicode_digit] (the decimal value of a digit,
    which is also what [int] reads).  [randint i a b] is the value
    [random.randint(a, b)] returns on the [i]-th draw of a roll. *)

Section DiceRoller.
Variable unicode_space : Z → bool.
Variable unicode_digit : Z → option Z.
Variable randint : nat → Z → Z → Z.

Definition is_space (c : Z) : bool :=
  if (c <? 128)%Z
  then ((9 <=? c) && (c <=? 13) || (28 <=? c) && (c <=? 32))%Z
  else unicode_space c.

Definition digit_value (c : Z) : option Z :=
  if (c <? 128)%Z
  then if ((48 <=? c) && (c <=? 57))%Z then Some (c - 48)%Z else None
  else unicode_digit c.

Definition is_digit (c : Z) : bool :=
  match digit_value c with Some _ => true | None => false end.

(** The class [[dD]] and the character [+]. *)
Definition is_d (c : Z) : bool := ((c =? 100) || (c =? 68))%Z.
Definition is_plus (c : Z) : bool := (c =? 43)%Z.

(** The text after the leading white space, for [\s] starred. *)
Fixpoint skip_spaces (s : list Z) : list Z :=
  match s with
  | c :: s' => if is_space c then skip_spaces s' else s
  | [] => []
  end.

(** The longest run of digits, for a group [\d+], and the text after
    it. *)
Fixpoint span_digits (s : list Z) : list Z * list Z :=
  match s with
  | c :: s' =>
      if is_digit c
      then let '(ds, rest) := span_digits s' in (c :: ds, rest)
      else ([], s)
  | [] => ([], [])
  end.

(** [(?:\+(\d+))?]: the third group, if the text goes on with [+] and
    a digit, and the text after it. *)
Definition opt_modifier (s : list Z) : option (list Z) * list Z :=
  match s with
  | c :: s' =>
      if is_plus c then
        let '(ds, rest) := span_digits s' in
        if list_truthy ds then (Some ds, rest) else (None, s)
      else (None, s)
  | [] => (None, [])
  end.

(** [DICE_RE.match(notation)] for
    [^\s*(\d+)[dD](\d+)(?:\+(\d+))?\s*$]: the three groups. *)
Definition DICE_RE_match (notation : list Z)
  : option (list Z * list Z * option (list Z)) :=
  let '(g1, s) := span_digits (skip_spaces notation) in
  if negb (list_truthy g1) then None
  else
    match s with
    | c :: s' =>
        if is_d c then
          let '(g2, s'') := span_digits s' in
          if negb (list_truthy g2) then None
          else
            let '(g3, rest) := opt_modifier s'' in
            if list_truthy (skip_spaces rest) then None
            else Some (g1, g2, g3)
        else None
    | [] => None
    end.

(** The number a run of digits denotes. *)
Definition int_of_digits (ds : list Z) : Z :=
  foldl (fun acc c => (acc * 10 + default 0 (digit_value c))%Z) 0%Z ds.

(** The limit of the interpreter on conversions between [int] and [str]
    ([sys.int_info.default_max_str_digits]). *)
Definition MAX_STR_DIGITS : nat := 4300.

(** [int(ds)] for a run of digits: a [ValueError] when the run, leading
    zeros included, is longer than the limit. *)
Definition int (ds : list Z) : Exc Z :=
  if (MAX_STR_DIGITS <? length ds)%nat then
    Raise ("Exceeds the limit (4300 digits) for integer string conversion: "
           +:+ "value has " +:+ pretty (length ds) +:+ " digits; "
           +:+ "use sys.set_int_max_str_digits() to increase the limit")
  else Ok (int_of_digits ds).

(** A [str] literal as code points. *)
Definition text (s : string) : list Z :=
  map (fun a => Z.of_nat (Ascii.nat_of_ascii a)) (String.list_ascii_of_string s).

(** The decimal writing of [n], without limit. *)
Definition text_int (n : Z) : list Z := text (pretty n).

(** [str(n)] and the format [{n}]: a [ValueError] when [n] has more
    digits than the limit. *)
Definition str (n : Z) : Exc (list Z) :=
  if (MAX_STR_DIGITS <? length (text_int (Z.abs n)))%nat then
    Raise ("Exceeds the limit (4300 digits) for integer string conversion; "
           +:+ "use sys.set_int_max_str_digits() to increase the limit")
  else Ok (text_int n).

(** [map(str, rolls)], as the [join] consumes it. *)
Fixpoint map_str (rolls : list Z) : Exc (list (list Z)) :=
  match rolls with
  | [] => Ok []
  | r :: rest =>
      s ← str r;
      ss ← map_str rest;
      Ok (s :: ss)
  end.

(** [sep.join(parts)]. *)
Fixpoint text_join (sep : list Z) (parts : list (list Z)) : list Z :=
  match parts with
  | [] => []
  | [x] => x
  | x :: rest => x ++ sep ++ text_join sep rest
  end.

(** [sum(rolls)]. *)
Definition sum (rolls : list Z) : Z := foldr Z.add 0%Z rolls.

(** [[random.randint(1, y) for _ in range(x)]]. *)
Definition roll_dice (x y : Z) : list Z :=
  map (fun i => randint i 1 y) (List.seq 0 (Z.to_nat x)).

(** What one [/roll] does: it calls [send_message] with a content,
    ephemeral or not, or an exception leaves the command before and
    nothing is sent; and the values it has drawn from the random
    generator. *)
Inductive Reply :=
  | Sent (content : list Z) (ephemeral : bool)
  | Failed (error : string).

Record Rolled := {
  reply : Reply;
  drawn : list Z
}.

Definition USAGE : list Z := text "Use format `XdY` or `XdY+Z`, e.g. `2d6+1`.".
Definition OUT_OF_BOUNDS : list Z := text "Dice out of bounds.".

(** The message of a roll:
    [f"<die> {notation} = **{total}** ({detail})"], the die being
    U+1F3B2, after
    [detail = " + ".join(map(str, rolls)) + (f" + {z}" if z else "")]. *)
Definition roll_message (notation : list Z) (rolls : list Z) (z : Z)
  : Exc (list Z) :=
  let total := (sum rolls + z)%Z in
  shown ← map_str rolls;
  modifier ← (if negb (z =? 0)%Z
              then (sz ← str z; Ok (text " + " ++ sz))
              else Ok []);
  let detail := text_join (text " + ") shown ++ modifier in
  stotal ← str total;
  Ok ([127922%Z] ++ text " " ++ notation ++ text " = **" ++ stotal
        ++ text "** (" ++ detail ++ text ")").

(** [DiceRoller.roll].  The three conversions come before the test of
    the bounds, and nothing catches what they raise. *)
Definition roll (notation : list Z) : Rolled :=
  match DICE_RE_match notation with
  | None => {| reply := Sent USAGE true; drawn := [] |}
  | Some (g1, g2, g3) =>
      match
        x ← int g1;
        y ← int g2;
        z ← (match g3 with Some ds => int ds | None => Ok 0%Z end);
        Ok (x, y, z)
      with
      | Raise e => {| reply := Failed e; drawn := [] |}
      | Ok (x, y, z) =>
          if ((x <=? 0) || (y <=? 0) || (100 <? x) || (1000 <? y))%Z then
            {| reply := Sent OUT_OF_BOUNDS true; drawn := [] |}
          else
            let rolls := roll_dice x y in
            match roll_message notation rolls z with
            | Ok content => {| reply := Sent content false; drawn := rolls |}
            | Raise e => {| reply := Failed e; drawn := rolls |}
            end
      end
  end.
End DiceRoller.

(** * The chat commands ([meme.py]) *)

(** [s.strip()] on code points: the white space at both ends is
    removed. *)
Definition str_strip (unicode_space : Z → bool) (s : list Z) : list Z :=
  reverse (skip_spaces unicode_space
             (reverse (skip_spaces unicode_space s))).

(** The gauges of the [Meme] cog. *)
Record LLMMetrics := {
  _llm_inflight : Z;
  _llm_last_latency : option Z;
  _llm_last_success : option Z;
  _llm_last_error : option string
}.

(** [Meme._change_inflight], [_record_llm_success], [_record_llm_error]. *)
Definition _change_inflight (delta : Z) (m : LLMMetrics) : LLMMetrics :=
  {| _llm_inflight := Z.max 0 (_llm_inflight m + delta);
     _llm_last_latency := _llm_last_latency m;
     _llm_last_success := _llm_last_success m;
     _llm_last_error := _llm_last_error m |}.

Definition _record_llm_success (duration now : Z) (m : LLMMetrics) : LLMMetrics :=
  {| _llm_inflight := _llm_inflight m;
     _llm_last_latency := Some duration;
     _llm_last_success := Some now;
     _llm_last_error := None |}.

Definition _record_llm_error (message : string) (m : LLMMetrics) : LLMMetrics :=
  {| _llm_inflight := _llm_inflight m;
     _llm_last_latency := _llm_last_latency m;
     _llm_last_success := _llm_last_success m;
     _llm_last_error := Some message |}.

(** The JSON body of a chat answer, as far as it is read: [message] when
    it is a dict, with its [content], and [response].  A text is a list
    of code points. *)
Record ChatData := {
  data_message : option (option (list Z));
  data_response : option (list Z)
}.

(** What the request does: the [post] raises, or answers with a status
    and, on reading it, a body ([resp.json()] may raise). *)
Inductive ChatAnswer :=
  | PostRaises (msg : string)
  | Status (code : Z) (body : Exc ChatData).

(** [Meme._run_llm_chat]: [base_url] and [model] tell whether
    [LLM_BASE_URL] and [LLM_MODEL] are set, [start] and [finish] are the
    readings of [time.perf_counter()], [now] that of the wall clock in
    [_record_llm_success]. *)
Definition _run_llm_chat (base_url model : bool) (unicode_space : Z → bool)
    (start finish now : Z) (answer : ChatAnswer) (m : LLMMetrics)
  : option (list Z) * LLMMetrics :=
  if negb base_url || negb model then (None, m)
  else
    let m := _change_inflight 1 m in
    match answer with
    | PostRaises msg => (None, _change_inflight (-1) (_record_llm_error msg m))
    | Status code body =>
        if negb (code =? 200)%Z then
          (None, _change_inflight (-1)
                   (_record_llm_error ("HTTP " +:+ str_int code) m))
        else
          match body with
          | Raise msg => (None, _change_inflight (-1) (_record_llm_error msg m))
          | Ok data =>
              let m := _change_inflight (-1) m in
              match data_message data with
              | Some content =>
                  let content := default [] content in
                  (Some (str_strip unicode_space content),
                   _record_llm_success (finish - start) now m)
              | None =>
                  let content := default [] (data_response data) in
                  let m :=
                    if list_truthy content
                    then _record_llm_success (finish - start) now m
                    else _record_llm_error "Empty response" m in
                  let stripped := str_strip unicode_space content in
                  (if list_truthy stripped then Some stripped else None, m)
              end
          end
    end.

(** What a chat command answers: the notice that the service is offline
    (ephemeral), or a text. *)
Inductive ChatReply :=
  | Offline
  | Said (content : list Z).

(** The literal appended to a reply that was cut: in the source file it
    is the three characters U+201A, U+00C4, U+00B6. *)
Definition CUT_MARK : list Z := [8218%Z; 196%Z; 182%Z].

(** [Meme.joke]. *)
Definition joke (base_url model : bool) (unicode_space : Z → bool)
    (start finish now : Z) (answer : ChatAnswer) (m : LLMMetrics)
  : ChatReply * LLMMetrics :=
  if negb base_url then (Offline, m)
  else
    let '(content, m) :=
      _run_llm_chat base_url model unicode_space start finish now answer m in
    match content with
    | None => (Offline, m)
    | Some content =>
        if negb (list_truthy content) then (Offline, m)
        else if (1900 <? length content)%nat
             then (Said (take 1900 content ++ CUT_MARK), m)
             else (Said content, m)
    end.

(** * Sample states

    The concrete players, tracks and collaborators the examples below are
    run on. *)

Definition alice : Member := {| member_id := 11; mention := "<@11>"; bot := false |}.
Definition discbot : Member := {| member_id := 12; mention := "<@12>"; bot := true |}.

Definition the_guild : Guild :=
  {| guild_id := 1; guild_name := "Lounge"; guild_icon := None |}.

(** A guild with an icon. *)
Definition the_club : Guild :=
  {| guild_id := 2; guild_name := "Club";
     guild_icon := Some "https://cdn.discordapp.com/icons/2/club.png" |}.

(** A queued track with sequence number [n] and a duration of [d]
    seconds. *)
Definition a_track (n : Z) (name : string) (d : Z) : Track :=
  {| seq := Some n; title := name; stream_url := "https://cdn.example/" +:+ name;
     webpage_url := "https://youtu.be/" +:+ name; duration := Some d;
     thumbnail := None; requested_by := Some alice |}.

Definition track_a : Track := a_track 1 "A" 200.
Definition track_b : Track := a_track 2 "B" 180.
Definition track_c : Track := a_track 3 "C" 240.

(** A connected voice client in a channel with the given members; the
    audio has ended (neither playing nor paused). *)
Definition in_channel (ms : list Member) : VoiceClient :=
  {| is_connected := true; is_playing := false; is_paused := false;
     channel := Some {| members := ms; bitrate := 64000 |} |}.

(** The chat platform finds no channel; every clock reads [0]. *)
Definition no_panel : PanelIO :=
  {| channel_found := false; fetch_ok := false; edit_ok := false;
     send_result := None; last_message_id := None |}.

(** The chat platform finds the panel channel and the recorded message,
    the edit succeeds, a [send] creates the message 900, and the last
    message of the channel is 901. *)
Definition a_panel : PanelIO :=
  {| channel_found := true; fetch_ok := true; edit_ok := true;
     send_result := Some 900%Z; last_message_id := Some 901%Z |}.

Definition still_env : Env :=
  {| mono := fun _ => 0%Z; panel := fun _ => no_panel; utc_now := 0%Z;
     play_ok := true |}.

(** The monotonic clock reads 301 seconds, the chat platform answers as
    [a_panel]. *)
Definition idle_env : Env :=
  {| mono := fun _ => (301 * SECOND)%Z; panel := fun _ => a_panel;
     utc_now := 0%Z; play_ok := true |}.

(** A fresh player at the end of the track [t], played from the state
    [queue = q], [_history = h], cursor [i], repeat mode [mode]. *)
Definition at_track_end (v : option VoiceClient) (t : Track) (q h : list Track)
    (i : Z) (mode : string) : GuildPlayer :=
  set_repeat_mode mode
    (set_history_index i
       (set_history h
          (set_queue q
             (set_current (Some t)
                (set_start_time_utc (Some 0%Z)
                   (set_loop_task true
                      (set_voice v (new_player the_guild 0)))))))).

(** The state [p], for a player of the guild [g]. *)
Definition in_guild (g : Guild) (p : GuildPlayer) : GuildPlayer :=
  {| guild := g; queue := queue p; queue_event := queue_event p;
     current := current p; next_event := next_event p;
     loop_task := loop_task p; voice := voice p; _stopped := _stopped p;
     panel_channel_id := panel_channel_id p;
     panel_message_id := panel_message_id p;
     _start_time_utc := _start_time_utc p; _history := _history p;
     _history_index := _history_index p; repeat_mode := repeat_mode p;
     _navigating_history := _navigating_history p;
     _seq_counter := _seq_counter p; _ui_task := _ui_task p;
     _temp_cookie_path := _temp_cookie_path p;
     _last_panel_bump_monotonic := _last_panel_bump_monotonic p;
     _idle_started_mono := _idle_started_mono p;
     _last_activity_mono := _last_activity_mono p;
     _idle_task := _idle_task p |}.

(** [track_c] plays at the live edge of the history [A; B; C], nothing is
    queued: the state in which the previous button is pressed twice. *)
Definition playing_c : GuildPlayer :=
  at_track_end (Some (vc_resume (in_channel [alice; discbot]))) track_c []
    [track_a; track_b; track_c] 2 "off".

(** The only queued track [A] has just ended in repeat mode [one]; a
    listener is in the channel. *)
Definition repeat_one_last : GuildPlayer :=
  at_track_end (Some (in_channel [alice; discbot])) track_a [] [track_a] 0 "one".

(** The track [A] has just ended in repeat mode [all] after the last
    listener left: only the bot is in the channel. *)
Definition alone_repeat_all : GuildPlayer :=
  at_track_end (Some (in_channel [discbot])) track_a [] [track_a] 0 "all".

(** [track_a] (200 seconds) is current, started when the wall clock read
    [0]. *)
Definition playing_a : GuildPlayer :=
  at_track_end (Some (vc_resume (in_channel [alice; discbot]))) track_a []
    [track_a] 0 "off".

(** The same in [the_club], with [B] and [C] queued, and the panel
    posted as message 900 of channel 77. *)
Definition club_playing_a : GuildPlayer :=
  set_panel_message_id (Some 900%Z)
    (set_panel_channel_id (Some 77%Z)
       (set_queue [track_b; track_c] (in_guild the_club playing_a))).

(** Seconds of the wall clock, in its microseconds. *)
Definition seconds (s : Z) : Z := (s * 1000000)%Z.

(** A Spotify catalog served in pages: the [items] of the page
    [limit], [offset] of the list [catalog]. *)
Definition paged {A} (catalog : list A) (limit offset : Z) : Exc (list A) :=
  Ok (take (Z.to_nat limit) (drop (Z.to_nat offset) catalog)).

(** A Spotify client whose playlists all hold the items [catalog]. *)
Definition playlist_client (catalog : list (option SpTrack)) : Spotify :=
  {| sp_track := fun _ => Raise "not found";
     sp_album_tracks := fun _ _ _ => Ok [];
     sp_playlist_items := fun _ => paged catalog |}.

(** A resolver on which every search finds a track with a stream. *)
Definition found (q : string) : Track :=
  {| seq := None; title := q; stream_url := "https://cdn.example/stream";
     webpage_url := "https://youtu.be/x"; duration := Some 180%Z;
     thumbnail := None; requested_by := None |}.

Definition finding (sp : Spotify) : Resolver :=
  {| make_spotify := Some sp;
     yt_extract := fun _ q => Ok (found q);
     yt_playlist_info := fun _ _ => Ok None;
     write_temp_cookie_file := None |}.

(** A resolver on which every lookup fails, and which can create the
    temporary cookie file. *)
Definition failing : Resolver :=
  {| make_spotify := None;
     yt_extract := fun _ _ => Raise "No streamable audio found";
     yt_playlist_info := fun _ _ => Raise "Could not extract playlist info";
     write_temp_cookie_file := Some "/tmp/yt_cookies_1.txt" |}.

(** The default configuration with inline base64 cookies. *)
Definition cookie_config : Config :=
  {| PLAYLIST_MAX := 50; SPOTIFY_MAX := 100; DELETE_PANEL_ON_IDLE := false;
     PANEL_BUMP_SECONDS := 45; MUSIC_LAST_PLAYED_SECONDS := 20;
     YTDLP_COOKIES_FROM_BROWSER := EmptyString; YTDLP_COOKIES_FILE := EmptyString;
     YTDLP_COOKIES_B64 := "Y29va2llcw=="; logo_embed_url := None |}.

Definition a_song : SpTrack :=
  {| sp_artists := ["Band"]; sp_name := "Song"; sp_is_local := false |}.

Definition a_local_file : SpTrack :=
  {| sp_artists := []; sp_name := "tape.mp3"; sp_is_local := true |}.

(** A playlist of 120 items, the first of them a local file. *)
Definition local_then_119 : list (option SpTrack) :=
  Some a_local_file :: replicate 119 (Some a_song).

(** An album of 120 tracks. *)
Definition album_120 : list SpTrack := replicate 120 a_song.

Definition album_client (catalog : list SpTrack) : Spotify :=
  {| sp_track := fun _ => Raise "not found";
     sp_album_tracks := fun _ => paged catalog;
     sp_playlist_items := fun _ _ _ => Ok [] |}.

(** One search that finds a track, on a fresh player. *)
Definition one_song_enqueued : Exc (list Track) * GuildPlayer :=
  enqueue default_config (finding (album_client [])) 7 no_panel "some song"
    (Some alice) (new_player the_guild 0).

(** [C] plays, [A] and [B] are queued, the history is [A; B; C]: the
    numbers 1, 2 and 3 are taken and the counter stands at 3. *)
Definition busy_player : GuildPlayer :=
  set_seq_counter 3 (set_queue [track_a; track_b] playing_c).

(** A resolver for a playlist of three videos; the second has no
    stream. *)
Definition a_video (name : string) (stream : string) (d : Z) : Track :=
  {| seq := None; title := name; stream_url := stream;
     webpage_url := "https://youtu.be/" +:+ name; duration := Some d;
     thumbnail := Some ("https://img.example/" +:+ name +:+ ".jpg");
     requested_by := None |}.

Definition a_playlist : Resolver :=
  {| make_spotify := None;
     yt_extract := fun _ url =>
       if String.eqb url "https://youtu.be/one"
       then Ok (a_video "one" "https://cdn.example/one" 100)
       else if String.eqb url "https://youtu.be/mute"
       then Ok (a_video "mute" EmptyString 200)
       else if String.eqb url "https://youtu.be/three"
       then Ok (a_video "three" "https://cdn.example/three" 300)
       else Raise "No streamable audio found";
     yt_playlist_info := fun _ _ =>
       Ok (Some {| info_id := Some "PL1";
                   info_entries :=
                     [{| entry_id := Some "one";
                         entry_url := Some "https://youtu.be/one";
                         entry_webpage_url := None |};
                      {| entry_id := Some "mute";
                         entry_url := Some "https://youtu.be/mute";
                         entry_webpage_url := None |};
                      {| entry_id := Some "three";
                         entry_url := Some "https://youtu.be/three";
                         entry_webpage_url := None |}] |});
     write_temp_cookie_file := None |}.

(** The playlist enqueued on [busy_player]. *)
Definition playlist_enqueued : Exc (list Track) * GuildPlayer :=
  enqueue default_config a_playlist 7 no_panel
    "https://www.youtube.com/playlist?list=PL1" (Some alice) busy_player.

(** The tracks of an answer of [enqueue] ([[]] for an error). *)
Definition tracks_of (res : Exc (list Track)) : list Track :=
  match res with Ok good => good | Raise _ => [] end.

(** A video with a direct stream, and yt-dlp answering with it. *)
Definition a_medium : Media :=
  {| media_url := Some "https://cdn.example/audio.webm"; media_formats := [];
     media_title := Some "Song"; media_webpage_url := None;
     media_duration := Some 180%Z; media_thumbnails := [] |}.

(** The message of the sort of thumbnails of which the first compared
    has no height. *)
Definition no_height_error (thumbs : list Thumb) : string :=
  "'<' not supported between instances of 'NoneType' and 'int'".

Definition answering (web_only : bool) (url : string) : Exc Extracted :=
  if web_only then Raise "not asked" else Ok (Medium a_medium).

Definition the_song : Track :=
  {| seq := None; title := "Song";
     stream_url := "https://cdn.example/audio.webm";
     webpage_url := "https://youtu.be/x"; duration := Some 180%Z;
     thumbnail := None; requested_by := None |}.

(** * Notions the properties are stated with *)

(** The player without what the panel operations write
    ([panel_message_id] and [_last_panel_bump_monotonic]). *)
Definition forget_panel (p : GuildPlayer) : GuildPlayer :=
  set_last_panel_bump_monotonic 0 (set_panel_message_id None p).

(** When updating the panel raises: a panel channel is found and the
    guild has no icon. *)
Definition panel_raises (io : PanelIO) (p : GuildPlayer) : bool :=
  _resolve_panel_channel io p && negb (optstr_truthy (guild_icon (guild p))).



(** [x] clamped into [[lo, hi]]. *)
Definition clamp (lo hi x : Z) : Z := Z.max lo (Z.min hi x).


(** What the pattern of the dice roller describes, in words: white
    space, a run of digits [g1], [d] or [D], a run of digits [g2], then
    nothing or [+] and a run of digits [g3], and white space to the end. *)
Definition dice_shape (unicode_space : Z → bool) (unicode_digit : Z → option Z)
    (notation g1 g2 : list Z) (g3 : option (list Z)) : Prop :=
  ∃ ws1 c ws2,
    notation = ws1 ++ g1 ++ [c] ++ g2
               ++ match g3 with Some ds => 43%Z :: ds | None => [] end ++ ws2 ∧
    Forall (fun c => is_space unicode_space c = true) ws1 ∧
    Forall (fun c => is_space unicode_space c = true) ws2 ∧
    g1 ≠ [] ∧ Forall (fun c => is_digit unicode_digit c = true) g1 ∧
    is_d c = true ∧
    g2 ≠ [] ∧ Forall (fun c => is_digit unicode_digit c = true) g2 ∧
    match g3 with
    | Some ds => ds ≠ [] ∧ Forall (fun c => is_digit unicode_digit c = true) ds
    | None => True
    end.

(** The first number with more digits than the limit of the
    conversions, [10 ^ 4300]. *)
Definition STR_LIMIT : Z := (10 ^ Z.of_nat MAX_STR_DIGITS)%Z.

(** The three numbers of a matching notation. *)
Definition dice_x (unicode_digit : Z → option Z) (g1 : list Z) : Z :=
  int_of_digits unicode_digit g1.

Definition dice_z (unicode_digit : Z → option Z) (g3 : option (list Z)) : Z :=
  match g3 with Some ds => int_of_digits unicode_digit ds | None => 0%Z end.

(** Unicode tables without an entry above 127, and a die that always
    shows its lowest face. *)
Definition ascii_only_space : Z → bool := fun _ => false.
Definition ascii_only_digit : Z → option Z := fun _ => None.
Definition lowest_face : nat → Z → Z → Z := fun _ a _ => a.

(** The item has a search query and the search finds its track
    [resolve it]. *)
Definition resolvable {Item : Type} (r : Resolver) (opts : YtdlOpts)
    (query_of : Item → Exc (option string)) (resolve : Item → Track)
    (it : Item) : Prop :=
  ∃ q, query_of it = Ok (Some q) ∧ yt_search_first r opts q = Ok (resolve it).

(** The text [rest] does not go on with a digit. *)
Definition no_digit_ahead (unicode_digit : Z → option Z) (rest : list Z) : Prop :=
  match rest with
  | c :: _ => is_digit unicode_digit c = false
  | [] => True
  end.

(** A track the loop of [enqueue] admits: it has a stream. *)
Definition usable (t : Track) : Prop := str_truthy (stream_url t) = true.

(** The tracks a player holds: queued, in the history, or current. *)
Definition held (p : GuildPlayer) : list Track :=
  queue p ++ _history p ++ match current p with Some c => [c] | None => [] end.

(** Every track the player holds has a sequence number, and none above
    the counter. *)
Definition seqs_bounded (p : GuildPlayer) : Prop :=
  ∀ t, t ∈ held p → ∃ n, seq t = Some n ∧ (n ≤ _seq_counter p)%Z.

(** The operations on the history: a track is recorded, the previous
    button, the forward step. *)
Inductive HistoryOp :=
  | OpRecord (t : Track)
  | OpPrevious
  | OpNext.

Definition run_op (op : HistoryOp) (p : GuildPlayer) : option GuildPlayer :=
  match op with
  | OpRecord t => Some (_update_history_for_track (Some t) p)
  | OpPrevious => play_previous p
  | OpNext => play_next_from_history p
  end.

(** A run of operations; [None] as soon as one raises. *)
Fixpoint run_ops (ops : list HistoryOp) (p : GuildPlayer) : option GuildPlayer :=
  match ops with
  | [] => Some p
  | op :: ops' =>
      match run_op op p with
      | Some p' => run_ops ops' p'
      | None => None
      end
  end.

(** A text of the class [[A-Za-z0-9]*], and a text that does not go on
    with a character of the class. *)
Fixpoint all_alnum (s : string) : bool :=
  match s with
  | EmptyString => true
  | String c s' => is_alnum c && all_alnum s'
  end.

Definition no_alnum_ahead (rest : string) : Prop :=
  match rest with
  | String c _ => is_alnum c = false
  | EmptyString => True
  end.

(** The track of a playlist entry: the entry has a URL and the
    extraction of that URL succeeds. *)
Definition playlist_track (r : Resolver) (opts : YtdlOpts)
    (playlist_id : string) (entry : YtEntry) : option Track :=
  match _normalize_url playlist_id entry with
  | Some page_url =>
      match yt_extract r opts page_url with
      | Ok t => Some t
      | Raise _ => None
      end
  | None => None
  end.

(** The playable tracks of a playlist: those of its first [PLAYLIST_MAX]
    entries, in order. *)
Definition playable (cfg : Config) (r : Resolver) (opts : YtdlOpts)
    (info : YtPlaylistInfo) : list Track :=
  omap (playlist_track r opts (default EmptyString (info_id info)))
       (take (Z.to_nat (PLAYLIST_MAX cfg)) (info_entries info)).

(** The most tracks a Spotify link expands to. *)
Definition spotify_bound (cfg : Config) : nat := Z.to_nat (Z.max (SPOTIFY_MAX cfg) 1).

(** Between two items, the consumer of a Spotify catalog holds [count]
    results: fewer than the cap, unless it holds none. *)
Definition below_cap (cfg : Config) (count : Z) (results : list Track) : Prop :=
  count = Z.of_nat (length results) ∧
  ((count < SPOTIFY_MAX cfg)%Z ∨ results = []).

(** A resolver whose [yt_extract] is the code of [yt_extract] over the
    answers [extract opts web_only url] of yt-dlp and the messages
    [sort_error] of the sort. *)
Definition extracting (sort_error : list Thumb → string) (sp : option Spotify)
    (extract : YtdlOpts → bool → string → Exc Extracted)
    (playlist_info : YtdlOpts → string → Exc (option YtPlaylistInfo))
    (cookie_file : option string) : Resolver :=
  {| make_spotify := sp;
     yt_extract := fun opts url => yt_extract_info sort_error (extract opts) url;
     yt_playlist_info := playlist_info;
     write_temp_cookie_file := cookie_file |}.

(** An embed [_panel_embed] has built, as it is read back from the
    channel: it has its title, and no author was set. *)
Definition posted (e : Embed) : PostedEmbed :=
  {| posted_title := Some (embed_title e); posted_author := None |}.

(** The repeat modes. *)
Definition valid_mode (mode : string) : Prop := mode ∈ ["off"; "one"; "all"].

(** No two entries of the history carry the same sequence number. *)
Definition history_distinct (p : GuildPlayer) : Prop :=
  NoDup (map seq (_history p)).

(** What navigation and the repeat button rest on: a known repeat mode
    and a valid history without repetitions. *)
Definition steady (p : GuildPlayer) : Prop :=
  valid_mode (repeat_mode p) ∧ history_ok p ∧ history_distinct p.

(** The attributes [steady] speaks about. *)
Definition nav (p : GuildPlayer) : string * list Track * Z :=
  (repeat_mode p, _history p, _history_index p).

(** The voice transport acts on the client a player holds: playback
    starts and ends, the connection drops, members come and go.  [v] is
    what the client reports afterwards. *)
Definition voice_event (v : VoiceClient) (p : GuildPlayer) : GuildPlayer :=
  match voice p with
  | Some _ => set_voice (Some v) p
  | None => p
  end.

(** Everything that acts on a player: the commands and buttons, the panel
    operations, the idle task, the stretches of the playback loop and the
    voice transport, each with the answers of the outside it runs on. *)
Inductive PlayerOp :=
  | DoConnect (same_channel : bool) (answer : Exc VoiceClient)
  | DoSetPanelChannel (is_text : bool) (channel_id : Z) (force : bool)
  | DoVoiceEvent (v : VoiceClient)
  | DoEnqueue (r : Resolver) (now_mono : Z) (io : PanelIO) (query : string)
      (requester : option Member)
  | DoSkip
  | DoStop
  | DoStopButton (io_task io_view : PanelIO)
  | DoPause
  | DoResume
  | DoPrevious
  | DoPrevButton
  | DoForward
  | DoRepeatButton
  | DoBtnOff (io : PanelIO)
  | DoBtnOne (io : PanelIO)
  | DoBtnAll (io : PanelIO)
  | DoSlashRepeat (mode : option string) (io : PanelIO)
  | DoPostPanel (io : PanelIO)
  | DoDeletePanel (io : PanelIO)
  | DoBumpPanel (force : bool) (now_mono : Z) (io : PanelIO)
  | DoIdleWaitStart (now_mono : Z)
  | DoIdleWaitExpired (now_mono : Z) (io : PanelIO)
  | DoLoopEnter
  | DoLoopTop (env : Env)
  | DoQueueWaitBegin
  | DoQueueWaitTimeout (env : Env)
  | DoStartTrack (env : Env)
  | DoAfterTrack (env : Env).

(** The player a stretch of the loop leaves; [None] when [popleft]
    raised. *)
Definition ctl_player (c : Ctl) : option GuildPlayer :=
  match c with
  | LoopExit p | LoopContinue p | QueueCheck p | WaitTrack p | LoopDied _ p =>
      Some p
  | LoopCrash => None
  end.

(** One operation, and the player it leaves: an operation with an
    [Outcome] leaves its player whether it returns or raises, and the
    error [enqueue] reports to its caller comes with the player it
    leaves; [None] is the [IndexError] or [KeyError] of a control and the
    crash of the loop. *)
Definition run_player_op (cfg : Config) (op : PlayerOp) (p : GuildPlayer)
  : option GuildPlayer :=
  match op with
  | DoConnect same_channel answer => Some (player_left (connect same_channel answer p))
  | DoSetPanelChannel is_text channel_id force =>
      Some (set_panel_channel is_text channel_id force p)
  | DoVoiceEvent v => Some (voice_event v p)
  | DoEnqueue r now_mono io query requester =>
      Some (enqueue cfg r now_mono io query requester p).2
  | DoSkip => Some (skip p)
  | DoStop => Some (stop p)
  | DoStopButton io_task io_view => Some (player_left (stop_button io_task io_view p))
  | DoPause => Some (pause p)
  | DoResume => Some (resume p)
  | DoPrevious => play_previous p
  | DoPrevButton => prev_button p
  | DoForward => play_next_from_history p
  | DoRepeatButton => cycle_repeat p
  | DoBtnOff io => Some (player_left (btn_off io p))
  | DoBtnOne io => Some (player_left (btn_one io p))
  | DoBtnAll io => Some (player_left (btn_all io p))
  | DoSlashRepeat mode io => Some (player_left (slash_repeat mode io p).2)
  | DoPostPanel io => Some (player_left (post_or_update_panel io p))
  | DoDeletePanel io => Some (delete_panel io p)
  | DoBumpPanel force now_mono io =>
      Some (_bump_panel_if_needed cfg force now_mono io p)
  | DoIdleWaitStart now_mono => Some (_idle_wait_start now_mono p)
  | DoIdleWaitExpired now_mono io => Some (player_left (_idle_wait_expired cfg now_mono io p))
  | DoLoopEnter => Some (loop_enter p)
  | DoLoopTop env => ctl_player (loop_top cfg env p)
  | DoQueueWaitBegin => Some (queue_wait_begin p)
  | DoQueueWaitTimeout env => ctl_player (queue_wait_timeout cfg env p)
  | DoStartTrack env => ctl_player (start_track cfg env p)
  | DoAfterTrack env => Some (player_left (after_track cfg env p))
  end.

(** A run of operations, in any order; [None] as soon as one gives
    [None]. *)
Fixpoint run_player_ops (cfg : Config) (ops : list PlayerOp) (p : GuildPlayer)
  : option GuildPlayer :=
  match ops with
  | [] => Some p
  | op :: ops' =>
      match run_player_op cfg op p with
      | Some p' => run_player_ops cfg ops' p'
      | None => None
      end
  end.

(** The resolver over [answering], and a search enqueued with it. *)
Definition extracting_songs : Resolver :=
  extracting no_height_error None (fun _ => answering)
    (fun _ _ => Ok None) None.

Definition song_extracted_and_enqueued : Exc (list Track) * GuildPlayer :=
  enqueue default_config extracting_songs 7 no_panel "some song"
    (Some alice) (new_player the_guild 0).

(** The clocks read 0 and the chat platform answers as [a_panel]. *)
Definition club_env : Env :=
  {| mono := fun _ => 0%Z; panel := fun _ => a_panel; utc_now := 0%Z;
     play_ok := true |}.

(** A session: a listener has the bot join her channel and attaches the
    panel (as [/play] does), the playlist is enqueued, the loop plays
    its first track to the end and starts the next, the listeners press
    previous and repeat, the track ends, the mode is set to [all], and
    at last the player is stopped. *)
Definition a_session : list PlayerOp :=
  [DoConnect false (Ok (in_channel [alice; discbot]));
   DoSetPanelChannel true 77 true;
   DoEnqueue a_playlist 7 a_panel "https://www.youtube.com/playlist?list=PL1"
     (Some alice);
   DoLoopEnter; DoLoopTop club_env; DoStartTrack club_env;
   DoVoiceEvent (in_channel [alice; discbot]);
   DoAfterTrack club_env; DoLoopTop club_env; DoStartTrack club_env;
   DoPrevious; DoRepeatButton;
   DoVoiceEvent (in_channel [alice; discbot]);
   DoAfterTrack club_env; DoLoopTop club_env;
   DoSlashRepeat (Some "all") a_panel; DoStop].

(** The session in [the_club], and in the guild without icon, where
    every panel update raises. *)
Definition after_a_session : GuildPlayer :=
  default (new_player the_club 0)
    (run_player_ops default_config a_session (new_player the_club 0)).

Definition after_a_session_without_icon : GuildPlayer :=
  default (new_player the_guild 0)
    (run_player_ops default_config a_session (new_player the_guild 0)).
(** * Properties *)

(** ** History *)

Lemma find_seq_from_bounds s h : ∀ i j,
  find_seq_from i s h = Some j → (i ≤ j < i + length h)%nat.
Proof.
  induction h as [|t h IH]; intros i j; simpl; [discriminate|].
  destruct (seq_eqb (seq t) s).
  - intros [= <-]. lia.
  - intros Hj. apply IH in Hj. lia.
Qed.

Lemma new_player_history_ok g now : history_ok (new_player g now).
Proof. split; [simpl; lia | left; done]. Qed.

Lemma record_history_ok track p :
  history_ok p → history_ok (_update_history_for_track track p).
Proof.
  intros [Hlen Hcur]. destruct track as [t|]; [|by split].
  unfold _update_history_for_track.
  destruct (find_seq_from 0 (seq t) (_history p)) as [j|] eqn:Hf.
  - apply find_seq_from_bounds in Hf. split; [done|]. right. simpl. lia.
  - cbv zeta. destruct (Nat.ltb_spec 5 (length (_history p ++ [t]))) as [Hgt|Hle].
    + rewrite length_app in Hgt. simpl in Hgt.
      split; [|right]; simpl; rewrite ?length_drop, ?length_app; simpl; lia.
    + rewrite length_app in Hle. simpl in Hle.
      split; [|right]; simpl; rewrite ?length_app; simpl; lia.
Qed.

Lemma record_all_history_ok ts : ∀ p, history_ok p → history_ok (record_all ts p).
Proof.
  induction ts as [|t ts IH]; intros p Hp; [done|].
  simpl. apply IH. by apply record_history_ok.
Qed.

(** C3. After any sequence of [record] operations on a fresh player the
    history holds at most 5 tracks and the cursor is [-1] on an empty
    history and a valid index otherwise; recording a track whose sequence
    number is not in a full history drops the oldest entry, appends the
    track and leaves the cursor on it (index 4). *)
Theorem history_bounded_cursor_valid (g : Guild) (now : Z) (ts : list (option Track)) :
  let p := record_all ts (new_player g now) in
  (length (_history p) ≤ 5)%nat ∧
  cursor_valid p ∧
  ∀ t, find_seq_from 0 (seq t) (_history p) = None →
       length (_history p) = 5%nat →
       let p' := _update_history_for_track (Some t) p in
       _history p' = drop 1 (_history p) ++ [t] ∧
       length (_history p') = 5%nat ∧
       _history_index p' = 4%Z.
Proof.
  intros p. destruct (record_all_history_ok ts _ (new_player_history_ok g now))
    as [Hlen Hcur].
  split; [done|]. split; [done|].
  intros t Hfresh Hfull p'. subst p'. unfold _update_history_for_track.
  fold p. rewrite Hfresh. cbv zeta. rewrite length_app, Hfull. simpl.
  rewrite length_drop, length_app, Hfull. simpl.
  split; [|done].
  destruct (_history p) as [|a l]; [discriminate|]. done.
Qed.

Lemma history_bounded_cursor_valid_witness :
  let p := record_all [Some track_a; Some track_b; Some track_c;
                       Some (a_track 4 "D" 10); Some (a_track 5 "E" 10)]
             (new_player the_guild 0) in
  let p' := _update_history_for_track (Some (a_track 6 "F" 10)) p in
  _history p' = drop 1 (_history p) ++ [a_track 6 "F" 10] ∧
  length (_history p') = 5%nat ∧ _history_index p' = 4%Z.
Proof.
  apply (history_bounded_cursor_valid the_guild 0
           [Some track_a; Some track_b; Some track_c;
            Some (a_track 4 "D" 10); Some (a_track 5 "E" 10)]);
    reflexivity.
Defined.

(** ** Frames of the panel operations

    The panel operations only write [panel_message_id] and
    [_last_panel_bump_monotonic]. *)

Lemma post_or_update_panel_frame io p :
  forget_panel (post_or_update_panel io p) = forget_panel p.
Proof.
  unfold post_or_update_panel, panel_send.
  repeat (case_match; try reflexivity).
Qed.

Lemma delete_panel_frame io p :
  forget_panel (delete_panel io p) = forget_panel p.
Proof. unfold delete_panel. repeat (case_match; try reflexivity). Qed.

Lemma idle_panel_frame cfg io p :
  forget_panel (idle_panel cfg io p) = forget_panel p.
Proof.
  unfold idle_panel. case_match;
    [apply delete_panel_frame | apply post_or_update_panel_frame].
Qed.

Lemma _bump_panel_if_needed_frame cfg force now io p :
  forget_panel (_bump_panel_if_needed cfg force now io p) = forget_panel p.
Proof.
  unfold _bump_panel_if_needed. cbv zeta.
  repeat (case_match; try reflexivity).
Qed.

(** Outcomes. *)
Lemma returns_left o : raised o = false → o = Returns o.
Proof. by destruct o. Qed.

Lemma and_then_returns o k : raised o = false → and_then o k = k o.
Proof. by destruct o. Qed.

Lemma and_then_raises o k : raised o = true → and_then o k = o.
Proof. by destruct o. Qed.

Lemma and_then_left o k :
  player_left (and_then o k) = if raised o then player_left o else k o.
Proof. by destruct o. Qed.

Lemma finally_left o f : player_left (finally o f) = f o.
Proof. by destruct o. Qed.

Lemma left_if (b : bool) (o1 o2 : Outcome) :
  player_left (if b then o1 else o2) = if b then player_left o1 else o2.
Proof. by destruct b. Qed.

(** The panel update raises exactly when a channel is found and the
    guild has no icon, with the [AttributeError] of the footer. *)
Lemma footer_icon_url_cases p :
  (optstr_truthy (guild_icon (guild p)) = true ∧
   ∃ url, guild_icon (guild p) = Some url ∧ footer_icon_url p = Ok url) ∨
  (optstr_truthy (guild_icon (guild p)) = false ∧
   footer_icon_url p = Raise NO_EMBED_EMPTY).
Proof.
  unfold footer_icon_url.
  destruct (optstr_truthy (guild_icon (guild p))) eqn:E; [left|by right].
  split; [done|]. destruct (guild_icon (guild p)) as [url|]; [|done].
  by exists url.
Qed.

Lemma post_or_update_panel_raised io p :
  raised (post_or_update_panel io p) = panel_raises io p.
Proof.
  unfold post_or_update_panel, panel_send, panel_raises.
  destruct (footer_icon_url_cases p) as [(-> & url & _ & E)|(-> & E)];
    change (footer_icon_url (set_panel_message_id None p))
      with (footer_icon_url p); rewrite E;
    destruct (_resolve_panel_channel io p); simpl; [|done| |done];
    repeat (case_match; try done).
Qed.

Lemma post_or_update_panel_returns io p :
  panel_raises io p = false →
  post_or_update_panel io p = Returns (post_or_update_panel io p).
Proof.
  rewrite <- post_or_update_panel_raised.
  by destruct (post_or_update_panel io p).
Qed.

Lemma post_or_update_panel_error io p e q :
  post_or_update_panel io p = Raises e q → e = NO_EMBED_EMPTY.
Proof.
  unfold post_or_update_panel, panel_send, footer_icon_url. simpl.
  destruct (optstr_truthy (guild_icon (guild p)));
    repeat (case_match; try done); by intros [= <- _].
Qed.

Lemma idle_panel_raised cfg io p :
  raised (idle_panel cfg io p)
  = negb (DELETE_PANEL_ON_IDLE cfg) && panel_raises io p.
Proof.
  unfold idle_panel. destruct (DELETE_PANEL_ON_IDLE cfg); [done|].
  apply post_or_update_panel_raised.
Qed.

Lemma frame_queue p p' : forget_panel p' = forget_panel p → queue p' = queue p.
Proof. intros H. by apply (f_equal queue) in H. Qed.

Lemma frame_current p p' : forget_panel p' = forget_panel p → current p' = current p.
Proof. intros H. by apply (f_equal current) in H. Qed.

Lemma frame_voice p p' : forget_panel p' = forget_panel p → voice p' = voice p.
Proof. intros H. by apply (f_equal voice) in H. Qed.

Lemma frame_stopped p p' : forget_panel p' = forget_panel p → _stopped p' = _stopped p.
Proof. intros H. by apply (f_equal _stopped) in H. Qed.

Lemma frame_history p p' :
  forget_panel p' = forget_panel p →
  _history p' = _history p ∧ _history_index p' = _history_index p.
Proof.
  intros H. split; [by apply (f_equal _history) in H
                   | by apply (f_equal _history_index) in H].
Qed.

Lemma frame_repeat_seq p p' :
  forget_panel p' = forget_panel p →
  repeat_mode p' = repeat_mode p ∧ _seq_counter p' = _seq_counter p.
Proof.
  intros H. split; [by apply (f_equal repeat_mode) in H
                   | by apply (f_equal _seq_counter) in H].
Qed.

(** ** Stop *)

(** C9. [stop()] leaves the queue empty and the stop flag set, whatever
    the player state (with or without a voice connection), and leaves the
    history, the history cursor, the repeat mode and the sequence counter
    as they were; the same holds of the player the stop button leaves,
    once its panel refreshes have run or raised. *)
Theorem stop_clears_queue_and_keeps_history (p : GuildPlayer) (io_task io_view : PanelIO) :
  (queue (stop p) = [] ∧ _stopped (stop p) = true ∧
   _history (stop p) = _history p ∧
   _history_index (stop p) = _history_index p ∧
   repeat_mode (stop p) = repeat_mode p ∧
   _seq_counter (stop p) = _seq_counter p) ∧
  (let p' := stop_button io_task io_view p in
   queue p' = [] ∧ _stopped p' = true ∧
   _history p' = _history p ∧
   _history_index p' = _history_index p ∧
   repeat_mode p' = repeat_mode p ∧
   _seq_counter p' = _seq_counter p).
Proof.
  assert (Hstop : queue (stop p) = [] ∧ _stopped (stop p) = true ∧
            _history (stop p) = _history p ∧
            _history_index (stop p) = _history_index p ∧
            repeat_mode (stop p) = repeat_mode p ∧
            _seq_counter (stop p) = _seq_counter p).
  { unfold stop. simpl. destruct (voice p); simpl; done. }
  split; [exact Hstop|].
  intros p'. subst p'. unfold stop_button.
  assert (Hf : forget_panel (post_or_update_panel io_view
                  (post_or_update_panel io_task (stop p))) = forget_panel (stop p))
    by (by rewrite !post_or_update_panel_frame).
  destruct Hstop as (Hq & Hs & Hh & Hi & Hr & Hc).
  rewrite (frame_queue _ _ Hf), (frame_stopped _ _ Hf).
  destruct (frame_history _ _ Hf) as [-> ->].
  destruct (frame_repeat_seq _ _ Hf) as [-> ->].
  done.
Qed.

(** ** Previous-track navigation *)

Lemma seq_eqb_refl s : seq_eqb s s = true.
Proof. unfold seq_eqb. by apply bool_decide_eq_true. Qed.

Lemma skip_frame p :
  queue (skip p) = queue p ∧ current (skip p) = current p ∧
  _history (skip p) = _history p ∧ _history_index (skip p) = _history_index p.
Proof. unfold skip. by destruct (voice p). Qed.

(** C4, the claim as stated fails: pressed a second time before the loop
    has taken the first target, [play_previous] finds the current track
    [C] already queued and does not insert it again; the queue becomes
    [A; B; C], not [A; C; B; C]. *)
Lemma play_previous_twice_no_reinsert :
  ∃ p1 p2,
    play_previous playing_c = Some p1 ∧
    current p1 = Some track_c ∧ _history_index p1 = 1%Z ∧
    _history p1 !! 0%nat = Some track_a ∧
    queue p1 = [track_b; track_c] ∧
    play_previous p1 = Some p2 ∧
    queue p2 = [track_a; track_b; track_c] ∧
    queue p2 ≠ track_a :: track_c :: queue p1.
Proof.
  eexists _, _. split; [vm_compute; reflexivity|].
  split; [vm_compute; reflexivity|]. split; [vm_compute; reflexivity|].
  split; [vm_compute; reflexivity|]. split; [vm_compute; reflexivity|].
  split; [vm_compute; reflexivity|]. split; [vm_compute; reflexivity|].
  vm_compute. discriminate.
Qed.

(** C4, amended.  At the earliest entry, or on an empty history,
    [play_previous] leaves the history and its cursor alone and returns no
    other track: the only change of the queue is the current track put
    back at its front, which happens when the history is not empty and a
    track is current.  Deeper in the history it moves the cursor one
    entry back and puts the target at the head of the queue, behind it
    the current track unless a track with its sequence number is queued
    already; either way the current track is in the queue afterwards. *)
Theorem play_previous_restart_or_step_back (p : GuildPlayer) :
  ((_history p = [] ∨ (_history_index p ≤ 0)%Z) →
   ∃ p', play_previous p = Some p' ∧
     _history p' = _history p ∧ _history_index p' = _history_index p ∧
     current p' = current p ∧
     queue p' = match current p with
                | Some c => if list_truthy (_history p) then c :: queue p
                            else queue p
                | None => queue p
                end) ∧
  (∀ target,
     (0 < _history_index p)%Z →
     _history p !! Z.to_nat (_history_index p - 1) = Some target →
     ∃ p', play_previous p = Some p' ∧
       _history p' = _history p ∧
       _history_index p' = (_history_index p - 1)%Z ∧
       current p' = current p ∧
       queue p' = match current p with
                  | Some c => if seq_in (seq c) (queue p) then target :: queue p
                              else target :: c :: queue p
                  | None => target :: queue p
                  end ∧
       ∀ c, current p = Some c → seq_in (seq c) (queue p') = true).
Proof.
  split.
  - intros Hcase. unfold play_previous.
    destruct (_history p) as [|h0 hs] eqn:Hh; simpl.
    + eexists. split; [reflexivity|]. rewrite Hh. by destruct (current p).
    + destruct Hcase as [?|Hle]; [done|].
      destruct (Z.leb_spec (_history_index p) 0); [|lia].
      destruct (current p) as [c|] eqn:Hc.
      * eexists. split; [reflexivity|].
        destruct (skip_frame (set_queue (c :: queue p) p)) as (-> & -> & -> & ->).
        simpl. by rewrite Hh, Hc.
      * eexists. split; [reflexivity|]. by rewrite Hh, Hc.
  - intros target Hpos Htarget. unfold play_previous.
    destruct (_history p) as [|h0 hs] eqn:Hh; [done|]. simpl.
    destruct (Z.leb_spec (_history_index p) 0); [lia|].
    rewrite Htarget. eexists. split; [reflexivity|].
    match goal with
    | |- context [skip ?q] => destruct (skip_frame q) as (-> & -> & -> & ->)
    end.
    simpl. destruct (current p) as [c|] eqn:Hc; simpl.
    + destruct (seq_in (seq c) (queue p)) eqn:Hin; simpl;
        rewrite ?Hh, ?Hc; repeat split; try done.
      * intros c' [= <-]. unfold seq_in in *. simpl. rewrite Hin.
        by rewrite orb_true_r.
      * intros c' [= <-]. unfold seq_in. simpl. rewrite seq_eqb_refl.
        by rewrite orb_true_r.
    + rewrite ?Hh, ?Hc. repeat split; done.
Qed.

Lemma play_previous_restart_or_step_back_witness :
  ∃ p', play_previous playing_c = Some p' ∧
    _history p' = _history playing_c ∧
    _history_index p' = (_history_index playing_c - 1)%Z ∧
    current p' = current playing_c ∧
    queue p' = [track_b; track_c] ∧
    ∀ c, current playing_c = Some c → seq_in (seq c) (queue p') = true.
Proof.
  destruct (play_previous_restart_or_step_back playing_c) as [_ H].
  apply (H track_b); [reflexivity | reflexivity].
Defined.

(** ** The playback loop: repeat and the alone disconnect *)

Lemma _safe_disconnect_cleared cfg now io p :
  let p' := _safe_disconnect cfg now io p in
  voice p' = None ∧ current p' = None ∧ queue p' = [] ∧
  _stopped p' = _stopped p ∧ repeat_mode p' = repeat_mode p ∧
  _history p' = _history p.
Proof.
  intros p'. subst p'. unfold _safe_disconnect.
  match goal with
  | |- context [idle_panel cfg io ?q] =>
      pose proof (idle_panel_frame cfg io q) as Hf
  end.
  rewrite (frame_voice _ _ Hf), (frame_current _ _ Hf), (frame_queue _ _ Hf),
    (frame_stopped _ _ Hf).
  destruct (frame_history _ _ Hf) as [-> _].
  destruct (frame_repeat_seq _ _ Hf) as [-> _].
  done.
Qed.

(** With a listener in the channel (or without a connection)
    [_on_track_end] only touches the idle timer. *)
Lemma _on_track_end_listeners cfg now io p :
  (voice_connected p = true → _has_humans p = true) →
  let p' := _on_track_end cfg now io p in
  queue p' = queue p ∧ current p' = current p ∧ _stopped p' = _stopped p ∧
  repeat_mode p' = repeat_mode p ∧ _history p' = _history p.
Proof.
  intros Hh p'. subst p'. unfold _on_track_end, _start_idle_timer_if_needed.
  destruct (voice_connected p); simpl; [|done].
  rewrite Hh by done. simpl.
  repeat (case_match; try done).
Qed.

Lemma _on_track_end_listeners_returns cfg now io p :
  (voice_connected p = true → _has_humans p = true) →
  raised (_on_track_end cfg now io p) = false.
Proof.
  intros Hh. unfold _on_track_end, _start_idle_timer_if_needed.
  destruct (voice_connected p); simpl; [|done].
  rewrite Hh by done. simpl.
  repeat (case_match; try done).
Qed.

(** The disconnect raises when its panel update does. *)
Lemma _safe_disconnect_raised cfg now io p :
  raised (_safe_disconnect cfg now io p)
  = negb (DELETE_PANEL_ON_IDLE cfg) && panel_raises io p.
Proof. unfold _safe_disconnect. by rewrite idle_panel_raised. Qed.

Lemma idle_panel_error cfg io p e q :
  idle_panel cfg io p = Raises e q → e = NO_EMBED_EMPTY.
Proof.
  unfold idle_panel. destruct (DELETE_PANEL_ON_IDLE cfg); [done|].
  apply post_or_update_panel_error.
Qed.

(** What the loop does after a call it awaits: it goes on when the call
    returns and ends with the [AttributeError] when it raises. *)
Lemma then_continue_idle_panel cfg io p :
  then_continue (idle_panel cfg io p)
  = if negb (DELETE_PANEL_ON_IDLE cfg) && panel_raises io p
    then LoopDied NO_EMBED_EMPTY (idle_panel cfg io p)
    else LoopContinue (idle_panel cfg io p).
Proof.
  rewrite <- idle_panel_raised.
  destruct (idle_panel cfg io p) as [q|e q] eqn:E; [done|].
  by rewrite (idle_panel_error _ _ _ _ _ E).
Qed.

(** Where the repeat policy works: when another track is queued behind
    it, a track that ends in repeat mode [one] without a stop is at the
    head of the queue when the loop goes on. *)
Lemma repeat_one_requeues_before_others cfg env p c t rest :
  _stopped p = false → repeat_mode p = "one" → current p = Some c →
  queue p = t :: rest →
  (voice_connected p = true → _has_humans p = true) →
  queue (after_track cfg env p) = c :: t :: rest.
Proof.
  intros Hs Hm Hc Hq Hh. unfold after_track. cbv zeta.
  set (p0 := set_last_activity_mono _ _).
  assert (Hq0 : queue p0 = t :: rest) by done.
  rewrite Hq0. simpl.
  destruct (_on_track_end_listeners cfg (mono env 7) (panel env 5) p0 Hh)
    as (Hq1 & Hc1 & Hs1 & Hm1 & Hh1).
  rewrite and_then_returns
    by (by apply _on_track_end_listeners_returns).
  set (p1 := player_left (_on_track_end _ _ _ _)) in *.
  rewrite Hs1. change (_stopped p0) with (_stopped p). rewrite Hs.
  assert (Hr : queue (apply_repeat p1) = c :: t :: rest).
  { unfold apply_repeat. rewrite Hc1, Hm1.
    change (current p0) with (current p). change (repeat_mode p0) with (repeat_mode p).
    rewrite Hc, Hm. simpl. by rewrite Hq1, Hq0. }
  rewrite Hr. simpl.
  by rewrite (frame_queue _ _ (post_or_update_panel_frame _ _)).
Qed.

(** Where it does not: on an empty queue the current track is dropped
    before the repeat policy looks at it. *)
Lemma repeat_one_dropped_on_empty_queue cfg env p v :
  _stopped p = false → repeat_mode p = "one" → queue p = [] →
  voice p = Some v → is_playing v = false → is_paused v = false →
  queue (after_track cfg env p) = [] ∧ current (after_track cfg env p) = None.
Proof.
  intros Hs Hm Hq Hv Hpl Hpa. unfold after_track. cbv zeta.
  set (p0 := set_last_activity_mono _ _).
  assert (E : negb (list_truthy (queue p0)) && bool_decide (voice p0 ≠ None)
              && negb (voice_playing p0) && negb (voice_paused p0) = true).
  { unfold voice_playing, voice_paused.
    change (queue p0) with (queue p). change (voice p0) with (voice p).
    rewrite Hq, Hv, Hpl, Hpa. done. }
  rewrite E. clear E.
  set (p1 := set_current None p0).
  assert (Hend : let p2 := _on_track_end cfg (mono env 7) (panel env 5) p1 in
            queue p2 = [] ∧ current p2 = None ∧ _stopped p2 = false ∧
            repeat_mode p2 = "one").
  { unfold _on_track_end, _start_idle_timer_if_needed.
    destruct (voice_connected p1); simpl; [|by rewrite Hq].
    destruct (_has_humans p1); simpl.
    - repeat (case_match; simpl; try by rewrite ?Hq).
    - destruct (_safe_disconnect_cleared cfg (mono env 7) (panel env 5)
                  (_cancel_idle_timer p1)) as (_ & -> & -> & -> & -> & _).
      simpl. done. }
  destruct Hend as (Hq2 & Hc2 & Hs2 & Hm2).
  rewrite !and_then_left.
  set (p2 := player_left (_on_track_end _ _ _ _)) in *.
  destruct (raised (_on_track_end _ _ _ _)); [done|].
  rewrite Hs2.
  assert (Hr : apply_repeat p2 = p2).
  { unfold apply_repeat. rewrite Hc2, Hm2. simpl.
    by rewrite andb_false_r. }
  rewrite Hr, Hq2. simpl. rewrite and_then_left.
  destruct (raised (post_or_update_panel (panel env 8) p2)).
  { by rewrite (frame_queue _ _ (post_or_update_panel_frame _ _)),
      (frame_current _ _ (post_or_update_panel_frame _ _)). }
  destruct (DELETE_PANEL_ON_IDLE cfg); simpl.
  - rewrite (frame_queue _ _ (delete_panel_frame _ _)),
      (frame_current _ _ (delete_panel_frame _ _)),
      (frame_queue _ _ (_bump_panel_if_needed_frame _ _ _ _ _)),
      (frame_current _ _ (_bump_panel_if_needed_frame _ _ _ _ _)),
      (frame_queue _ _ (post_or_update_panel_frame _ _)),
      (frame_current _ _ (post_or_update_panel_frame _ _)). done.
  - rewrite (frame_queue _ _ (post_or_update_panel_frame _ _)),
      (frame_current _ _ (post_or_update_panel_frame _ _)). simpl.
    rewrite (frame_queue _ _ (_bump_panel_if_needed_frame _ _ _ _ _)),
      (frame_queue _ _ (post_or_update_panel_frame _ _)). done.
Qed.

(** C1, on the code: the only queued track [A] ends in repeat mode [one],
    no stop was requested, a listener is present; when the loop goes on
    the queue is empty and no track is current, so [A] is not played
    again. *)
Theorem repeat_one_last_track_not_requeued :
  let p' := after_track default_config still_env repeat_one_last in
  _stopped repeat_one_last = false ∧
  repeat_mode repeat_one_last = "one" ∧
  current repeat_one_last = Some track_a ∧
  _has_humans repeat_one_last = true ∧
  queue p' = [] ∧ current p' = None ∧
  ∃ p'', loop_top default_config still_env p' = QueueCheck p'' ∧
         queue p'' = [] ∧ current p'' = None.
Proof.
  intros p'. subst p'.
  split; [vm_compute; reflexivity|]. split; [vm_compute; reflexivity|].
  split; [vm_compute; reflexivity|]. split; [vm_compute; reflexivity|].
  split; [vm_compute; reflexivity|]. split; [vm_compute; reflexivity|].
  eexists. split; [vm_compute; reflexivity|].
  split; vm_compute; reflexivity.
Qed.

(** The alone check at the head of the loop: a connected player without
    a listener is disconnected at once, whatever the idle clock says, with
    the queue and the current track cleared, and the loop starts over
    without reaching the queue check. *)
Lemma loop_top_alone_disconnects cfg env p :
  _stopped p = false → voice_connected p = true → _has_humans p = false →
  ∃ p', loop_top cfg env p
        = (if negb (DELETE_PANEL_ON_IDLE cfg) && panel_raises (panel env 0) p
           then LoopDied NO_EMBED_EMPTY p' else LoopContinue p') ∧
        voice p' = None ∧ current p' = None ∧ queue p' = [].
Proof.
  intros Hs Hc Hh. unfold loop_top. rewrite Hs, Hc, Hh. simpl.
  exists (_safe_disconnect cfg (mono env 0) (panel env 0) p).
  split.
  - unfold _safe_disconnect. by rewrite then_continue_idle_panel.
  - destruct (_safe_disconnect_cleared cfg (mono env 0) (panel env 0) p)
      as (? & ? & ? & _). done.
Qed.

(** The loop is never at the queue check connected and without a
    listener, as far as the head of the loop goes. *)
Lemma loop_top_queue_check_not_alone cfg env p p' :
  loop_top cfg env p = QueueCheck p' →
  ¬ (voice_connected p' = true ∧ _has_humans p' = false).
Proof.
  unfold loop_top. intros H [Hc Hh].
  destruct (_stopped p); [done|].
  destruct (voice_connected p) eqn:Hcp; simpl in H.
  - destruct (_has_humans p) eqn:Hhp; simpl in H;
      [|by destruct (_safe_disconnect _ _ _ _)].
    repeat case_match; simplify_eq; simpl in *;
      try (by destruct (idle_panel _ _ _));
      unfold _has_humans in *; simpl in *; congruence.
  - simplify_eq. unfold voice_connected in *. simpl in *. congruence.
Qed.

(** The way around it: the disconnect at the end of a track empties the
    queue, and, unless its panel update raises, repeat mode [all] fills
    it again from the history. *)
Lemma alone_at_track_end_repeat_all_refills cfg env p :
  _stopped p = false → repeat_mode p = "all" → _history p ≠ [] →
  voice_connected p = true → _has_humans p = false →
  voice_playing p = false → voice_paused p = false →
  negb (DELETE_PANEL_ON_IDLE cfg) && panel_raises (panel env 5) p = false →
  let p' := after_track cfg env p in
  voice p' = None ∧ queue p' = _history p.
Proof.
  intros Hs Hm Hh Hc Hhum Hpl Hpa Hok p'. subst p'.
  unfold after_track. cbv zeta.
  set (p0 := set_last_activity_mono _ _).
  set (p1 := if _ : bool then set_current None p0 else p0).
  assert (H1 : voice_connected p1 = true ∧ _has_humans p1 = false ∧
               _stopped p1 = false ∧ repeat_mode p1 = "all" ∧
               _history p1 = _history p).
  { subst p1. case_match; done. }
  destruct H1 as (Hc1 & Hh1 & Hs1 & Hm1 & Hy1).
  unfold _on_track_end, _start_idle_timer_if_needed. rewrite Hc1, Hh1. simpl.
  destruct (_safe_disconnect_cleared cfg (mono env 7) (panel env 5)
              (_cancel_idle_timer p1)) as (Hv2 & Hc2 & Hq2 & Hs2 & Hm2 & Hy2).
  rewrite and_then_returns.
  2:{ rewrite _safe_disconnect_raised. rewrite <- Hok. f_equal.
      subst p1. by case_match. }
  set (p2 := player_left (_safe_disconnect _ _ _ _)) in *.
  simpl in Hs2, Hm2, Hy2. rewrite Hs2, Hs1.
  assert (Hr : apply_repeat p2 = set_queue (queue p2 ++ _history p2) p2).
  { unfold apply_repeat. rewrite Hc2, Hq2, Hm2, Hm1, Hy2, Hy1. simpl.
    destruct (_history p); done. }
  rewrite Hr. simpl. rewrite Hq2, Hy2, Hy1. simpl.
  destruct (_history p) eqn:E; [done|]. simpl.
  rewrite ?(frame_queue _ _ (post_or_update_panel_frame _ _)),
    ?(frame_voice _ _ (post_or_update_panel_frame _ _)). simpl.
  rewrite ?Hq2. by split.
Qed.

(** C8, on the code: the last listener has left while [A] played in
    repeat mode [all].  At the end of the track the player disconnects
    and clears the queue, the repeat policy refills it from the history,
    and the loop reaches its next queue check with [A] queued. *)
Theorem alone_disconnect_then_queue_check_finds_tracks :
  let p1 := after_track default_config still_env alone_repeat_all in
  _stopped alone_repeat_all = false ∧
  voice_connected alone_repeat_all = true ∧
  _has_humans alone_repeat_all = false ∧
  voice p1 = None ∧ current p1 = None ∧ queue p1 = [track_a] ∧
  ∃ p2, loop_top default_config still_env p1 = QueueCheck p2 ∧
        queue p2 = [track_a].
Proof.
  intros p1. subst p1.
  split; [vm_compute; reflexivity|]. split; [vm_compute; reflexivity|].
  split; [vm_compute; reflexivity|]. split; [vm_compute; reflexivity|].
  split; [vm_compute; reflexivity|]. split; [vm_compute; reflexivity|].
  eexists. split; vm_compute; reflexivity.
Qed.

(** After the refill the loop takes the queued track and, finding no
    voice connection, drops it again. *)
Example refilled_track_is_discarded :
  ∃ p3,
    start_track default_config still_env
      (after_track default_config still_env alone_repeat_all)
    = LoopContinue p3 ∧
    queue p3 = [] ∧ current p3 = None ∧ voice p3 = None.
Proof.
  eexists. split; [vm_compute; reflexivity|].
  split; [vm_compute; reflexivity|]. split; vm_compute; reflexivity.
Qed.

(** The repeat button goes round off, one, all, off. *)
Example cycle_repeat_three_times :
  ∃ p1 p2 p3,
    cycle_repeat (new_player the_guild 0) = Some p1 ∧ repeat_mode p1 = "one" ∧
    cycle_repeat p1 = Some p2 ∧ repeat_mode p2 = "all" ∧
    cycle_repeat p2 = Some p3 ∧ repeat_mode p3 = "off".
Proof.
  eexists _, _, _. split; [vm_compute; reflexivity|].
  split; [vm_compute; reflexivity|]. split; [vm_compute; reflexivity|].
  split; [vm_compute; reflexivity|]. split; vm_compute; reflexivity.
Qed.

(** ** Progress *)

Example fmt_time_50 : fmt_time (Some 50%Z) = "0:50".
Proof. reflexivity. Qed.

Example fmt_time_200 : fmt_time (Some 200%Z) = "3:20".
Proof. reflexivity. Qed.

Example fmt_time_hours : fmt_time (Some 3725%Z) = "1:02:05".
Proof. reflexivity. Qed.

Example fmt_time_negative : fmt_time (Some (-1)%Z) = "live".
Proof. reflexivity. Qed.

Lemma progress_ratio_pos (pos : Z) (d : positive) :
  progress_ratio pos (Z.pos d)
  = clamp01 (Qmake (pos * 1) (1 * d)).
Proof. reflexivity. Qed.

(** The ratio of the bar is the clamped position over the duration. *)
Lemma progress_ratio_clamped (pos dur : Z) :
  (0 < dur)%Z →
  (progress_ratio pos dur == inject_Z (clamp 0 dur pos) / inject_Z dur)%Q.
Proof.
  intros Hd. destruct dur as [|d|d]; try lia.
  rewrite progress_ratio_pos. unfold clamp01, clamp.
  destruct (Qle_bool 0 (pos * 1 # 1 * d)) eqn:E0.
  - apply Qle_bool_iff in E0. unfold Qle in E0. simpl in E0.
    destruct (Qle_bool (pos * 1 # 1 * d) 1) eqn:E1.
    + apply Qle_bool_iff in E1. unfold Qle in E1. simpl in E1.
      unfold Qeq. simpl. rewrite Z.max_r, Z.min_r by lia. reflexivity.
    + assert (H1 : ¬ (pos * 1 # 1 * d <= 1)%Q)
        by (intros H; apply Qle_bool_iff in H; congruence).
      unfold Qle in H1. simpl in H1.
      unfold Qeq. simpl. rewrite Z.max_r, Z.min_l by lia. lia.
  - assert (H0 : ¬ (0 <= pos * 1 # 1 * d)%Q)
      by (intros H; apply Qle_bool_iff in H; congruence).
    unfold Qle in H0. simpl in H0.
    change (Qle_bool 0 1) with true. cbv iota.
    unfold Qeq. simpl. rewrite Z.max_l by lia. reflexivity.
Qed.

(** The filled cells of the bar are counted from the clamped position. *)
Lemma progress_filled_clamped (pos dur width : Z) :
  (0 < dur)%Z → (0 ≤ width)%Z →
  progress_filled pos dur width = (clamp 0 dur pos * width / dur)%Z.
Proof.
  intros Hd Hw. destruct dur as [|d|d]; try lia.
  unfold progress_filled. rewrite progress_ratio_pos. unfold clamp01, clamp.
  destruct (Qle_bool 0 (pos * 1 # 1 * d)) eqn:E0.
  - apply Qle_bool_iff in E0. unfold Qle in E0. simpl in E0.
    destruct (Qle_bool (pos * 1 # 1 * d) 1) eqn:E1.
    + apply Qle_bool_iff in E1. unfold Qle in E1. simpl in E1.
      unfold Qtrunc. simpl. rewrite Z.max_r, Z.min_r by lia.
      rewrite Z.quot_div_nonneg by nia.
      f_equal; lia.
    + assert (H1 : ¬ (pos * 1 # 1 * d <= 1)%Q)
        by (intros H; apply Qle_bool_iff in H; congruence).
      unfold Qle in H1. simpl in H1.
      unfold Qtrunc. simpl. rewrite Z.max_r, Z.min_l by lia.
      rewrite ?Z.quot_1_r.
      rewrite (Z.mul_comm (Z.pos d)), Z.div_mul by lia. lia.
  - assert (H0 : ¬ (0 <= pos * 1 # 1 * d)%Q)
      by (intros H; apply Qle_bool_iff in H; congruence).
    unfold Qle in H0. simpl in H0.
    change (Qle_bool 0 1) with true. cbv iota.
    unfold Qtrunc. simpl. rewrite Z.max_l by lia. reflexivity.
Qed.

(** C2, the claim as stated fails: 250 seconds after the start of a
    200-second track (a pause is enough) the bar is full, and its label
    shows the position as it is, [4:10/3:20], not the clamped one. *)
Lemma progress_label_shows_unclamped_position :
  duration track_a = Some 200%Z ∧
  _progress_bar 18 (seconds 250) playing_a = Some (progress_text 250 200 18) ∧
  progress_filled 250 200 18 = 18%Z ∧
  progress_label 250 200 = "4:10/3:20" ∧
  _progress_bar 18 (seconds 250) playing_a
    ≠ Some (progress_text (clamp 0 200 250) 200 18).
Proof.
  split; [reflexivity|]. split; [reflexivity|]. split; [reflexivity|].
  split; [reflexivity|]. vm_compute. discriminate.
Qed.

(** C2, amended.  For a current track with a known, positive duration
    that has a start timestamp, the panel's bar is drawn from the position
    [now - start] in whole seconds: the ratio of the bar is that position
    clamped into [[0, duration]] over the duration, and so is the number
    of filled cells, while the time label shows the position unclamped.
    A track of 200 seconds at 50 seconds has ratio 1/4 and the label
    [0:50/3:20]. *)
Theorem progress_bar_ratio_clamped_label_raw
    (p : GuildPlayer) (c : Track) (start dur now : Z) :
  current p = Some c → duration c = Some dur → (0 < dur)%Z →
  _start_time_utc p = Some start →
  let pos := Z.quot (now - start) 1000000 in
  _progress_bar 18 now p = Some (progress_text pos dur 18) ∧
  (progress_ratio pos dur == inject_Z (clamp 0 dur pos) / inject_Z dur)%Q ∧
  progress_filled pos dur 18 = (clamp 0 dur pos * 18 / dur)%Z ∧
  progress_text pos dur 18 =
    str_repeat BAR_FILLED (progress_filled pos dur 18)
    +:+ str_repeat BAR_EMPTY (18 - progress_filled pos dur 18)
    +:+ " " +:+ fmt_time (Some pos) +:+ "/" +:+ fmt_time (Some dur) ∧
  (progress_ratio 50 200 == 1 # 4)%Q ∧
  progress_label 50 200 = "0:50/3:20".
Proof.
  intros Hc Hdur Hpos Hstart pos.
  split.
  { unfold _progress_bar, position_or_0, estimated_position.
    rewrite Hc, Hdur, Hstart. simpl.
    destruct (Z.eqb_spec dur 0); [lia|]. simpl. reflexivity. }
  split; [by apply progress_ratio_clamped|].
  split; [apply progress_filled_clamped; lia|].
  split; [reflexivity|]. split; reflexivity.
Qed.

Lemma progress_bar_ratio_clamped_label_raw_witness :
  _progress_bar 18 (seconds 50) playing_a = Some (progress_text 50 200 18) ∧
  (progress_ratio 50 200 == inject_Z (clamp 0 200 50) / inject_Z 200)%Q ∧
  progress_filled 50 200 18 = (clamp 0 200 50 * 18 / 200)%Z ∧
  progress_text 50 200 18 =
    str_repeat BAR_FILLED (progress_filled 50 200 18)
    +:+ str_repeat BAR_EMPTY (18 - progress_filled 50 200 18)
    +:+ " " +:+ fmt_time (Some 50%Z) +:+ "/" +:+ fmt_time (Some 200%Z) ∧
  (progress_ratio 50 200 == 1 # 4)%Q ∧
  progress_label 50 200 = "0:50/3:20".
Proof.
  apply (progress_bar_ratio_clamped_label_raw playing_a track_a 0 200 (seconds 50));
    [reflexivity | reflexivity | lia | reflexivity].
Defined.

(** The scenario on the player: the bar of [playing_a] at 50 seconds has
    4 of its 18 cells filled and ends in [0:50/3:20]. *)
Example progress_bar_at_50_of_200 :
  _progress_bar 18 (seconds 50) playing_a
  = Some (str_repeat BAR_FILLED 4 +:+ str_repeat BAR_EMPTY 14 +:+ " 0:50/3:20").
Proof. reflexivity. Qed.
(** ** The panel embed *)

Lemma upcoming_lines_length ts : ∀ i, length (upcoming_lines i ts) = length ts.
Proof. induction ts as [|t ts IH]; intros i; simpl; [done|]. by rewrite IH. Qed.



(** The embed raises when, and as, its footer icon does: this is what
    the panel operations read of it. *)
Lemma _panel_embed_raises_as_footer cfg stamp now p :
  match _panel_embed cfg stamp now p, footer_icon_url p with
  | Ok e, Ok url => snd (embed_footer e) = url
  | Raise msg, Raise msg' => msg = msg'
  | _, _ => False
  end.
Proof. unfold _panel_embed. by destruct (footer_icon_url p). Qed.




(** On a guild without icon the render raises; so does [/nowplaying],
    which sends the embed. *)
Example panel_embed_raises_without_icon :
  _panel_embed default_config (seconds 50) (seconds 50) playing_a
  = Raise "type object 'Embed' has no attribute 'Empty'".
Proof. vm_compute. reflexivity. Qed.

(** ** Enqueue: failure *)

Lemma set_temp_cookie_path_same p :
  set_temp_cookie_path (_temp_cookie_path p) p = p.
Proof. by destruct p. Qed.

(** [ytdl_opts] writes nothing but the path of the temporary cookie
    file, and only when inline cookies are the configured source and no
    file exists yet. *)
Lemma ytdl_opts_player cfg r p :
  let p' := (ytdl_opts cfg r p).2 in
  p' = set_temp_cookie_path (_temp_cookie_path p') p ∧
  (str_truthy (YTDLP_COOKIES_B64 cfg) = false ∨
   str_truthy (YTDLP_COOKIES_FROM_BROWSER cfg) = true ∨
   str_truthy (YTDLP_COOKIES_FILE cfg) = true ∨
   _temp_cookie_path p ≠ None ∨
   write_temp_cookie_file r = None → p' = p).
Proof.
  unfold ytdl_opts, _ensure_temp_cookie_file.
  destruct (str_truthy (YTDLP_COOKIES_B64 cfg)) eqn:Eb,
    (str_truthy (YTDLP_COOKIES_FROM_BROWSER cfg)) eqn:Ef,
    (str_truthy (YTDLP_COOKIES_FILE cfg)) eqn:Ec; simpl;
    try (split; [by rewrite set_temp_cookie_path_same | done]).
  destruct (_temp_cookie_path p) as [path|] eqn:Ep.
  - rewrite Ep. simpl. split; [by rewrite set_temp_cookie_path_same | done].
  - destruct (write_temp_cookie_file r) as [path|] eqn:Ew; simpl.
    + split; [done|]. intros [?|[?|[?|[?|?]]]]; done.
    + rewrite Ep. simpl. split; [by rewrite set_temp_cookie_path_same | done].
Qed.

(** The tail of [enqueue]: with a track admitted the queue is not empty,
    so that [_on_queue_updated] cancels the idle timer and returns. *)
Lemma enqueue_loop_queue requester tracks : ∀ p good p',
  enqueue_loop requester tracks p = (good, p') → queue p' = queue p ++ good.
Proof.
  induction tracks as [|t tracks IH]; intros p good p'; simpl.
  - intros [= <- <-]. by rewrite app_nil_r.
  - destruct (negb (str_truthy (stream_url t))); [apply IH|].
    destruct (enqueue_loop _ _ _) as [good0 p0] eqn:E. intros [= <- <-].
    rewrite (IH _ _ _ E). simpl. by rewrite <- app_assoc.
Qed.

Lemma _on_queue_updated_queued cfg now io p :
  queue p ≠ [] → _on_queue_updated cfg now io p = Returns (_cancel_idle_timer p).
Proof.
  intros Hq. unfold _on_queue_updated, _queue_empty.
  destruct (queue p); done.
Qed.

Lemma enqueue_eq cfg r now_mono io query requester p :
  enqueue cfg r now_mono io query requester p
  = let '(opts, p) := ytdl_opts cfg r p in
    match create_tracks_from_query cfg r opts query with
    | Ok tracks =>
        let '(good, p) := enqueue_loop requester tracks p in
        if list_truthy good then
          (Ok good,
           _cancel_idle_timer
             (set_last_activity_mono now_mono
                (ensure_loop (set_queue_event true p))))
        else (Ok good, p)
    | Raise msg => (Raise msg, p)
    end.
Proof.
  unfold enqueue. destruct (ytdl_opts cfg r p) as [opts p0].
  destruct (create_tracks_from_query cfg r opts query) as [tracks|m]; [|done].
  destruct (enqueue_loop requester tracks p0) as [good p1] eqn:E.
  destruct (list_truthy good) eqn:Eg; [|done].
  rewrite _on_queue_updated_queued; [done|].
  assert (queue (set_last_activity_mono now_mono
                    (ensure_loop (set_queue_event true p1))) = queue p1) as ->
    by (unfold ensure_loop; by case_match).
  rewrite (enqueue_loop_queue _ _ _ _ _ E).
  destruct good; [done|]. by destruct (queue p0).
Qed.

(** C6, the claim as stated fails: with inline cookies configured, a
    failing [enqueue] leaves the player with the temporary cookie file
    that [ytdl_opts] created before the resolver ran. *)
Lemma enqueue_failure_keeps_cookie_file :
  ∃ p', enqueue cookie_config failing 0 no_panel "some song" (Some alice)
          (new_player the_guild 0)
        = (Raise "No streamable audio found", p') ∧
        _temp_cookie_path p' = Some "/tmp/yt_cookies_1.txt" ∧
        p' ≠ new_player the_guild 0.
Proof.
  eexists. split; [reflexivity|]. split; [reflexivity|]. discriminate.
Qed.

(** C6, amended.  If track resolution raises during [enqueue], the caller
    gets the error with the resolver's message and no track is added: the
    queue, the sequence counter and all other player state are unchanged,
    except the path of the temporary cookie file, which [ytdl_opts] may
    have created before the resolver ran (with inline base64 cookies
    configured as the only source and no file yet); otherwise the player
    is exactly as it was.  Conversely every error of the resolver is
    surfaced this way. *)
Theorem enqueue_failure_adds_nothing
    (cfg : Config) (r : Resolver) (now_mono : Z) (io : PanelIO)
    (query : string) (requester : option Member) (p : GuildPlayer)
    (msg : string) :
  create_tracks_from_query cfg r (ytdl_opts cfg r p).1 query = Raise msg →
  ∃ p', enqueue cfg r now_mono io query requester p = (Raise msg, p') ∧
    p' = set_temp_cookie_path (_temp_cookie_path p') p ∧
    queue p' = queue p ∧ _seq_counter p' = _seq_counter p ∧
    current p' = current p ∧ _history p' = _history p ∧
    (str_truthy (YTDLP_COOKIES_B64 cfg) = false ∨
     str_truthy (YTDLP_COOKIES_FROM_BROWSER cfg) = true ∨
     str_truthy (YTDLP_COOKIES_FILE cfg) = true ∨
     _temp_cookie_path p ≠ None ∨
     write_temp_cookie_file r = None → p' = p).
Proof.
  intros Hraise. rewrite enqueue_eq.
  destruct (ytdl_opts_player cfg r p) as [Hp' Hsame].
  destruct (ytdl_opts cfg r p) as [opts p'] eqn:Ho. simpl in *.
  rewrite Hraise. exists p'. split; [done|]. split; [done|].
  rewrite Hp'. simpl. repeat split; try done.
  intros H. rewrite <- Hp'. by apply Hsame.
Qed.

Lemma enqueue_failure_adds_nothing_witness :
  ∃ p', enqueue default_config failing 0 no_panel "some song" (Some alice)
          (new_player the_guild 0)
        = (Raise "No streamable audio found", p') ∧
    p' = set_temp_cookie_path (_temp_cookie_path p') (new_player the_guild 0) ∧
    queue p' = [] ∧ _seq_counter p' = 0%Z ∧
    current p' = None ∧ _history p' = [] ∧
    (str_truthy (YTDLP_COOKIES_B64 default_config) = false ∨
     str_truthy (YTDLP_COOKIES_FROM_BROWSER default_config) = true ∨
     str_truthy (YTDLP_COOKIES_FILE default_config) = true ∨
     _temp_cookie_path (new_player the_guild 0) ≠ None ∨
     write_temp_cookie_file failing = None → p' = new_player the_guild 0).
Proof.
  apply (enqueue_failure_adds_nothing default_config failing 0 no_panel
           "some song" (Some alice) (new_player the_guild 0)
           "No streamable audio found").
  reflexivity.
Defined.

(** An [enqueue] that fails has failed in the resolver. *)
Lemma enqueue_raises_only_from_resolver cfg r now_mono io query requester p msg p' :
  enqueue cfg r now_mono io query requester p = (Raise msg, p') →
  create_tracks_from_query cfg r (ytdl_opts cfg r p).1 query = Raise msg.
Proof.
  rewrite enqueue_eq. destruct (ytdl_opts cfg r p) as [opts p0]. simpl.
  destruct (create_tracks_from_query cfg r opts query) as [tracks|m].
  - destruct (enqueue_loop requester tracks p0) as [good p1].
    destruct (list_truthy good); intros [=].
  - by intros [= -> _].
Qed.

(** ** Enqueue: the Spotify cap *)

Section CatalogFacts.
Context {Item : Type}.
Variable cfg : Config.
Variable r : Resolver.
Variable opts : YtdlOpts.
Variable query_of : Item → Exc (option string).
(** The track an item resolves to. *)
Variable resolve : Item → Track.

(** The paging loop answers on the fuel [catalog_fuel] gives it, whatever
    the Spotify client and the searches answer. *)
Lemma catalog_pages_total (fetch : Z → Z → Exc (list Item)) (limit : Z) :
  ∀ fuel fetched offset count results,
    (Z.to_nat (SPOTIFY_MAX cfg - fetched) < fuel)%nat →
    catalog_pages cfg r opts fetch query_of fuel limit fetched offset count results
    ≠ None.
Proof.
  induction fuel as [|fuel IH]; intros fetched offset count results Hfuel;
    [lia|].
  simpl. destruct (fetch limit offset) as [items|]; [|done].
  destruct items as [|it items]; [done|]. cbn [list_truthy negb].
  destruct (catalog_page _ _ _ _ _ _ _) as [[[broke count'] results']|]; [|done].
  destruct broke; [done|].
  destruct (Z.leb_spec (SPOTIFY_MAX cfg) (fetched + Z.of_nat (length (it :: items))));
    [done|].
  case_match; [done|].
  apply IH. simpl length in *. lia.
Qed.

Lemma catalog_tracks_total (fetch : Z → Z → Exc (list Item)) (limit : Z) :
  catalog_pages cfg r opts fetch query_of (catalog_fuel cfg) limit 0 0 0 [] ≠ None.
Proof. apply catalog_pages_total. unfold catalog_fuel. lia. Qed.

Variable cap : nat.
Hypothesis cap_is_max : SPOTIFY_MAX cfg = Z.of_nat cap.

(** The consumer over a page whose items resolve: it takes what is left
    of the cap. *)
Lemma catalog_page_resolved items : ∀ (count : nat) results,
  (count < cap)%nat →
  (∀ it, it ∈ take (cap - count) items → resolvable r opts query_of resolve it) →
  catalog_page cfg r opts query_of items (Z.of_nat count) results
  = Ok (bool_decide (cap ≤ count + length items)%nat,
        Z.of_nat (cap `min` (count + length items)),
        results ++ map resolve (take (cap - count) items)).
Proof.
  induction items as [|it items IH]; intros count results Hlt Hres.
  - simpl. rewrite take_nil, app_nil_r. simpl.
    rewrite bool_decide_eq_false_2 by lia. do 3 f_equal. lia.
  - destruct (cap - count)%nat as [|k] eqn:Ek; [lia|].
    destruct (Hres it) as (q & Hq & Hfound); [rewrite firstn_cons; left|].
    simpl. rewrite Hq. cbn. rewrite Hfound. cbn. rewrite cap_is_max.
    destruct (Z.leb_spec (Z.of_nat cap) (Z.of_nat count + 1)) as [Hge|Hless].
    + assert (k = 0)%nat as -> by lia. rewrite take_0. simpl.
      rewrite bool_decide_eq_true_2 by lia. do 3 f_equal. lia.
    + replace (Z.of_nat count + 1)%Z with (Z.of_nat (S count)) by lia.
      rewrite IH; [| lia |].
      * replace (cap - S count)%nat with k by lia.
        rewrite <- app_assoc. simpl.
        by replace (count + S (length items))%nat
          with (S (count + length items)) by lia.
      * intros it' Hin. apply Hres. rewrite firstn_cons. right.
        by replace k with (cap - S count)%nat by lia.
Qed.

(** A catalog of more than [cap] items, served in pages of [lim] items,
    the first [cap] of which resolve: the loop returns their tracks, in
    order, and stops. *)
Lemma catalog_pages_paged (catalog : list Item) (lim : nat) :
  (1 ≤ lim)%nat → (cap < length catalog)%nat →
  (∀ it, it ∈ take cap catalog → resolvable r opts query_of resolve it) →
  ∀ fuel (o : nat),
    (o < cap)%nat → (cap - o ≤ fuel)%nat →
    catalog_pages cfg r opts (paged catalog) query_of fuel (Z.of_nat lim)
      (Z.of_nat o) (Z.of_nat o) (Z.of_nat o) (map resolve (take o catalog))
    = Some (Ok (map resolve (take cap catalog))).
Proof.
  intros Hlim Hmore Hres.
  induction fuel as [|fuel IH]; intros o Ho Hfuel; [lia|].
  simpl. unfold paged at 1. rewrite !Nat2Z.id.
  set (items := take lim (drop o catalog)).
  assert (Hlen : length items = (lim `min` (length catalog - o))%nat)
    by (subst items; by rewrite length_take, length_drop).
  destruct items as [|it0 items0] eqn:Eitems; [simpl in Hlen; lia|].
  rewrite <- Eitems in *. cbn [list_truthy negb].
  replace (list_truthy items) with true by (by rewrite Eitems).
  cbn [negb].
  rewrite catalog_page_resolved; [| done |].
  - destruct (bool_decide_reflect (cap ≤ o + length items)%nat) as [Hge|Hless].
    + f_equal. f_equal. rewrite <- map_app. f_equal.
      subst items. rewrite take_take.
      replace ((cap - o) `min` lim)%nat with (cap - o)%nat by lia.
      rewrite take_take_drop. f_equal. lia.
    + rewrite cap_is_max.
      destruct (Z.leb_spec (Z.of_nat cap) (Z.of_nat o + Z.of_nat (length items)));
        [lia|].
      destruct (Z.ltb_spec (Z.of_nat (length items)) (Z.of_nat lim)); [lia|].
      assert (Hfull : length items = lim) by lia.
      replace (Z.of_nat o + Z.of_nat (length items))%Z
        with (Z.of_nat (o + lim)) by lia.
      replace (Z.of_nat (cap `min` (o + length items)))
        with (Z.of_nat (o + lim)) by lia.
      replace (map resolve (take o catalog) ++ map resolve (take (cap - o) items))
        with (map resolve (take (o + lim) catalog)).
      * apply IH; lia.
      * rewrite <- map_app. f_equal. subst items. rewrite take_take.
        replace ((cap - o) `min` lim)%nat with lim by lia.
        by rewrite take_take_drop.
  - intros it Hin. apply Hres. subst items.
    rewrite take_take in Hin.
    apply list_elem_of_lookup in Hin as [i Hi].
    apply lookup_take_Some in Hi as [Hi Hi'].
    rewrite lookup_drop in Hi.
    apply list_elem_of_lookup. exists (o + i)%nat.
    apply lookup_take_Some. split; [done | lia].
Qed.

Lemma catalog_tracks_paged (catalog : list Item) (lim : nat) :
  (1 ≤ lim)%nat → (1 ≤ cap)%nat → (cap < length catalog)%nat →
  (∀ it, it ∈ take cap catalog → resolvable r opts query_of resolve it) →
  catalog_tracks cfg r opts (paged catalog) query_of (Z.of_nat lim)
  = Ok (map resolve (take cap catalog)).
Proof.
  intros Hlim Hcap Hmore Hres. unfold catalog_tracks.
  assert (H : catalog_pages cfg r opts (paged catalog) query_of
                 (catalog_fuel cfg) (Z.of_nat lim) 0 0 0 []
               = Some (Ok (map resolve (take cap catalog)))).
  { apply (catalog_pages_paged catalog lim Hlim Hmore Hres
             (catalog_fuel cfg) 0%nat); [lia|].
    unfold catalog_fuel. rewrite cap_is_max. lia. }
  by rewrite H.
Qed.
End CatalogFacts.

(** The loop of [enqueue] over tracks that all have a stream: every one
    is wrapped and appended, in order. *)
Lemma enqueue_loop_all requester tracks : ∀ p,
  Forall (fun t => str_truthy (stream_url t) = true) tracks →
  ∃ good p', enqueue_loop requester tracks p = (good, p') ∧
    length good = length tracks ∧
    queue p' = queue p ++ good ∧
    map title good = map title tracks ∧
    _seq_counter p' = (_seq_counter p + Z.of_nat (length tracks))%Z.
Proof.
  induction tracks as [|t tracks IH]; intros p Hall.
  - exists [], p. simpl. rewrite app_nil_r. repeat split; try done. lia.
  - apply Forall_cons in Hall as [Ht Hall]. simpl. rewrite Ht. simpl.
    match goal with
    | |- context [enqueue_loop requester tracks ?q] =>
        destruct (IH q Hall) as (good & p' & -> & Hlen & Hq & Htitle & Hseq)
    end.
    eexists _, _. split; [reflexivity|]. simpl in *.
    rewrite Hlen, Hq, Htitle, Hseq, <- app_assoc. repeat split; try done. lia.
Qed.

(** What [enqueue] returns when the resolver returns tracks that all
    have a stream. *)
Lemma enqueue_all_with_stream cfg r now_mono io query requester p tracks :
  create_tracks_from_query cfg r (ytdl_opts cfg r p).1 query = Ok tracks →
  Forall (fun t => str_truthy (stream_url t) = true) tracks →
  ∃ good p', enqueue cfg r now_mono io query requester p = (Ok good, p') ∧
    length good = length tracks ∧
    queue p' = queue p ++ good ∧
    map title good = map title tracks.
Proof.
  intros Hres Hall. rewrite enqueue_eq.
  destruct (ytdl_opts_player cfg r p) as [Hp0 _].
  destruct (ytdl_opts cfg r p) as [opts p0]. simpl in *. rewrite Hres.
  destruct (enqueue_loop_all requester tracks p0 Hall)
    as (good & p1 & -> & Hlen & Hq & Htitle & _).
  assert (Hq0 : queue p0 = queue p) by (by rewrite Hp0).
  destruct good as [|g good]; simpl.
  - eexists _, _. split; [reflexivity|]. by rewrite Hq, Hq0.
  - eexists _, _. split; [reflexivity|]. split; [done|]. split; [|done].
    unfold ensure_loop. rewrite <- Hq0, <- Hq.
    by destruct (loop_task _).
Qed.

(** C5, the claim as stated fails: a playlist of 120 items whose first
    item is a local file, under the default cap of 100.  The generator
    stops fetching after the first page of 100 items, the local file is
    skipped, and 99 tracks are admitted. *)
Lemma spotify_playlist_with_local_file_admits_99 :
  length local_then_119 = 120%nat ∧
  SPOTIFY_MAX default_config = 100%Z ∧
  ∃ good p',
    enqueue default_config (finding (playlist_client local_then_119)) 0 no_panel
      "https://open.spotify.com/playlist/XYZ" (Some alice)
      (new_player the_guild 0)
    = (Ok good, p') ∧
    length good = 99%nat ∧ length (queue p') = 99%nat.
Proof.
  split; [reflexivity|]. split; [reflexivity|].
  eexists _, _. split; [vm_compute; reflexivity|].
  split; reflexivity.
Qed.

(** C5, amended.  For a Spotify album or playlist link under a cap of at
    least 1, when the catalog holds more items than the cap and each of
    the first cap items has a search query (for a playlist: the track is
    present and not local; for an album: it names an artist) that
    resolves to a track with a stream, exactly cap tracks are admitted,
    in catalog order, and the rest is dropped without an error. *)
Theorem spotify_link_admits_exactly_cap
    (cfg : Config) (r : Resolver) (now_mono : Z) (io : PanelIO)
    (query : string) (requester : option Member) (p : GuildPlayer)
    (sp : Spotify) (ident : string) (cap : nat) :
  make_spotify r = Some sp →
  SPOTIFY_MAX cfg = Z.of_nat cap → (1 ≤ cap)%nat →
  (∀ (album : list SpTrack) (resolve : SpTrack → Track),
     SPOTIFY_URL_RE_match query = Some ("album", ident) →
     sp_album_tracks sp ident = paged album →
     (cap < length album)%nat →
     (∀ t, t ∈ take cap album →
           resolvable r (ytdl_opts cfg r p).1 album_query resolve t ∧
           str_truthy (stream_url (resolve t)) = true) →
     ∃ good p', enqueue cfg r now_mono io query requester p = (Ok good, p') ∧
       length good = cap ∧ queue p' = queue p ++ good ∧
       map title good = map (fun t => title (resolve t)) (take cap album)) ∧
  (∀ (playlist : list (option SpTrack)) (resolve : option SpTrack → Track),
     SPOTIFY_URL_RE_match query = Some ("playlist", ident) →
     sp_playlist_items sp ident = paged playlist →
     (cap < length playlist)%nat →
     (∀ it, it ∈ take cap playlist →
            resolvable r (ytdl_opts cfg r p).1 playlist_query resolve it ∧
            str_truthy (stream_url (resolve it)) = true) →
     ∃ good p', enqueue cfg r now_mono io query requester p = (Ok good, p') ∧
       length good = cap ∧ queue p' = queue p ++ good ∧
       map title good = map (fun it => title (resolve it)) (take cap playlist)).
Proof.
  intros Hsp Hmax Hcap. split.
  - intros album resolve Hurl Hpaged Hmore Hres.
    destruct (enqueue_all_with_stream cfg r now_mono io query requester p
                (map resolve (take cap album)))
      as (good & p' & He & Hlen & Hq & Ht).
    + unfold create_tracks_from_query. rewrite Hurl, Hsp. simpl.
      rewrite Hpaged.
      apply (catalog_tracks_paged cfg r _ album_query resolve cap Hmax album 50);
        [lia | done | done | intros t Ht; by apply Hres].
    + apply Forall_map, Forall_forall. intros t Ht. by apply Hres.
    + exists good, p'. split; [done|]. rewrite Hlen, length_map, length_take.
      split; [lia|]. split; [done|]. by rewrite Ht, map_map.
  - intros playlist resolve Hurl Hpaged Hmore Hres.
    destruct (enqueue_all_with_stream cfg r now_mono io query requester p
                (map resolve (take cap playlist)))
      as (good & p' & He & Hlen & Hq & Ht).
    + unfold create_tracks_from_query. rewrite Hurl, Hsp. simpl.
      rewrite Hpaged.
      apply (catalog_tracks_paged cfg r _ playlist_query resolve cap Hmax
               playlist 100);
        [lia | done | done | intros t Ht; by apply Hres].
    + apply Forall_map, Forall_forall. intros t Ht. by apply Hres.
    + exists good, p'. split; [done|]. rewrite Hlen, length_map, length_take.
      split; [lia|]. split; [done|]. by rewrite Ht, map_map.
Qed.

Lemma spotify_link_admits_exactly_cap_witness :
  ∃ good p',
    enqueue default_config (finding (album_client album_120)) 0 no_panel
      "https://open.spotify.com/album/XYZ" (Some alice) (new_player the_guild 0)
    = (Ok good, p') ∧
    length good = 100%nat ∧
    queue p' = queue (new_player the_guild 0) ++ good ∧
    map title good
    = map (fun t => title (found "ytsearch1:Band Song audio")) (take 100 album_120).
Proof.
  refine (proj1 (spotify_link_admits_exactly_cap default_config
            (finding (album_client album_120)) 0 no_panel
            "https://open.spotify.com/album/XYZ" (Some alice)
            (new_player the_guild 0) (album_client album_120) "XYZ" 100
            eq_refl eq_refl _)
          album_120 (fun _ => found "ytsearch1:Band Song audio")
          eq_refl eq_refl _ _).
  - lia.
  - simpl. lia.
  - intros t Ht. apply elem_of_take in Ht as (i & Ht & _).
    apply lookup_replicate in Ht as [-> _].
    split; [|reflexivity]. eexists. split; reflexivity.
Defined.

(** * The dice roller *)

(** ** Conversions between [int] and [str] *)

Lemma pretty_N_go_length_le (k : nat) : ∀ (x : N) s,
  (x < 10 ^ N.of_nat k)%N →
  (String.length (pretty_N_go x s) ≤ k + String.length s)%nat.
Proof.
  induction k as [|k IH]; intros x s Hx.
  - assert (x = 0%N) as -> by (simpl in Hx; lia).
    rewrite pretty_N_go_0. lia.
  - destruct (decide (x = 0%N)) as [->|Hne].
    + rewrite pretty_N_go_0. lia.
    + rewrite pretty_N_go_step by lia.
      etrans; [apply IH|simpl; lia].
      rewrite Nat2N.inj_succ, N.pow_succ_r' in Hx.
      apply N.Div0.div_lt_upper_bound. lia.
Qed.

Lemma pretty_N_go_length_ge (n : nat) : ∀ (y : N) s,
  (N.to_nat y ≤ n)%nat →
  (String.length s ≤ String.length (pretty_N_go y s))%nat.
Proof.
  induction n as [|n IH]; intros y s Hy.
  - assert (y = 0%N) as -> by lia. by rewrite pretty_N_go_0.
  - destruct (decide (y = 0%N)) as [->|Hne]; [by rewrite pretty_N_go_0|].
    rewrite pretty_N_go_step by lia.
    etrans; [|apply IH]; [simpl; lia|].
    assert (y `div` 10 < y)%N by (apply N.div_lt; lia). lia.
Qed.

Lemma pretty_N_go_length_gt (k : nat) : ∀ (x : N) s,
  (10 ^ N.of_nat k ≤ x)%N →
  (k + 1 + String.length s ≤ String.length (pretty_N_go x s))%nat.
Proof.
  induction k as [|k IH]; intros x s Hx.
  - rewrite pretty_N_go_step by (simpl in Hx; lia).
    etrans; [|by apply (pretty_N_go_length_ge _ _ _ (le_n _))].
    simpl. lia.
  - assert (0 < x)%N.
    { assert (10 ^ N.of_nat (S k) ≠ 0)%N by (apply N.pow_nonzero; lia). lia. }
    rewrite pretty_N_go_step by lia.
    etrans; [|apply IH]; [simpl; lia|].
    rewrite Nat2N.inj_succ, N.pow_succ_r' in Hx.
    apply N.div_le_lower_bound; lia.
Qed.

(** The decimal writing of a natural number below [10 ^ k], for a
    positive [k], has at most [k] digits, and that of a larger one has
    more. *)
Lemma pretty_Z_length (k : nat) (n : Z) :
  (0 < k)%nat → (0 ≤ n)%Z →
  (String.length (pretty n) ≤ k)%nat ↔ (n < 10 ^ Z.of_nat k)%Z.
Proof.
  intros Hk Hn.
  assert (Hpow : (10 ^ Z.of_nat k)%Z = Z.of_N (10 ^ N.of_nat k)%N).
  { rewrite N2Z.inj_pow. by rewrite nat_N_Z. }
  destruct n as [|x|x]; [| |lia].
  - change (pretty 0%Z) with "0". simpl. split; [|lia].
    intros _. apply Z.pow_pos_nonneg; lia.
  - change (pretty (Z.pos x)) with (pretty (N.pos x)).
    unfold pretty, pretty_N. destruct (decide _) as [|_]; [done|].
    rewrite Hpow. split.
    + intros Hlen. destruct (N.lt_ge_cases (N.pos x) (10 ^ N.of_nat k)) as [?|Hge];
        [lia|].
      pose proof (pretty_N_go_length_gt k _ "" Hge). simpl in *. lia.
    + intros Hlt. pose proof (pretty_N_go_length_le k (N.pos x) "") as H.
      simpl in H. rewrite Nat.add_0_r in H. apply H. lia.
Qed.

Lemma text_length s : length (text s) = String.length s.
Proof.
  unfold text. rewrite length_map.
  induction s as [|a s IH]; simpl; [done|]. by rewrite IH.
Qed.

Lemma MAX_STR_DIGITS_pos : (0 < MAX_STR_DIGITS)%nat.
Proof. apply Nat.ltb_lt. vm_compute. reflexivity. Qed.

(** [str] converts the numbers below [10 ^ 4300] and raises on the
    others. *)
Lemma str_below_limit n :
  (0 ≤ n < STR_LIMIT)%Z → str n = Ok (text_int n).
Proof.
  intros [Hn Hlt]. unfold str, text_int. rewrite Z.abs_eq by done.
  rewrite text_length.
  assert (H : (String.length (pretty n) ≤ MAX_STR_DIGITS)%nat)
    by (by apply (pretty_Z_length MAX_STR_DIGITS n MAX_STR_DIGITS_pos)).
  by destruct (Nat.ltb_spec MAX_STR_DIGITS (String.length (pretty n))); [lia|].
Qed.

Lemma str_above_limit n :
  (STR_LIMIT ≤ n)%Z →
  str n = Raise ("Exceeds the limit (4300 digits) for integer string conversion; "
                 +:+ "use sys.set_int_max_str_digits() to increase the limit").
Proof.
  intros Hge. assert (Hn : (0 ≤ n)%Z).
  { etrans; [|exact Hge]. apply Z.pow_nonneg. lia. }
  unfold str. rewrite Z.abs_eq by done. unfold text_int. rewrite text_length.
  destruct (Nat.ltb_spec MAX_STR_DIGITS (String.length (pretty n)))
    as [|Hle]; [done|].
  apply (pretty_Z_length MAX_STR_DIGITS n MAX_STR_DIGITS_pos) in Hle; [|done].
  unfold STR_LIMIT in Hge. lia.
Qed.

Section DiceFacts.
Variable unicode_space : Z → bool.
Variable unicode_digit : Z → option Z.
Variable randint : nat → Z → Z → Z.

(** No code point is white space and a digit at once. *)
Hypothesis tables_disjoint : ∀ c, unicode_space c = true → unicode_digit c = None.
(** [random.randint(a, b)] returns a value of [[a, b]]. *)
Hypothesis randint_range : ∀ i a b, (a ≤ b)%Z → (a ≤ randint i a b ≤ b)%Z.

Local Abbreviation space c := (is_space unicode_space c = true).
Local Abbreviation digit c := (is_digit unicode_digit c = true).

Lemma space_not_digit c : space c → is_digit unicode_digit c = false.
Proof.
  unfold is_space, is_digit, digit_value. intros Hsp.
  destruct (Z.ltb_spec c 128).
  - destruct (Z.leb_spec 48 c), (Z.leb_spec c 57); simpl; try done.
    destruct (Z.leb_spec 9 c), (Z.leb_spec c 13), (Z.leb_spec 28 c),
      (Z.leb_spec c 32); simpl in Hsp; try done; lia.
  - by rewrite (tables_disjoint c Hsp).
Qed.

Lemma d_not_digit c : is_d c = true → is_digit unicode_digit c = false.
Proof.
  unfold is_d. intros H. apply orb_true_iff in H as [H|H];
    apply Z.eqb_eq in H; by subst.
Qed.

Lemma plus_not_digit c : is_plus c = true → is_digit unicode_digit c = false.
Proof. unfold is_plus. intros H. apply Z.eqb_eq in H. by subst. Qed.

Lemma space_not_plus c : space c → is_plus c = false.
Proof.
  unfold is_plus. destruct (Z.eqb_spec c 43) as [->|]; [|done].
  unfold is_space. simpl. done.
Qed.

Lemma skip_spaces_app ws s :
  Forall (fun c => space c) ws →
  skip_spaces unicode_space (ws ++ s) = skip_spaces unicode_space s.
Proof. induction 1 as [|c ws Hc _ IH]; simpl; [done|]. by rewrite Hc. Qed.

Lemma skip_spaces_all ws :
  Forall (fun c => space c) ws → skip_spaces unicode_space ws = [].
Proof. induction 1 as [|c ws Hc _ IH]; simpl; [done|]. by rewrite Hc. Qed.

Lemma skip_spaces_spec s :
  ∃ ws, s = ws ++ skip_spaces unicode_space s ∧ Forall (fun c => space c) ws.
Proof.
  induction s as [|c s (ws & IH & Hws)]; [by exists []|].
  simpl. destruct (is_space unicode_space c) eqn:E.
  - exists (c :: ws). split; [simpl; by f_equal | by constructor].
  - by exists [].
Qed.

Lemma skip_spaces_nil s :
  skip_spaces unicode_space s = [] → Forall (fun c => space c) s.
Proof.
  intros H. destruct (skip_spaces_spec s) as (ws & Hs & Hws).
  rewrite H, app_nil_r in Hs. by subst.
Qed.

Lemma span_digits_app ds rest :
  Forall (fun c => digit c) ds → no_digit_ahead unicode_digit rest →
  span_digits unicode_digit (ds ++ rest) = (ds, rest).
Proof.
  intros Hds Hrest. induction Hds as [|c ds Hc _ IH]; simpl.
  - destruct rest as [|c rest]; [done|]. simpl in *. by rewrite Hrest.
  - by rewrite Hc, IH.
Qed.

Lemma span_digits_spec s : ∀ ds rest,
  span_digits unicode_digit s = (ds, rest) →
  s = ds ++ rest ∧ Forall (fun c => digit c) ds.
Proof.
  induction s as [|c s IH]; intros ds rest; simpl.
  - by intros [= <- <-].
  - destruct (is_digit unicode_digit c) eqn:E.
    + destruct (span_digits unicode_digit s) as [ds' rest'].
      intros [= <- <-]. destruct (IH ds' rest' eq_refl) as [-> Hds].
      split; [done | by constructor].
    + by intros [= <- <-].
Qed.

Lemma list_truthy_true {A} (l : list A) : list_truthy l = true ↔ l ≠ [].
Proof. by destruct l. Qed.

(** The matcher finds the groups of a notation of the shape. *)
Lemma DICE_RE_match_complete notation g1 g2 g3 :
  dice_shape unicode_space unicode_digit notation g1 g2 g3 →
  DICE_RE_match unicode_space unicode_digit notation = Some (g1, g2, g3).
Proof.
  intros (ws1 & c & ws2 & -> & Hws1 & Hws2 & Hn1 & Hg1 & Hc & Hn2 & Hg2 & Hg3).
  unfold DICE_RE_match. rewrite skip_spaces_app by done.
  assert (Hws2' : no_digit_ahead unicode_digit ws2).
  { destruct Hws2 as [|c2 ws2 H2 _]; [done|]. by apply space_not_digit. }
  assert (Hskip : skip_spaces unicode_space
            (g1 ++ [c] ++ g2 ++ match g3 with Some ds => 43%Z :: ds | None => [] end ++ ws2)
          = g1 ++ [c] ++ g2 ++ match g3 with Some ds => 43%Z :: ds | None => [] end ++ ws2).
  { destruct Hg1 as [|d1 g1 Hd1 _]; [done|]. simpl.
    destruct (is_space unicode_space d1) eqn:E; [|done].
    apply space_not_digit in E. congruence. }
  rewrite Hskip. rewrite span_digits_app; [| done | by apply d_not_digit].
  apply list_truthy_true in Hn1 as ->. simpl. rewrite Hc.
  rewrite span_digits_app; [| done |].
  - apply list_truthy_true in Hn2 as ->. simpl.
    destruct g3 as [ds|].
    + destruct Hg3 as [Hn3 Hds]. simpl.
      rewrite span_digits_app by done.
      apply list_truthy_true in Hn3 as ->.
      by rewrite skip_spaces_all.
    + simpl. destruct Hws2 as [|c2 ws2 H2 Hws2]; [done|].
      simpl. rewrite (space_not_plus _ H2). simpl. rewrite H2.
      by rewrite skip_spaces_all.
  - destruct g3 as [ds|]; simpl; [done | exact Hws2'].
Qed.

(** What the matcher accepts has the shape. *)
Lemma DICE_RE_match_sound notation g1 g2 g3 :
  DICE_RE_match unicode_space unicode_digit notation = Some (g1, g2, g3) →
  dice_shape unicode_space unicode_digit notation g1 g2 g3.
Proof.
  unfold DICE_RE_match.
  destruct (skip_spaces_spec notation) as (ws1 & Hnot & Hws1).
  destruct (span_digits unicode_digit (skip_spaces unicode_space notation))
    as [d1 s1] eqn:E1.
  apply span_digits_spec in E1 as [Hs0 Hd1].
  destruct (list_truthy d1) eqn:T1; [|done]. simpl.
  destruct s1 as [|c s1]; [done|].
  destruct (is_d c) eqn:Ec; [|done].
  destruct (span_digits unicode_digit s1) as [d2 s2] eqn:E2.
  apply span_digits_spec in E2 as [Hs1 Hd2].
  destruct (list_truthy d2) eqn:T2; [|done]. simpl.
  destruct (opt_modifier unicode_digit s2) as [o rest] eqn:E3.
  destruct (list_truthy (skip_spaces unicode_space rest)) eqn:T3; [done|].
  intros [= <- <- <-].
  assert (Hrest : Forall (fun c => space c) rest).
  { apply skip_spaces_nil. by destruct (skip_spaces unicode_space rest). }
  apply list_truthy_true in T1, T2.
  exists ws1, c, rest. rewrite Hnot, Hs0, Hs1.
  unfold opt_modifier in E3.
  destruct s2 as [|c2 s2'].
  - injection E3 as <- <-. simpl. repeat split; try done.
  - destruct (is_plus c2) eqn:Ep.
    + destruct (span_digits unicode_digit s2') as [d3 s3] eqn:E4.
      apply span_digits_spec in E4 as [Hs2' Hd3].
      destruct (list_truthy d3) eqn:T4.
      * injection E3 as <- <-. apply list_truthy_true in T4.
        unfold is_plus in Ep. apply Z.eqb_eq in Ep. subst c2 s2'.
        repeat split; done.
      * injection E3 as <- <-. repeat split; try done.
    + injection E3 as <- <-. repeat split; try done.
Qed.

(** A decimal digit has a value from 0 to 9. *)
Hypothesis digit_values : ∀ c v, unicode_digit c = Some v → (0 ≤ v ≤ 9)%Z.

Lemma digit_value_range c :
  (0 ≤ default 0 (digit_value unicode_digit c) ≤ 9)%Z.
Proof.
  unfold digit_value. destruct (Z.ltb_spec c 128).
  - destruct (Z.leb_spec 48 c), (Z.leb_spec c 57); simpl; lia.
  - destruct (unicode_digit c) as [v|] eqn:E; simpl; [|lia].
    by apply (digit_values c).
Qed.

(** A run of [k] digits denotes a number below [10 ^ k]. *)
Lemma int_of_digits_bounds ds :
  (0 ≤ int_of_digits unicode_digit ds < 10 ^ Z.of_nat (length ds))%Z.
Proof.
  unfold int_of_digits.
  assert (H : ∀ acc, (0 ≤ acc)%Z →
            (acc * 10 ^ Z.of_nat (length ds)
             ≤ foldl (fun acc c =>
                        (acc * 10 + default 0 (digit_value unicode_digit c))%Z)
                 acc ds
             < (acc + 1) * 10 ^ Z.of_nat (length ds))%Z).
  { induction ds as [|c ds IH]; intros acc Hacc; simpl foldl.
    - simpl. lia.
    - pose proof (digit_value_range c) as Hc.
      specialize (IH (acc * 10 + default 0 (digit_value unicode_digit c))%Z
                    ltac:(lia)).
      rewrite length_cons, Nat2Z.inj_succ, Z.pow_succ_r by lia.
      assert (0 < 10 ^ Z.of_nat (length ds))%Z by (apply Z.pow_pos_nonneg; lia).
      nia. }
  specialize (H 0%Z ltac:(lia)). lia.
Qed.

Lemma int_within_limit ds :
  (length ds ≤ MAX_STR_DIGITS)%nat →
  int unicode_digit ds = Ok (int_of_digits unicode_digit ds).
Proof.
  intros H. unfold int.
  by destruct (Nat.ltb_spec MAX_STR_DIGITS (length ds)); [lia|].
Qed.

Lemma int_above_limit ds :
  (MAX_STR_DIGITS < length ds)%nat →
  int unicode_digit ds
  = Raise ("Exceeds the limit (4300 digits) for integer string conversion: "
           +:+ "value has " +:+ pretty (length ds) +:+ " digits; "
           +:+ "use sys.set_int_max_str_digits() to increase the limit").
Proof.
  intros H. unfold int.
  by destruct (Nat.ltb_spec MAX_STR_DIGITS (length ds)); [|lia].
Qed.

Lemma int_of_digits_below_limit ds :
  (length ds ≤ MAX_STR_DIGITS)%nat →
  (0 ≤ int_of_digits unicode_digit ds < STR_LIMIT)%Z.
Proof.
  intros H. pose proof (int_of_digits_bounds ds) as [H0 H1]. split; [done|].
  eapply Z.lt_le_trans; [exact H1|]. apply Z.pow_le_mono_r; lia.
Qed.

Lemma roll_dice_length x y : length (roll_dice randint x y) = Z.to_nat x.
Proof. unfold roll_dice. by rewrite length_map, length_seq. Qed.

Lemma roll_dice_range x y :
  (1 ≤ y)%Z → Forall (fun v => (1 ≤ v ≤ y)%Z) (roll_dice randint x y).
Proof.
  intros Hy. unfold roll_dice. apply Forall_map, Forall_forall.
  intros i _. by apply randint_range.
Qed.

Lemma sum_bounds (lo hi : Z) rolls :
  Forall (fun v => (lo ≤ v ≤ hi)%Z) rolls →
  (Z.of_nat (length rolls) * lo ≤ sum rolls ≤ Z.of_nat (length rolls) * hi)%Z.
Proof.
  induction 1 as [|v rolls Hv _ IH]; [simpl; lia|].
  unfold sum in *. simpl foldr. rewrite length_cons. lia.
Qed.

Lemma thousand_below_limit : (100000 < STR_LIMIT)%Z.
Proof. apply Z.ltb_lt. vm_compute. reflexivity. Qed.

(** The values of the dice are written out without exception. *)
Lemma map_str_rolls y rolls :
  (y ≤ 1000)%Z → Forall (fun v => (1 ≤ v ≤ y)%Z) rolls →
  map_str rolls = Ok (map text_int rolls).
Proof.
  intros Hy. pose proof thousand_below_limit.
  induction 1 as [|v rolls Hv _ IH]; [done|].
  simpl. rewrite str_below_limit by lia. simpl. by rewrite IH.
Qed.

(** The message of a roll within the bounds: the text with the total,
    unless the total is too long to be written. *)
Lemma roll_message_cases notation rolls y z :
  (y ≤ 1000)%Z → Forall (fun v => (1 ≤ v ≤ y)%Z) rolls →
  (0 ≤ z < STR_LIMIT)%Z →
  roll_message notation rolls z
  = if (sum rolls + z <? STR_LIMIT)%Z
    then Ok ([127922%Z] ++ text " " ++ notation ++ text " = **"
               ++ text_int (sum rolls + z) ++ text "** ("
               ++ text_join (text " + ") (map text_int rolls)
               ++ (if (z =? 0)%Z then [] else text " + " ++ text_int z)
               ++ text ")")
    else Raise ("Exceeds the limit (4300 digits) for integer string conversion; "
                +:+ "use sys.set_int_max_str_digits() to increase the limit").
Proof.
  intros Hy Hrolls Hz. unfold roll_message.
  rewrite (map_str_rolls y) by done. simpl.
  pose proof (sum_bounds 1 y _ Hrolls) as Hsum.
  destruct (Z.eqb_spec z 0) as [->|Hz0]; simpl.
  - destruct (Z.ltb_spec (sum rolls + 0) STR_LIMIT).
    + rewrite str_below_limit by lia. simpl. by rewrite <- !app_assoc.
    + by rewrite str_above_limit.
  - rewrite (str_below_limit z) by done. simpl.
    destruct (Z.ltb_spec (sum rolls + z) STR_LIMIT).
    + rewrite str_below_limit by lia. simpl. by rewrite <- !app_assoc.
    + by rewrite str_above_limit.
Qed.

(** Within the digit limit the roller does what is expected of it: for
    the notations whose numbers have at most 4300 digits each, the
    following holds.  A notation of the shape [XdY]
    or [XdY+Z] with 1 ≤ X ≤ 100 and 1 ≤ Y ≤ 1000 is answered with the
    roll: X values are drawn, each in [[1, Y]], the reported total is
    their sum plus Z and lies between X + Z and X·Y + Z (a total of
    [STR_LIMIT] or more cannot be written: the values are drawn and the
    command fails).  One whose X or Y is out of bounds is answered with
    the bounds message, one that has not the shape with the usage
    message; both are ephemeral and no value is drawn. *)
Theorem roll_total_bounded_or_rejected (notation : list Z) :
  (∀ g1 g2 g3,
     dice_shape unicode_space unicode_digit notation g1 g2 g3 →
     (length g1 ≤ MAX_STR_DIGITS)%nat → (length g2 ≤ MAX_STR_DIGITS)%nat →
     (∀ ds, g3 = Some ds → (length ds ≤ MAX_STR_DIGITS)%nat) →
     let x := dice_x unicode_digit g1 in
     let y := dice_x unicode_digit g2 in
     let z := dice_z unicode_digit g3 in
     ((1 ≤ x ≤ 100)%Z → (1 ≤ y ≤ 1000)%Z →
      ∃ rolls,
        drawn (roll unicode_space unicode_digit randint notation) = rolls ∧
        Z.of_nat (length rolls) = x ∧
        Forall (fun v => (1 ≤ v ≤ y)%Z) rolls ∧
        (x + z ≤ sum rolls + z ≤ x * y + z)%Z ∧
        reply (roll unicode_space unicode_digit randint notation)
        = if (sum rolls + z <? STR_LIMIT)%Z
          then Sent ([127922%Z] ++ text " " ++ notation ++ text " = **"
                       ++ text_int (sum rolls + z) ++ text "** ("
                       ++ text_join (text " + ") (map text_int rolls)
                       ++ (if (z =? 0)%Z then [] else text " + " ++ text_int z)
                       ++ text ")") false
          else Failed
                 ("Exceeds the limit (4300 digits) for integer string conversion; "
                  +:+ "use sys.set_int_max_str_digits() to increase the limit")) ∧
     (¬ ((1 ≤ x ≤ 100)%Z ∧ (1 ≤ y ≤ 1000)%Z) →
      roll unicode_space unicode_digit randint notation
      = {| reply := Sent (text "Dice out of bounds.") true; drawn := [] |})) ∧
  ((∀ g1 g2 g3, ¬ dice_shape unicode_space unicode_digit notation g1 g2 g3) →
   roll unicode_space unicode_digit randint notation
   = {| reply := Sent (text "Use format `XdY` or `XdY+Z`, e.g. `2d6+1`.") true;
        drawn := [] |}).
Proof.
  split.
  - intros g1 g2 g3 Hshape H1 H2 H3.
    apply DICE_RE_match_complete in Hshape.
    unfold roll, dice_x, dice_z. rewrite Hshape. cbv zeta.
    rewrite (int_within_limit g1), (int_within_limit g2) by done.
    assert (Hz : (match g3 with
                  | Some ds => int unicode_digit ds
                  | None => Ok 0%Z
                  end)
                 = Ok (match g3 with
                       | Some ds => int_of_digits unicode_digit ds
                       | None => 0%Z
                       end)).
    { destruct g3 as [ds|]; [|done]. by apply int_within_limit, H3. }
    rewrite Hz. simpl.
    assert (Hzr : (0 ≤ match g3 with
                       | Some ds => int_of_digits unicode_digit ds
                       | None => 0
                       end < STR_LIMIT)%Z).
    { destruct g3 as [ds|].
      - by apply int_of_digits_below_limit, H3.
      - pose proof thousand_below_limit. lia. }
    set (x := int_of_digits unicode_digit g1).
    set (y := int_of_digits unicode_digit g2).
    set (z := match g3 with
              | Some ds => int_of_digits unicode_digit ds
              | None => 0%Z
              end) in *.
    clearbody z. clear Hz.
    split.
    + intros Hx Hy.
      destruct (Z.leb_spec x 0), (Z.leb_spec y 0), (Z.ltb_spec 100 x),
        (Z.ltb_spec 1000 y); try lia. simpl.
      pose proof (roll_dice_length x y) as Hlen.
      pose proof (roll_dice_range x y ltac:(lia)) as Hrange.
      pose proof (sum_bounds 1 y _ Hrange) as Hsum.
      rewrite (roll_message_cases notation _ y z) by (done || lia).
      exists (roll_dice randint x y).
      split; [by destruct (_ <? _)%Z|].
      split; [lia|]. split; [done|].
      split; [rewrite Hlen in Hsum; rewrite Z2Nat.id in Hsum by lia; lia|].
      by destruct (_ <? _)%Z.
    + intros Hbad.
      destruct (Z.leb_spec x 0), (Z.leb_spec y 0), (Z.ltb_spec 100 x),
        (Z.ltb_spec 1000 y); simpl; try done. lia.
  - intros Hno. unfold roll.
    destruct (DICE_RE_match unicode_space unicode_digit notation)
      as [[[g1 g2] g3]|] eqn:E; [|done].
    apply DICE_RE_match_sound in E. by apply Hno in E.
Qed.

(** A notation of the shape with a number of more than 4300 digits: the
    first of its three conversions that meets such a number raises, no
    message is sent and no value is drawn, whatever the numbers are. *)
Lemma roll_overlong_number_fails (notation : list Z) g1 g2 g3 :
  dice_shape unicode_space unicode_digit notation g1 g2 g3 →
  (MAX_STR_DIGITS < length g1)%nat ∨ (MAX_STR_DIGITS < length g2)%nat ∨
  (∃ ds, g3 = Some ds ∧ (MAX_STR_DIGITS < length ds)%nat) →
  ∃ n : nat,
    (MAX_STR_DIGITS < n)%nat ∧
    roll unicode_space unicode_digit randint notation
    = {| reply :=
           Failed ("Exceeds the limit (4300 digits) for integer string conversion: "
                   +:+ "value has " +:+ pretty n +:+ " digits; "
                   +:+ "use sys.set_int_max_str_digits() to increase the limit");
         drawn := [] |}.
Proof.
  intros Hshape Hlong. apply DICE_RE_match_complete in Hshape.
  unfold roll. rewrite Hshape.
  destruct (Nat.ltb_spec MAX_STR_DIGITS (length g1)) as [L1|L1].
  { exists (length g1). split; [done|].
    rewrite (int_above_limit g1) by done. reflexivity. }
  rewrite (int_within_limit g1) by done. simpl.
  destruct (Nat.ltb_spec MAX_STR_DIGITS (length g2)) as [L2|L2].
  { exists (length g2). split; [done|].
    rewrite (int_above_limit g2) by done. reflexivity. }
  rewrite (int_within_limit g2) by done. simpl.
  destruct Hlong as [?|[?|(ds & -> & L3)]]; [lia|lia|].
  exists (length ds). split; [done|].
  rewrite (int_above_limit ds) by done. reflexivity.
Qed.
End DiceFacts.

(** [2d6+3], with a die that always shows 1: the total is 5. *)
Lemma roll_total_bounded_or_rejected_example :
  ∃ rolls,
    drawn (roll ascii_only_space ascii_only_digit lowest_face
             [50; 100; 54; 43; 51]%Z) = rolls ∧
    Z.of_nat (length rolls) = 2%Z ∧
    Forall (fun v => (1 ≤ v ≤ 6)%Z) rolls ∧
    (2 + 3 ≤ sum rolls + 3 ≤ 2 * 6 + 3)%Z ∧
    reply (roll ascii_only_space ascii_only_digit lowest_face
             [50; 100; 54; 43; 51]%Z)
    = if (sum rolls + 3 <? STR_LIMIT)%Z
      then Sent ([127922%Z] ++ text " " ++ [50; 100; 54; 43; 51]%Z
                   ++ text " = **" ++ text_int (sum rolls + 3) ++ text "** ("
                   ++ text_join (text " + ") (map text_int rolls)
                   ++ (if (3 =? 0)%Z then [] else text " + " ++ text_int 3)
                   ++ text ")") false
      else Failed
             ("Exceeds the limit (4300 digits) for integer string conversion; "
              +:+ "use sys.set_int_max_str_digits() to increase the limit").
Proof.
  refine (proj1 (proj1 (roll_total_bounded_or_rejected ascii_only_space
            ascii_only_digit lowest_face _ _ _ [50; 100; 54; 43; 51]%Z)
          [50%Z] [54%Z] (Some [51%Z]) _ _ _ _) _ _).
  - intros c H. reflexivity.
  - intros i a b H. unfold lowest_face. lia.
  - intros c v H. discriminate.
  - exists [], 100%Z, []. simpl.
    repeat split; try done; repeat constructor.
  - apply Nat.leb_le. vm_compute. reflexivity.
  - apply Nat.leb_le. vm_compute. reflexivity.
  - intros ds [= <-]. apply Nat.leb_le. vm_compute. reflexivity.
  - vm_compute. split; discriminate.
  - vm_compute. split; discriminate.
Defined.

Example roll_2d6_plus_3 :
  roll ascii_only_space ascii_only_digit lowest_face [50; 100; 54; 43; 51]%Z
  = {| reply := Sent ([127922%Z] ++ text " 2d6+3 = **5** (1 + 1 + 3)") false;
       drawn := [1; 1]%Z |}.
Proof. vm_compute. reflexivity. Qed.

Example roll_rejects_101_dice :
  roll ascii_only_space ascii_only_digit lowest_face (text "101d6")
  = {| reply := Sent (text "Dice out of bounds.") true; drawn := [] |}.
Proof. vm_compute. reflexivity. Qed.

Example roll_rejects_words :
  roll ascii_only_space ascii_only_digit lowest_face (text "two dice")
  = {| reply := Sent (text "Use format `XdY` or `XdY+Z`, e.g. `2d6+1`.") true;
       drawn := [] |}.
Proof. vm_compute. reflexivity. Qed.

(** C10, on the code: the notation of 4301 digits [1] followed by [d6]
    has the shape [XdY], and its X is above 100.  The claim has it
    rejected with an error message; the command converts X before it
    tests the bounds, the conversion raises the [ValueError] of the
    interpreter's digit limit, and the command ends without a message
    (no value is drawn).  This holds whatever the Unicode tables and the
    random generator are. *)
Theorem roll_number_over_digit_limit_raises
    (unicode_space : Z → bool) (unicode_digit : Z → option Z)
    (randint : nat → Z → Z → Z) :
  let notation := replicate 4301 49%Z ++ [100; 54]%Z in
  dice_shape unicode_space unicode_digit notation
    (replicate 4301 49%Z) [54%Z] None ∧
  (100 < dice_x unicode_digit (replicate 4301 49%Z))%Z ∧
  roll unicode_space unicode_digit randint notation
  = {| reply :=
         Failed ("Exceeds the limit (4300 digits) for integer string conversion: "
                 +:+ "value has 4301 digits; "
                 +:+ "use sys.set_int_max_str_digits() to increase the limit");
       drawn := [] |}.
Proof.
  intros notation. subst notation. split; [|split].
  - exists [], 100%Z, [].
    split; [reflexivity|]. split; [constructor|]. split; [constructor|].
    split; [discriminate|]. split.
    { apply Forall_forall. intros c Hc.
      by apply elem_of_replicate in Hc as [-> _]. }
    split; [reflexivity|]. split; [discriminate|].
    split; [by repeat constructor|done].
  - apply Z.ltb_lt. vm_compute. reflexivity.
  - vm_compute. reflexivity.
Qed.

(** The same with a number within the bounds: 4300 zeros before [1d6]
    make X the number 1, and the command raises all the same. *)
Example roll_leading_zeros_raise :
  let notation := replicate 4300 48%Z ++ [49; 100; 54]%Z in
  int_of_digits ascii_only_digit (replicate 4300 48%Z ++ [49%Z]) = 1%Z ∧
  roll ascii_only_space ascii_only_digit lowest_face notation
  = {| reply :=
         Failed ("Exceeds the limit (4300 digits) for integer string conversion: "
                 +:+ "value has 4301 digits; "
                 +:+ "use sys.set_int_max_str_digits() to increase the limit");
       drawn := [] |}.
Proof. split; vm_compute; reflexivity. Qed.

(** * Further properties of the player *)

(** ** Enqueue: what is admitted *)

Lemma enqueue_loop_frame requester tracks : ∀ p good p',
  enqueue_loop requester tracks p = (good, p') →
  p' = set_queue (queue p') (set_seq_counter (_seq_counter p') p).
Proof.
  induction tracks as [|t tracks IH]; intros p good p'; simpl.
  - intros [= <- <-]. by destruct p.
  - destruct (str_truthy (stream_url t)); simpl; [|by apply IH].
    destruct (enqueue_loop _ _ _) as [good0 p0] eqn:E. intros [= <- <-].
    by rewrite (IH _ _ _ E) at 1.
Qed.

Lemma enqueue_loop_spec requester tracks : ∀ p good p',
  enqueue_loop requester tracks p = (good, p') →
  map title good = map title (filter usable tracks) ∧
  map stream_url good = map stream_url (filter usable tracks) ∧
  (∀ i t, good !! i = Some t →
     seq t = Some (_seq_counter p + 1 + Z.of_nat i)%Z ∧
     requested_by t = requester) ∧
  queue p' = queue p ++ good ∧
  _seq_counter p' = (_seq_counter p + Z.of_nat (length good))%Z.
Proof.
  induction tracks as [|t tracks IH]; intros p good p'; simpl.
  - intros [= <- <-]. rewrite app_nil_r.
    split; [done|]. split; [done|]. split; [by intros i t Hi|].
    split; [done|]. simpl. lia.
  - rewrite filter_cons.
    destruct (decide (usable t)) as [Hu|Hu]; unfold usable in Hu.
    + rewrite Hu. simpl.
      destruct (enqueue_loop _ _ _) as [good0 p0] eqn:E. intros [= <- <-].
      apply IH in E as (Ht & Hs & Hseq & Hq & Hc). simpl in *.
      rewrite Ht, Hs, Hq, Hc, <- app_assoc.
      split; [done|]. split; [done|]. split; [|split; [done|lia]].
      intros i t0 Hi. destruct i as [|i]; simpl in Hi.
      * injection Hi as <-. simpl. split; [f_equal; lia | done].
      * apply Hseq in Hi as [-> ->]. split; [f_equal; lia | done].
    + apply not_true_is_false in Hu. rewrite Hu. simpl. apply IH.
Qed.

(** Every admitted track is the wrapping of a track of the answer, field
    by field. *)
Lemma enqueue_loop_wrapped requester tracks : ∀ p good p',
  enqueue_loop requester tracks p = (good, p') →
  good = imap (fun i t =>
                 {| seq := Some (_seq_counter p + 1 + Z.of_nat i)%Z;
                    title := title t; stream_url := stream_url t;
                    webpage_url := webpage_url t; duration := duration t;
                    thumbnail := thumbnail t; requested_by := requester |})
              (filter usable tracks).
Proof.
  induction tracks as [|t tracks IH]; intros p good p'; simpl.
  - by intros [= <- <-].
  - rewrite filter_cons.
    destruct (decide (usable t)) as [Hu|Hu]; unfold usable in Hu.
    + rewrite Hu. simpl.
      destruct (enqueue_loop _ _ _) as [good0 p0] eqn:E. intros [= <- <-].
      apply IH in E. simpl in E. rewrite E. f_equal.
      * f_equal. f_equal. lia.
      * apply imap_ext. intros i t0 _. simpl. f_equal. f_equal. lia.
    + apply not_true_is_false in Hu. rewrite Hu. simpl. apply IH.
Qed.

(** The shape of a successful [enqueue]. *)
Lemma enqueue_ok_inv cfg r now_mono io query requester p p' good :
  enqueue cfg r now_mono io query requester p = (Ok good, p') →
  ∃ tracks p1,
    create_tracks_from_query cfg r (ytdl_opts cfg r p).1 query = Ok tracks ∧
    enqueue_loop requester tracks (ytdl_opts cfg r p).2 = (good, p1) ∧
    p' = if list_truthy good
         then _cancel_idle_timer
                (set_last_activity_mono now_mono
                   (ensure_loop (set_queue_event true p1)))
         else p1.
Proof.
  rewrite enqueue_eq. destruct (ytdl_opts cfg r p) as [opts p0]. simpl.
  destruct (create_tracks_from_query cfg r opts query) as [tracks|msg];
    [|intros Hret; discriminate Hret].
  destruct (enqueue_loop requester tracks p0) as [good0 p1] eqn:E.
  destruct good0 as [|g good0]; simpl; intros [= <- <-];
    by exists tracks, p1.
Qed.

(** The queue and the counter after a successful [enqueue]. *)
Lemma enqueue_ok_queue cfg r now_mono io query requester p p' good :
  enqueue cfg r now_mono io query requester p = (Ok good, p') →
  (∀ i t, good !! i = Some t →
     seq t = Some (_seq_counter p + 1 + Z.of_nat i)%Z ∧
     requested_by t = requester) ∧
  queue p' = queue p ++ good ∧
  _seq_counter p' = (_seq_counter p + Z.of_nat (length good))%Z.
Proof.
  intros Henq. apply enqueue_ok_inv in Henq as (tracks & p1 & Hres & E & ->).
  destruct (ytdl_opts_player cfg r p) as [Hp0 _].
  destruct (enqueue_loop_spec _ _ _ _ _ E) as (_ & _ & Hseq & Hq & Hc).
  assert (Hq0 : queue (ytdl_opts cfg r p).2 = queue p) by (by rewrite Hp0).
  assert (Hc0 : _seq_counter (ytdl_opts cfg r p).2 = _seq_counter p)
    by (by rewrite Hp0).
  rewrite Hq0 in Hq. rewrite Hc0 in Hc, Hseq.
  assert (Hgood : queue (if list_truthy good
                         then _cancel_idle_timer
                                (set_last_activity_mono now_mono
                                   (ensure_loop (set_queue_event true p1)))
                         else p1) = queue p1 ∧
                  _seq_counter (if list_truthy good
                         then _cancel_idle_timer
                                (set_last_activity_mono now_mono
                                   (ensure_loop (set_queue_event true p1)))
                         else p1) = _seq_counter p1).
  { destruct (list_truthy good); [|done].
    unfold ensure_loop. by destruct (loop_task _). }
  destruct Hgood as (-> & ->). done.
Qed.

(** X1. What a successful [enqueue] admits: exactly the tracks of the
    resolver's answer that have a stream, in order, each wrapped (title,
    stream, page, duration and thumbnail as they are) with the requester
    and the next sequence number (consecutive from the counter), appended
    to the tail of the queue; the counter advances by their number. *)
Theorem enqueue_admits_usable_tracks_in_order
    (cfg : Config) (r : Resolver) (now_mono : Z) (io : PanelIO)
    (query : string) (requester : option Member) (p p' : GuildPlayer)
    (good : list Track) :
  enqueue cfg r now_mono io query requester p = (Ok good, p') →
  ∃ tracks,
    create_tracks_from_query cfg r (ytdl_opts cfg r p).1 query = Ok tracks ∧
    good = imap (fun i t =>
                   {| seq := Some (_seq_counter p + 1 + Z.of_nat i)%Z;
                      title := title t; stream_url := stream_url t;
                      webpage_url := webpage_url t; duration := duration t;
                      thumbnail := thumbnail t; requested_by := requester |})
                (filter usable tracks) ∧
    map title good = map title (filter usable tracks) ∧
    map stream_url good = map stream_url (filter usable tracks) ∧
    (length good ≤ length tracks)%nat ∧
    (∀ i t, good !! i = Some t →
       seq t = Some (_seq_counter p + 1 + Z.of_nat i)%Z ∧
       requested_by t = requester ∧ usable t) ∧
    queue p' = queue p ++ good ∧
    _seq_counter p' = (_seq_counter p + Z.of_nat (length good))%Z.
Proof.
  intros Henq. apply enqueue_ok_inv in Henq as (tracks & p1 & Hres & E & ->).
  destruct (ytdl_opts_player cfg r p) as [Hp0 _].
  destruct (enqueue_loop_spec _ _ _ _ _ E) as (Ht & Hs & Hseq & Hq & Hc).
  pose proof (enqueue_loop_wrapped _ _ _ _ _ E) as Hw.
  assert (Hq0 : queue (ytdl_opts cfg r p).2 = queue p) by (by rewrite Hp0).
  assert (Hc0 : _seq_counter (ytdl_opts cfg r p).2 = _seq_counter p)
    by (by rewrite Hp0).
  rewrite Hq0 in Hq. rewrite Hc0 in Hc, Hseq, Hw.
  set (p' := if list_truthy good then _ else _).
  assert (Hgood : queue p' = queue p1 ∧ _seq_counter p' = _seq_counter p1).
  { subst p'. destruct (list_truthy good); [|done].
    unfold ensure_loop. by destruct (loop_task _). }
  destruct Hgood as (-> & ->).
  exists tracks. split; [done|]. split; [done|]. split; [done|].
  split; [done|]. split.
  { apply (f_equal length) in Ht. rewrite !length_map in Ht. rewrite Ht.
    apply length_filter. }
  split; [|done].
  intros i t Hi. destruct (Hseq i t Hi) as [? ?]. split; [done|]. split; [done|].
  assert (Hin : stream_url t ∈ map stream_url (filter usable tracks)).
  { rewrite <- Hs. apply list_elem_of_fmap. exists t. split; [done|].
    by apply list_elem_of_lookup_2 in Hi. }
  apply list_elem_of_fmap in Hin as (t' & Heq & Hin').
  apply list_elem_of_filter in Hin' as [Hu _]. unfold usable in *. by rewrite Heq.
Qed.

(** A playlist of three videos, the second without a stream, enqueued on
    a player that plays [C] with [A] and [B] queued: the first and the
    third are admitted with the numbers 4 and 5. *)
Lemma enqueue_admits_usable_tracks_in_order_witness :
  let good := tracks_of playlist_enqueued.1 in
  let p' := playlist_enqueued.2 in
  ∃ tracks,
    create_tracks_from_query default_config a_playlist
      (ytdl_opts default_config a_playlist busy_player).1
      "https://www.youtube.com/playlist?list=PL1" = Ok tracks ∧
    good = imap (fun i t =>
                   {| seq := Some (_seq_counter busy_player + 1 + Z.of_nat i)%Z;
                      title := title t; stream_url := stream_url t;
                      webpage_url := webpage_url t; duration := duration t;
                      thumbnail := thumbnail t; requested_by := Some alice |})
                (filter usable tracks) ∧
    map title good = map title (filter usable tracks) ∧
    map stream_url good = map stream_url (filter usable tracks) ∧
    (length good ≤ length tracks)%nat ∧
    (∀ i t, good !! i = Some t →
       seq t = Some (_seq_counter busy_player + 1 + Z.of_nat i)%Z ∧
       requested_by t = Some alice ∧ usable t) ∧
    queue p' = queue busy_player ++ good ∧
    _seq_counter p'
    = (_seq_counter busy_player + Z.of_nat (length good))%Z.
Proof.
  intros good p'.
  apply (enqueue_admits_usable_tracks_in_order default_config
           a_playlist 7 no_panel "https://www.youtube.com/playlist?list=PL1"
           (Some alice) busy_player p' good).
  vm_compute. reflexivity.
Defined.

(** The same run, written out. *)
Example playlist_enqueued_tracks :
  map (fun t => (seq t, title t, webpage_url t, duration t))
      (tracks_of playlist_enqueued.1)
  = [(Some 4%Z, "one", "https://youtu.be/one", Some 100%Z);
     (Some 5%Z, "three", "https://youtu.be/three", Some 300%Z)] ∧
  map seq (queue playlist_enqueued.2)
  = [Some 1%Z; Some 2%Z; Some 4%Z; Some 5%Z] ∧
  _seq_counter playlist_enqueued.2 = 5%Z.
Proof. vm_compute. done. Qed.

(** ** Enqueue: sequence numbers are fresh *)

Lemma elem_of_held p t :
  t ∈ held p ↔ t ∈ queue p ∨ t ∈ _history p ∨ current p = Some t.
Proof.
  unfold held. rewrite !elem_of_app. destruct (current p) as [c|].
  - rewrite list_elem_of_singleton. split.
    + intros [?|[?|?]]; subst; auto.
    + intros [?|[?|?]]; simplify_eq; auto.
  - rewrite elem_of_nil. split.
    + intros [?|[?|?]]; auto; done.
    + intros [?|[?|?]]; auto; done.
Qed.

(** X2. Sequence numbers are unique per guild: when every track the
    player holds (queue, history, current) carries a number not above the
    counter, the tracks a successful [enqueue] admits carry numbers above
    the old counter, pairwise different and different from every track
    held before, and the bound holds again afterwards. *)
Theorem enqueue_sequence_numbers_fresh
    (cfg : Config) (r : Resolver) (now_mono : Z) (io : PanelIO)
    (query : string) (requester : option Member) (p p' : GuildPlayer)
    (good : list Track) :
  seqs_bounded p →
  enqueue cfg r now_mono io query requester p = (Ok good, p') →
  (∀ g, g ∈ good → ∃ n, seq g = Some n ∧ (_seq_counter p < n ≤ _seq_counter p')%Z) ∧
  (∀ g t, g ∈ good → t ∈ held p → seq g ≠ seq t) ∧
  NoDup (map seq good) ∧
  seqs_bounded p'.
Proof.
  intros Hb Henq.
  pose proof Henq as Hspec.
  apply enqueue_ok_queue in Hspec as (Hseq & Hq & Hc).
  assert (Hnew : ∀ g, g ∈ good →
            ∃ n, seq g = Some n ∧ (_seq_counter p < n ≤ _seq_counter p')%Z).
  { intros g Hg. apply list_elem_of_lookup in Hg as [i Hi].
    pose proof (lookup_lt_Some _ _ _ Hi) as Hlt.
    destruct (Hseq i g Hi) as (-> & _). eexists. split; [done|]. lia. }
  assert (Hrest : current p' = current p ∧ _history p' = _history p).
  { apply enqueue_ok_inv in Henq as (ts & p1 & _ & E & ->).
    destruct (ytdl_opts_player cfg r p) as [Hp0 _].
    apply enqueue_loop_frame in E.
    assert (H1 : current p1 = current p ∧ _history p1 = _history p)
      by (rewrite E, Hp0; done).
    destruct (list_truthy good); [|done].
    unfold ensure_loop. by destruct (loop_task _). }
  destruct Hrest as [Hcur Hhist].
  split; [done|]. split; [|split].
  - intros g t Hg Ht. destruct (Hnew g Hg) as (n & -> & Hn).
    destruct (Hb t Ht) as (m & -> & Hm). intros [= ->]. lia.
  - apply NoDup_alt. intros i j s Hi Hj.
    rewrite list_lookup_fmap in Hi, Hj.
    destruct (good !! i) as [gi|] eqn:Ei; [|done].
    destruct (good !! j) as [gj|] eqn:Ej; [|done].
    simpl in Hi, Hj. destruct (Hseq i gi Ei) as (Hsi & _).
    destruct (Hseq j gj Ej) as (Hsj & _).
    assert (Heq : seq gi = seq gj) by congruence.
    rewrite Hsi, Hsj in Heq. injection Heq. lia.
  - intros t Ht. apply elem_of_held in Ht. rewrite Hq, Hcur, Hhist in Ht.
    rewrite elem_of_app in Ht.
    destruct Ht as [[Ht|Ht]|Ht].
    + destruct (Hb t) as (n & -> & Hn); [apply elem_of_held; by left|].
      eexists. split; [done|]. lia.
    + destruct (Hnew t Ht) as (n & -> & Hn). eexists. split; [done|]. lia.
    + destruct (Hb t) as (n & -> & Hn); [apply elem_of_held; by right|].
      eexists. split; [done|]. lia.
Qed.

(** The playlist enqueued on the player that plays [C] (numbers 1, 2
    and 3 are held, the counter is 3): the two tracks admitted get 4
    and 5. *)
Lemma enqueue_sequence_numbers_fresh_witness :
  let good := tracks_of playlist_enqueued.1 in
  let p' := playlist_enqueued.2 in
  (length good = 2%nat ∧ length (held busy_player) = 6%nat) ∧
  (∀ g, g ∈ good →
     ∃ n, seq g = Some n ∧
          (_seq_counter busy_player < n ≤ _seq_counter p')%Z) ∧
  (∀ g t, g ∈ good → t ∈ held busy_player → seq g ≠ seq t) ∧
  NoDup (map seq good) ∧
  seqs_bounded p'.
Proof.
  intros good p'. split; [by vm_compute|].
  apply (enqueue_sequence_numbers_fresh default_config
           a_playlist 7 no_panel "https://www.youtube.com/playlist?list=PL1"
           (Some alice) busy_player p' good).
  - intros t Ht. unfold held in Ht. vm_compute in Ht.
    repeat (apply elem_of_cons in Ht as [->|Ht];
            [eexists; split; [reflexivity|by vm_compute]|]).
    by apply elem_of_nil in Ht.
  - vm_compute. reflexivity.
Defined.

(** X3. A successful [enqueue] of at least one track wakes the loop and
    cancels a pending idle disconnect: the queue event is set, a loop
    task runs, the idle task and the idle start time are cleared and the
    activity time is the present; an [enqueue] that admits nothing leaves
    the events, tasks and timers as they were. *)
Theorem enqueue_wakes_loop_and_cancels_idle
    (cfg : Config) (r : Resolver) (now_mono : Z) (io : PanelIO)
    (query : string) (requester : option Member) (p p' : GuildPlayer)
    (good : list Track) :
  enqueue cfg r now_mono io query requester p = (Ok good, p') →
  (good ≠ [] →
     queue_event p' = true ∧ loop_task p' = true ∧
     _idle_task p' = false ∧ _idle_started_mono p' = None ∧
     _last_activity_mono p' = now_mono ∧ voice p' = voice p) ∧
  (good = [] →
     queue p' = queue p ∧ _seq_counter p' = _seq_counter p ∧
     queue_event p' = queue_event p ∧ loop_task p' = loop_task p ∧
     _idle_task p' = _idle_task p ∧
     _idle_started_mono p' = _idle_started_mono p ∧
     _last_activity_mono p' = _last_activity_mono p).
Proof.
  intros Henq. pose proof Henq as Hspec.
  apply enqueue_ok_queue in Hspec as (_ & Hq & Hc).
  apply enqueue_ok_inv in Henq as (ts & p1 & _ & E & Hp').
  destruct (ytdl_opts_player cfg r p) as [Hp0 _].
  apply enqueue_loop_frame in E.
  split.
  - intros Hne. destruct good as [|g good]; [done|]. simpl in Hp'.
    subst p'.
    assert (Hv : voice p1 = voice p) by (rewrite E, Hp0; done).
    unfold ensure_loop.
    destruct (loop_task (set_queue_event true p1)) eqn:El; simpl in *;
      rewrite ?El; done.
  - intros ->. simpl in Hp'. subst p'. rewrite app_nil_r in Hq.
    simpl in Hc. rewrite Hq. split; [done|]. split; [lia|].
    rewrite E, Hp0. done.
Qed.

Lemma enqueue_wakes_loop_and_cancels_idle_witness :
  let good := tracks_of one_song_enqueued.1 in
  let p' := one_song_enqueued.2 in
  (good ≠ [] →
     queue_event p' = true ∧ loop_task p' = true ∧
     _idle_task p' = false ∧ _idle_started_mono p' = None ∧
     _last_activity_mono p' = 7%Z ∧
     voice p' = voice (new_player the_guild 0)) ∧
  (good = [] →
     queue p' = queue (new_player the_guild 0) ∧
     _seq_counter p' = _seq_counter (new_player the_guild 0) ∧
     queue_event p' = queue_event (new_player the_guild 0) ∧
     loop_task p' = loop_task (new_player the_guild 0) ∧
     _idle_task p' = _idle_task (new_player the_guild 0) ∧
     _idle_started_mono p' = _idle_started_mono (new_player the_guild 0) ∧
     _last_activity_mono p' = _last_activity_mono (new_player the_guild 0)).
Proof.
  intros good p'.
  apply (enqueue_wakes_loop_and_cancels_idle default_config
           (finding (album_client [])) 7 no_panel "some song" (Some alice)
           (new_player the_guild 0) p' good).
  vm_compute. reflexivity.
Defined.

(** ** The playback loop: repeat all, stop, disconnects *)

(** X4. Repeat mode [all]: when a track ends with nothing queued, no
    stop requested and a listener present (or no connection at all), the
    queue the loop goes on with is exactly the history, in history
    order.  The queue is refilled before the panel is updated, so that
    this is the queue also when the update raises and ends the loop. *)
Theorem repeat_all_refills_from_history
    (cfg : Config) (env : Env) (p : GuildPlayer) :
  _stopped p = false → repeat_mode p = "all" → queue p = [] →
  (voice_connected p = true → _has_humans p = true) →
  queue (after_track cfg env p) = _history p ∧
  _history (after_track cfg env p) = _history p.
Proof.
  intros Hs Hm Hq Hh. unfold after_track. cbv zeta.
  set (p0 := set_last_activity_mono _ _).
  set (p1 := if _ : bool then set_current None p0 else p0).
  assert (H1 : queue p1 = [] ∧ _stopped p1 = false ∧ repeat_mode p1 = "all" ∧
               _history p1 = _history p ∧
               (voice_connected p1 = true → _has_humans p1 = true)).
  { subst p1. case_match; simpl; by rewrite ?Hq. }
  destruct H1 as (Hq1 & Hs1 & Hm1 & Hy1 & Hh1).
  destruct (_on_track_end_listeners cfg (mono env 7) (panel env 5) p1 Hh1)
    as (Hq2 & Hc2 & Hs2 & Hm2 & Hy2).
  rewrite and_then_returns by (by apply _on_track_end_listeners_returns).
  set (p2 := player_left (_on_track_end _ _ _ _)) in *.
  rewrite Hs2, Hs1.
  assert (Hr : queue (apply_repeat p2) = _history p ∧
               _history (apply_repeat p2) = _history p).
  { assert (Hq2' : queue p2 = []) by congruence.
    assert (Hy2' : _history p2 = _history p) by congruence.
    assert (Hm2' : repeat_mode p2 = "all") by congruence.
    unfold apply_repeat. rewrite Hm2'.
    change ("all" =? "one")%string with false. cbv iota.
    assert (Hsame : match current p2 with Some _ => p2 | None => p2 end = p2)
      by (by destruct (current p2)).
    rewrite !Hsame, Hq2', Hy2', Hm2'. simpl.
    destruct (_history p) eqn:E; simpl; by rewrite ?Hq2', ?Hy2'. }
  destruct Hr as [Hrq Hrh]. rewrite Hrq.
  destruct (list_truthy (_history p)).
  - rewrite (frame_queue _ _ (post_or_update_panel_frame _ _)),
      (proj1 (frame_history _ _ (post_or_update_panel_frame _ _))).
    by rewrite Hrq, Hrh.
  - rewrite and_then_left.
    destruct (raised (post_or_update_panel (panel env 8) (apply_repeat p2))).
    { rewrite (frame_queue _ _ (post_or_update_panel_frame _ _)),
        (proj1 (frame_history _ _ (post_or_update_panel_frame _ _))).
      by rewrite Hrq, Hrh. }
    destruct (DELETE_PANEL_ON_IDLE cfg).
    + cbn [player_left].
      rewrite (frame_queue _ _ (delete_panel_frame _ _)),
        (frame_queue _ _ (_bump_panel_if_needed_frame _ _ _ _ _)),
        (frame_queue _ _ (post_or_update_panel_frame _ _)).
      rewrite (proj1 (frame_history _ _ (delete_panel_frame _ _))),
        (proj1 (frame_history _ _ (_bump_panel_if_needed_frame _ _ _ _ _))),
        (proj1 (frame_history _ _ (post_or_update_panel_frame _ _))).
      by rewrite Hrq, Hrh.
    + rewrite (frame_queue _ _ (post_or_update_panel_frame _ _)),
        (proj1 (frame_history _ _ (post_or_update_panel_frame _ _))).
      cbn [queue _history set_current].
      rewrite (frame_queue _ _ (_bump_panel_if_needed_frame _ _ _ _ _)),
        (frame_queue _ _ (post_or_update_panel_frame _ _)).
      rewrite (proj1 (frame_history _ _ (_bump_panel_if_needed_frame _ _ _ _ _))),
        (proj1 (frame_history _ _ (post_or_update_panel_frame _ _))).
      by rewrite Hrq, Hrh.
Qed.

Lemma repeat_all_refills_from_history_witness :
  queue (after_track default_config still_env
           (set_repeat_mode "all" repeat_one_last))
  = _history (set_repeat_mode "all" repeat_one_last) ∧
  _history (after_track default_config still_env
              (set_repeat_mode "all" repeat_one_last))
  = _history (set_repeat_mode "all" repeat_one_last).
Proof.
  apply (repeat_all_refills_from_history default_config still_env
           (set_repeat_mode "all" repeat_one_last));
    [reflexivity | reflexivity | reflexivity | reflexivity].
Defined.

Lemma _on_track_end_keeps_flags cfg now io p :
  let p' := _on_track_end cfg now io p in
  _stopped p' = _stopped p ∧ (queue p = [] → queue p' = []) ∧
  _history p' = _history p ∧ repeat_mode p' = repeat_mode p.
Proof.
  intros p'. subst p'. unfold _on_track_end, _start_idle_timer_if_needed.
  destruct (voice_connected p); simpl; [|done].
  destruct (_has_humans p); simpl.
  - repeat (case_match; simpl; try done).
  - destruct (_safe_disconnect_cleared cfg now io (_cancel_idle_timer p))
      as (_ & _ & -> & -> & -> & ->). done.
Qed.

Lemma stop_fields p :
  queue (stop p) = [] ∧ _stopped (stop p) = true ∧
  _history (stop p) = _history p.
Proof. unfold stop. simpl. by destruct (voice p). Qed.

(** X5. Stop wins over repeat: after [stop()], in any repeat mode and
    whatever the history holds, the end of the track leaves the queue
    empty and the stop flag set (whether its panel updates return or
    raise), and the loop ends at its next [while] test. *)
Theorem stop_then_track_end_ends_loop
    (cfg : Config) (env env' : Env) (p : GuildPlayer) :
  let p' := after_track cfg env (stop p) in
  queue p' = [] ∧ _stopped p' = true ∧ _history p' = _history p ∧
  loop_top cfg env' p' = LoopExit p'.
Proof.
  intros p'.
  assert (H : queue p' = [] ∧ _stopped p' = true ∧ _history p' = _history p).
  { subst p'. unfold after_track. cbv zeta.
    set (p0 := set_last_activity_mono _ _).
    set (p1 := if _ : bool then set_current None p0 else p0).
    assert (H1 : queue p1 = [] ∧ _stopped p1 = true ∧ _history p1 = _history p).
    { destruct (stop_fields p) as (Hq0 & Hs0 & Hy0).
      assert (H0 : queue p0 = [] ∧ _stopped p0 = true ∧ _history p0 = _history p)
        by (subst p0; cbn [queue _stopped _history set_last_activity_mono
              set_navigating_history _cleanup_temp_cookie_file
              set_temp_cookie_path set_start_time_utc set_ui_task]; done).
      subst p1. by destruct (_ && _). }
    destruct H1 as (Hq1 & Hs1 & Hy1).
    destruct (_on_track_end_keeps_flags cfg (mono env 7) (panel env 5) p1)
      as (Hs2 & Hq2 & Hy2 & _).
    rewrite and_then_left.
    set (p2 := player_left (_on_track_end _ _ _ _)) in *.
    specialize (Hq2 Hq1).
    destruct (raised (_on_track_end _ _ _ _));
      [by rewrite Hq2, Hs2, Hs1, Hy2, Hy1|].
    rewrite Hs2, Hs1.
    destruct (DELETE_PANEL_ON_IDLE cfg).
    - cbn [player_left].
      rewrite (frame_queue _ _ (delete_panel_frame _ _)),
        (frame_stopped _ _ (delete_panel_frame _ _)),
        (proj1 (frame_history _ _ (delete_panel_frame _ _))).
      by rewrite Hq2, Hs2, Hs1, Hy2, Hy1.
    - rewrite (frame_queue _ _ (post_or_update_panel_frame _ _)),
        (frame_stopped _ _ (post_or_update_panel_frame _ _)),
        (proj1 (frame_history _ _ (post_or_update_panel_frame _ _))).
      cbn [queue _stopped _history set_current].
      by rewrite Hq2, Hs2, Hs1, Hy2, Hy1. }
  destruct H as (Hq & Hs & Hy). repeat split; try done.
  unfold loop_top. by rewrite Hs.
Qed.

Lemma then_continue_inv o p' :
  then_continue o = LoopContinue p' → p' = player_left o ∧ raised o = false.
Proof. destruct o; [by intros [= <-]|done]. Qed.

(** X6. The head of the loop disconnects only for one of its two
    reasons: if it sends the loop back to the start with the voice
    handle dropped, then either the player was connected without a
    listener, or it was connected and idle (not playing, not paused,
    nothing queued) since at least 300 seconds; in both cases no track is
    current afterwards and the queue is empty. *)
Theorem loop_top_disconnects_only_alone_or_idle
    (cfg : Config) (env : Env) (p p' : GuildPlayer) :
  loop_top cfg env p = LoopContinue p' →
  voice p' = None ∧ current p' = None ∧ queue p' = [] ∧
  voice_connected p = true ∧
  (_has_humans p = false ∨
   (∃ started, _idle_started_mono p = Some started ∧
      (300 * SECOND ≤ mono env 1 - started)%Z ∧
      voice_playing p = false ∧ voice_paused p = false ∧ queue p = [])).
Proof.
  unfold loop_top. destruct (_stopped p); [done|].
  destruct (voice_connected p) eqn:Hc; simpl; [|done].
  destruct (_has_humans p) eqn:Hh; simpl.
  - destruct (voice_playing p) eqn:Hpl; simpl; [done|].
    destruct (voice_paused p) eqn:Hpa; simpl; [done|].
    destruct (queue p) as [|t q] eqn:Hq; simpl; [|done].
    destruct (_idle_started_mono p) as [started|] eqn:Hi; [|done].
    destruct (Z.leb_spec (300 * SECOND) (mono env 1 - started)); [|done].
    intros [-> _]%then_continue_inv.
    rewrite (frame_voice _ _ (idle_panel_frame _ _ _)),
      (frame_current _ _ (idle_panel_frame _ _ _)),
      (frame_queue _ _ (idle_panel_frame _ _ _)). simpl.
    rewrite Hq. repeat split; try done. right. by exists started.
  - intros [-> _]%then_continue_inv.
    destruct (_safe_disconnect_cleared cfg (mono env 0) (panel env 0) p)
      as (-> & -> & -> & _). repeat split; try done. by left.
Qed.

Lemma loop_top_disconnects_only_alone_or_idle_witness :
  let p := set_voice (Some (in_channel [discbot])) (new_player the_guild 0) in
  let p' := _safe_disconnect default_config 0 no_panel p in
  voice p' = None ∧ current p' = None ∧ queue p' = [] ∧
  voice_connected p = true ∧
  (_has_humans p = false ∨
   (∃ started, _idle_started_mono p = Some started ∧
      (300 * SECOND ≤ mono still_env 1 - started)%Z ∧
      voice_playing p = false ∧ voice_paused p = false ∧ queue p = [])).
Proof.
  intros p p'.
  apply (loop_top_disconnects_only_alone_or_idle default_config still_env p p').
  reflexivity.
Defined.

(** X7. The idle countdown of the loop: a connected player with a
    listener that is not playing, not paused and has nothing queued is
    left connected while fewer than 300 seconds have passed since the
    countdown started (which the first such pass does); once 300 seconds
    have passed the voice handle, the current track and the countdown are
    dropped, and the loop starts over, or ends with the [AttributeError]
    when the panel update raises (the panel is posted rather than
    deleted, a panel channel is found and the guild has no icon).  A
    pass that finds the player playing, paused or with tracks queued
    clears the countdown. *)
Theorem loop_top_idle_countdown (cfg : Config) (env : Env) (p : GuildPlayer) :
  _stopped p = false → voice_connected p = true → _has_humans p = true →
  (voice_playing p = false → voice_paused p = false → queue p = [] →
   match _idle_started_mono p with
   | None =>
       loop_top cfg env p
       = QueueCheck (set_idle_started_mono (Some (mono env 1)) p)
   | Some started =>
       ((mono env 1 - started < 300 * SECOND)%Z →
        loop_top cfg env p = QueueCheck p) ∧
       ((300 * SECOND ≤ mono env 1 - started)%Z →
        ∃ p', loop_top cfg env p
              = (if negb (DELETE_PANEL_ON_IDLE cfg)
                    && panel_raises (panel env 1) p
                 then LoopDied NO_EMBED_EMPTY p' else LoopContinue p') ∧
              voice p' = None ∧ current p' = None ∧
              _idle_started_mono p' = None ∧ queue p' = [] ∧
              _history p' = _history p)
   end) ∧
  (voice_playing p = true ∨ voice_paused p = true ∨ queue p ≠ [] →
   loop_top cfg env p = QueueCheck (set_idle_started_mono None p)).
Proof.
  intros Hs Hc Hh. unfold loop_top. rewrite Hs, Hc, Hh. simpl. split.
  - intros -> -> Hq. rewrite Hq. simpl.
    destruct (_idle_started_mono p) as [started|]; [|done].
    split; intros Ht.
    + destruct (Z.leb_spec (300 * SECOND) (mono env 1 - started)); [lia|done].
    + destruct (Z.leb_spec (300 * SECOND) (mono env 1 - started)); [|lia].
      eexists. split; [by rewrite then_continue_idle_panel|].
      pose proof (idle_panel_frame cfg (panel env 1)
                    (set_idle_started_mono None
                       (set_current None (set_voice None p)))) as Hf.
      rewrite (frame_voice _ _ Hf), (frame_current _ _ Hf),
        (frame_queue _ _ Hf), (proj1 (frame_history _ _ Hf)).
      apply (f_equal _idle_started_mono) in Hf. simpl in Hf. by rewrite Hf.
  - intros [->|[->|Hq]]; simpl; [done| by rewrite andb_false_r |].
    destruct (queue p); [done|]. simpl. by rewrite andb_false_r.
Qed.

(** A player idle since the clock read 0, looked at when it reads 301
    seconds.  In [the_club] the panel is updated and the loop starts
    over; in the guild without icon the update raises and the loop
    ends.  In both the voice handle is dropped. *)
Lemma loop_top_idle_countdown_witness :
  let p := set_idle_started_mono (Some 0%Z)
             (set_panel_channel_id (Some 77%Z)
                (set_voice (Some (in_channel [alice; discbot]))
                   (new_player the_guild 0))) in
  (∃ p', loop_top default_config idle_env (in_guild the_club p)
         = LoopContinue p' ∧
         voice p' = None ∧ panel_message_id p' = Some 900%Z) ∧
  (∃ p', loop_top default_config idle_env p = LoopDied NO_EMBED_EMPTY p' ∧
         voice p' = None ∧ panel_message_id p' = None).
Proof.
  intros p. split.
  - destruct (loop_top_idle_countdown default_config idle_env
                (in_guild the_club p) eq_refl eq_refl eq_refl) as [H _].
    destruct (H eq_refl eq_refl eq_refl) as [_ H300].
    destruct H300 as (p' & Hp' & Hv & _); [by vm_compute|].
    exists p'. split; [exact Hp'|]. split; [exact Hv|].
    vm_compute in Hp'. by injection Hp' as <-.
  - destruct (loop_top_idle_countdown default_config idle_env p
                eq_refl eq_refl eq_refl) as [H _].
    destruct (H eq_refl eq_refl eq_refl) as [_ H300].
    destruct H300 as (p' & Hp' & Hv & _); [by vm_compute|].
    exists p'. split; [exact Hp'|]. split; [exact Hv|].
    vm_compute in Hp'. by injection Hp' as <-.
Defined.

(** ** History navigation *)

Lemma skip_frame_nav p :
  _navigating_history (skip p) = _navigating_history p.
Proof. unfold skip. by destruct (voice p). Qed.

Lemma play_previous_keeps_history_ok p :
  history_ok p →
  ∃ p', play_previous p = Some p' ∧ history_ok p' ∧ _history p' = _history p.
Proof.
  intros Hok. pose proof Hok as [Hlen Hcur]. unfold play_previous.
  destruct (_history p) as [|h0 hs] eqn:Hh; cbn [list_truthy negb].
  { by exists p. }
  destruct (Z.leb_spec (_history_index p) 0) as [Hle|Hgt].
  - destruct (current p) as [c|].
    + eexists. split; [done|].
      destruct (skip_frame (set_queue (c :: queue p) p)) as (_ & _ & Hy & Hi).
      unfold history_ok, cursor_valid. rewrite Hy, Hi.
      cbn [_history _history_index set_queue].
      split; [exact Hok | exact Hh].
    + by exists p.
  - destruct Hcur as [[? _]|Hcur]; [congruence|].
    rewrite Hh in Hcur. cbv zeta.
    destruct (lookup_lt_is_Some_2 (h0 :: hs) (Z.to_nat (_history_index p - 1)))
      as [target Ht]; [lia|].
    rewrite Ht. eexists. split; [done|].
    match goal with
    | |- context [skip ?q] => destruct (skip_frame q) as (_ & _ & Hy & Hi)
    end.
    unfold history_ok, cursor_valid. rewrite Hy, Hi.
    destruct (current p) as [c|]; [destruct (seq_in (seq c) (queue p))|];
      cbn [_history _history_index set_queue set_history_index
           set_navigating_history negb];
      (split; [split; [by rewrite Hh | right; rewrite Hh; lia] | exact Hh]).
Qed.

(** On an empty history or at the most recent entry the forward step
    changes nothing. *)
Lemma play_next_from_history_stays p :
  _history p = [] ∨ _history_index p = (-1)%Z ∨
  (Z.of_nat (length (_history p)) - 1 ≤ _history_index p)%Z →
  play_next_from_history p = Some p.
Proof.
  unfold play_next_from_history.
  intros [Hh|[Hi|Hl]].
  - by rewrite Hh.
  - rewrite Hi. simpl. by rewrite orb_true_r.
  - destruct (negb (list_truthy (_history p)) || (_history_index p =? -1)%Z);
      [done|].
    by destruct (Z.leb_spec (Z.of_nat (length (_history p)) - 1)
                   (_history_index p)); [|lia].
Qed.

(** Otherwise it moves the cursor one entry forward. *)
Lemma play_next_from_history_moves p :
  (0 ≤ _history_index p < Z.of_nat (length (_history p)) - 1)%Z →
  ∃ track p',
    _history p !! Z.to_nat (_history_index p + 1) = Some track ∧
    play_next_from_history p = Some p' ∧
    _history_index p' = (_history_index p + 1)%Z ∧
    queue p' = track :: queue p ∧
    _history p' = _history p ∧ current p' = current p ∧
    _navigating_history p' = true.
Proof.
  unfold play_next_from_history.
  intros Hi.
  destruct (_history p) as [|h0 hs] eqn:Hh; [simpl in Hi; lia|].
  cbn [list_truthy negb orb].
  destruct (Z.eqb_spec (_history_index p) (-1)); [lia|].
  destruct (Z.leb_spec (Z.of_nat (length (h0 :: hs)) - 1) (_history_index p));
    [lia|].
  cbv zeta.
  destruct (Z.ltb_spec (_history_index p + 1) 0); [lia|].
  destruct (lookup_lt_is_Some_2 (h0 :: hs) (Z.to_nat (_history_index p + 1)))
    as [track Ht]; [lia|].
  rewrite Ht.
  destruct (Z.ltb_spec (_history_index p + 1) 0); [lia|].
  match goal with
  | |- context [skip ?q] =>
      destruct (skip_frame q) as (Hq & Hc & Hy & Hx);
      pose proof (skip_frame_nav q) as Hn;
      set (p2 := skip q) in *
  end.
  cbn [queue current _history _history_index _navigating_history
       set_queue set_navigating_history set_history_index] in Hq, Hc, Hy, Hx, Hn.
  exists track.
  destruct (Z.leb_spec (Z.of_nat (length (_history p2)) - 1)
              (_history_index p2)).
  - eexists. split; [done|]. split; [done|].
    cbn [queue current _history _history_index _navigating_history
         set_history_index].
    rewrite Hq, Hc, Hy, Hn, Hh. repeat split; try done.
    rewrite Hy, Hh, Hx in *. lia.
  - exists p2. rewrite Hq, Hc, Hy, Hn, Hx, Hh. done.
Qed.

(** X8. The forward step: on an empty history or at the most recent
    entry [play_next_from_history] changes nothing; otherwise it moves the
    cursor one entry forward and puts that entry at the head of the
    queue, leaving the history and the current track alone. *)
Theorem play_next_from_history_steps_forward (p : GuildPlayer) :
  (_history p = [] ∨ _history_index p = (-1)%Z ∨
   (Z.of_nat (length (_history p)) - 1 ≤ _history_index p)%Z →
   play_next_from_history p = Some p) ∧
  ((0 ≤ _history_index p < Z.of_nat (length (_history p)) - 1)%Z →
   ∃ track p',
     _history p !! Z.to_nat (_history_index p + 1) = Some track ∧
     play_next_from_history p = Some p' ∧
     _history_index p' = (_history_index p + 1)%Z ∧
     queue p' = track :: queue p ∧
     _history p' = _history p ∧ current p' = current p ∧
     _navigating_history p' = true).
Proof.
  split.
  - intros Hedge. by apply play_next_from_history_stays.
  - intros Hinside.
    destruct (play_next_from_history_moves p Hinside) as (track & p' & Hmoved).
    by exists track, p'.
Qed.

Lemma play_next_from_history_steps_forward_witness :
  let p := set_history_index 0 playing_c in
  ∃ track p',
    _history p !! Z.to_nat (_history_index p + 1) = Some track ∧
    play_next_from_history p = Some p' ∧
    _history_index p' = (_history_index p + 1)%Z ∧
    queue p' = track :: queue p ∧
    _history p' = _history p ∧ current p' = current p ∧
    _navigating_history p' = true.
Proof.
  intros p.
  apply (proj2 (play_next_from_history_steps_forward p)).
  vm_compute. split; [discriminate | reflexivity].
Defined.

Lemma play_next_keeps_history_ok p :
  history_ok p →
  ∃ p', play_next_from_history p = Some p' ∧ history_ok p' ∧
        _history p' = _history p.
Proof.
  intros [Hlen Hcur].
  pose proof (play_next_from_history_stays p) as Hstay.
  pose proof (play_next_from_history_moves p) as Hmove.
  destruct Hcur as [[Hh Hi]|Hcur].
  - exists p. split; [apply Hstay; by left|]. split; [|done].
    split; [done|]. by left.
  - destruct (Z.le_gt_cases (Z.of_nat (length (_history p)) - 1)
                (_history_index p)) as [Hedge|Hin].
    + exists p. split; [apply Hstay; by right; right|]. split; [|done].
      split; [done|]. by right.
    + destruct Hmove as (track & p' & _ & Hnext & Hi' & _ & Hy' & _); [lia|].
      exists p'. split; [done|]. split; [|done].
      unfold history_ok, cursor_valid. rewrite Hy', Hi'.
      split; [done|]. right. lia.
Qed.

(** X9. Back, then forward: from a valid history with the cursor past
    the first entry, [play_previous] followed by
    [play_next_from_history] raises nothing, leaves the history as it
    was, brings the cursor back to where it stood and puts the entry at
    that position at the head of the queue. *)
Theorem previous_then_next_restores_cursor (p : GuildPlayer) :
  history_ok p → (0 < _history_index p)%Z →
  ∃ p1 p2 here,
    play_previous p = Some p1 ∧
    play_next_from_history p1 = Some p2 ∧
    _history_index p1 = (_history_index p - 1)%Z ∧
    _history_index p2 = _history_index p ∧
    _history p2 = _history p ∧
    _history p !! Z.to_nat (_history_index p) = Some here ∧
    head (queue p2) = Some here.
Proof.
  intros Hok Hpos. pose proof Hok as [Hlen Hcur].
  destruct Hcur as [[_ Hi]|Hcur]; [lia|].
  assert (Hprev : ∃ p1, play_previous p = Some p1 ∧
            _history p1 = _history p ∧
            _history_index p1 = (_history_index p - 1)%Z).
  { unfold play_previous.
    destruct (_history p) as [|h0 hs] eqn:Hh; [simpl in Hcur; lia|].
    cbn [list_truthy negb].
    destruct (Z.leb_spec (_history_index p) 0); [lia|]. cbv zeta.
    destruct (lookup_lt_is_Some_2 (h0 :: hs) (Z.to_nat (_history_index p - 1)))
      as [target Ht]; [lia|].
    rewrite Ht. eexists. split; [done|].
    match goal with
    | |- context [skip ?q] => destruct (skip_frame q) as (_ & _ & -> & ->)
    end.
    by destruct (current p) as [c|]; [destruct (seq_in (seq c) (queue p))|]. }
  destruct Hprev as (p1 & Hp1 & Hy1 & Hi1).
  destruct (play_next_from_history_moves p1)
    as (track & p2 & Ht & Hp2 & Hi2 & Hq2 & Hy2 & _).
  { rewrite Hy1, Hi1. lia. }
  exists p1, p2, track. rewrite Hq2, Hy2, Hy1, Hi2, Hi1.
  rewrite Hy1, Hi1 in Ht.
  replace (_history_index p - 1 + 1)%Z with (_history_index p) in * by lia.
  done.
Qed.

Lemma previous_then_next_restores_cursor_witness :
  ∃ p1 p2 here,
    play_previous playing_c = Some p1 ∧
    play_next_from_history p1 = Some p2 ∧
    _history_index p1 = (_history_index playing_c - 1)%Z ∧
    _history_index p2 = _history_index playing_c ∧
    _history p2 = _history playing_c ∧
    _history playing_c !! Z.to_nat (_history_index playing_c) = Some here ∧
    head (queue p2) = Some here.
Proof.
  apply (previous_then_next_restores_cursor playing_c).
  - split; [vm_compute; lia|].
    right. vm_compute. split; [discriminate | reflexivity].
  - reflexivity.
Defined.

(** X10. The history and its cursor stay valid under navigation: after
    any sequence of record, previous and forward operations on a fresh
    player no operation has raised, the history holds at most 5 tracks
    and the cursor is [-1] on an empty history and a valid index
    otherwise. *)
Theorem history_valid_under_navigation
    (g : Guild) (now : Z) (ops : list HistoryOp) :
  ∃ p', run_ops ops (new_player g now) = Some p' ∧
        (length (_history p') ≤ 5)%nat ∧ cursor_valid p'.
Proof.
  assert (H : ∀ ops p, history_ok p →
            ∃ p', run_ops ops p = Some p' ∧ history_ok p').
  { clear ops. induction ops as [|op ops IH]; intros p Hp; [by exists p|].
    cbn [run_ops]. destruct op as [t| |]; cbn [run_op].
    - apply IH. apply (record_history_ok (Some t) p Hp).
    - destruct (play_previous_keeps_history_ok p Hp) as (p1 & -> & Hp1 & _).
      by apply IH.
    - destruct (play_next_keeps_history_ok p Hp) as (p1 & -> & Hp1 & _).
      by apply IH. }
  destruct (H ops _ (new_player_history_ok g now)) as (p' & Hrun & Hlen & Hcur).
  by exists p'.
Qed.

(** ** Starting a track *)

Lemma find_seq_from_lookup s h : ∀ i j,
  find_seq_from i s h = Some j →
  ∃ t, h !! (j - i)%nat = Some t ∧ seq t = s.
Proof.
  induction h as [|t h IH]; intros i j; simpl; [discriminate|].
  destruct (seq_eqb (seq t) s) eqn:E.
  - intros [= <-]. exists t. rewrite Nat.sub_diag. split; [done|].
    unfold seq_eqb in E. by apply bool_decide_eq_true in E.
  - intros Hj. pose proof (find_seq_from_bounds _ _ _ _ Hj) as Hb.
    apply IH in Hj as (t' & Ht' & Hs). exists t'. split; [|done].
    replace (j - i)%nat with (S (j - S i)) by lia. done.
Qed.

(** After a track is recorded the cursor stands on an entry with its
    sequence number. *)
Lemma record_cursor_on_track t p :
  let p' := _update_history_for_track (Some t) p in
  (0 ≤ _history_index p')%Z ∧
  ∃ h, _history p' !! Z.to_nat (_history_index p') = Some h ∧ seq h = seq t.
Proof.
  intros p'. subst p'. unfold _update_history_for_track.
  destruct (find_seq_from 0 (seq t) (_history p)) as [j|] eqn:Hf.
  - apply find_seq_from_lookup in Hf as (h & Hh & Hs).
    cbn [_history _history_index set_history_index]. split; [lia|].
    exists h. rewrite Nat2Z.id. rewrite Nat.sub_0_r in Hh. done.
  - cbv zeta.
    destruct (Nat.ltb_spec 5 (length (_history p ++ [t]))) as [Hgt|Hle];
      cbn [_history _history_index set_history_index set_history];
      rewrite ?length_drop, length_app in *; simpl length in *.
    + split; [lia|]. exists t. split; [|done].
      rewrite lookup_drop.
      replace (length (_history p) + 1 - 5 +
               Z.to_nat (0 `max` (Z.of_nat (length (_history p) + 1 -
                  (length (_history p) + 1 - 5)) - 1)))%nat
        with (length (_history p)) by lia.
      by rewrite lookup_app_r, Nat.sub_diag by lia.
    + split; [lia|]. exists t. split; [|done].
      replace (Z.to_nat (Z.of_nat (length (_history p) + 1) - 1))
        with (length (_history p)) by lia.
      by rewrite lookup_app_r, Nat.sub_diag by lia.
Qed.

Lemma frame_timers p p' :
  forget_panel p' = forget_panel p →
  _idle_task p' = _idle_task p ∧
  _idle_started_mono p' = _idle_started_mono p ∧
  _start_time_utc p' = _start_time_utc p.
Proof.
  intros H. split; [by apply (f_equal _idle_task) in H|].
  split; [by apply (f_equal _idle_started_mono) in H
         | by apply (f_equal _start_time_utc) in H].
Qed.

(** X11. Taking the next track: on an empty queue the [popleft] raises;
    without a voice connection the head of the queue is dropped and the
    history is untouched; with a connection the head becomes the current
    track, the rest stays queued, the history cursor stands on an entry
    with the track's sequence number, a valid history stays valid, the
    idle timer is cancelled, and the start time is the present; what the
    panel update raises there is caught and changes none of this. *)
Theorem start_track_takes_head (cfg : Config) (env : Env) (p : GuildPlayer) :
  (queue p = [] → start_track cfg env p = LoopCrash) ∧
  (∀ t rest, queue p = t :: rest →
     (voice_connected p = false →
      ∃ p', start_track cfg env p = LoopContinue p' ∧
        queue p' = rest ∧ current p' = None ∧
        _history p' = _history p ∧ _history_index p' = _history_index p) ∧
     (voice_connected p = true →
      ∃ p', start_track cfg env p = WaitTrack p' ∧
        queue p' = rest ∧ current p' = Some t ∧
        (0 ≤ _history_index p')%Z ∧
        (∃ h, _history p' !! Z.to_nat (_history_index p') = Some h ∧
              seq h = seq t) ∧
        (history_ok p → history_ok p') ∧
        _idle_task p' = false ∧ _idle_started_mono p' = None ∧
        _start_time_utc p' = Some (utc_now env))).
Proof.
  split; [intros Hq; unfold start_track; by rewrite Hq|].
  intros t rest Hq. unfold start_track. rewrite Hq. cbv zeta.
  change (voice_connected (set_current (Some t) (set_queue rest p)))
    with (voice_connected p).
  split; intros Hc; rewrite Hc; cbn [negb].
  - by eexists.
  - set (p0 := set_last_activity_mono _ _).
    change (current p0) with (Some t).
    destruct (record_cursor_on_track t p0) as (Hpos & h & Hh & Hs).
    assert (Hok : history_ok p → history_ok (_update_history_for_track (Some t) p0)).
    { intros H. by apply record_history_ok. }
    set (p1 := _update_history_for_track (Some t) p0) in *.
    assert (Hq1 : queue p1 = rest ∧ current p1 = Some t).
    { subst p1. unfold _update_history_for_track.
      repeat case_match; done. }
    destruct Hq1 as [Hq1 Hc1].
    destruct (play_ok env).
    + set (p2 := _on_track_start _ _).
      set (p3 := match voice p2 with Some v => _ | None => p2 end).
      assert (H3 : queue p3 = queue p1 ∧ current p3 = current p1 ∧
                   _history p3 = _history p1 ∧
                   _history_index p3 = _history_index p1 ∧
                   _idle_task p3 = false ∧ _idle_started_mono p3 = None ∧
                   _start_time_utc p3 = Some (utc_now env)).
      { subst p3 p2. by destruct (voice _). }
      destruct H3 as (Hq3 & Hc3 & Hy3 & Hi3 & Ht3 & Hs3 & Hu3).
      pose proof (post_or_update_panel_frame (panel env 3) p3) as Hp.
      destruct (post_or_update_panel (panel env 3) p3) as [p4|e p4];
        cbn [player_left] in Hp.
      * eexists. split; [done|].
        pose proof (_bump_panel_if_needed_frame cfg true (mono env 5)
                      (panel env 4) p4) as Hb.
        set (p5 := _bump_panel_if_needed _ _ _ _ _) in *.
        assert (Hf : forget_panel p5 = forget_panel p3) by congruence.
        assert (Hok5 : history_ok p → history_ok (set_ui_task true p5)).
        { intros H. apply Hok in H. unfold history_ok, cursor_valid in *.
          cbn [_history _history_index set_ui_task].
          by rewrite (proj1 (frame_history _ _ Hf)),
            (proj2 (frame_history _ _ Hf)), Hy3, Hi3. }
        cbn [queue current _history _history_index _idle_task
             _idle_started_mono _start_time_utc set_ui_task].
        rewrite (frame_queue _ _ Hf), (frame_current _ _ Hf),
          (proj1 (frame_history _ _ Hf)), (proj2 (frame_history _ _ Hf)).
        destruct (frame_timers _ _ Hf) as (-> & -> & ->).
        rewrite Hq3, Hc3, Hy3, Hi3, Ht3, Hs3, Hu3, Hq1, Hc1.
        split; [done|]. split; [done|]. split; [done|].
        split; [by exists h|]. split; [exact Hok5|]. done.
      * eexists. split; [done|].
        assert (Hok4 : history_ok p → history_ok (set_next_event true p4)).
        { intros H. apply Hok in H. unfold history_ok, cursor_valid in *.
          cbn [_history _history_index set_next_event].
          by rewrite (proj1 (frame_history _ _ Hp)),
            (proj2 (frame_history _ _ Hp)), Hy3, Hi3. }
        cbn [queue current _history _history_index _idle_task
             _idle_started_mono _start_time_utc set_next_event].
        rewrite (frame_queue _ _ Hp), (frame_current _ _ Hp),
          (proj1 (frame_history _ _ Hp)), (proj2 (frame_history _ _ Hp)).
        destruct (frame_timers _ _ Hp) as (-> & -> & ->).
        rewrite Hq3, Hc3, Hy3, Hi3, Ht3, Hs3, Hu3, Hq1, Hc1.
        split; [done|]. split; [done|]. split; [done|].
        split; [by exists h|]. split; [exact Hok4|]. done.
    + eexists. split; [done|].
      cbn [queue current _history _history_index _idle_task
           _idle_started_mono _start_time_utc set_next_event
           _on_track_start _cancel_idle_timer set_last_activity_mono
           set_idle_started_mono set_idle_task set_start_time_utc].
      rewrite Hq1, Hc1.
      split; [done|]. split; [done|]. split; [done|].
      split; [by exists h|]. split; [exact Hok|]. done.
Qed.

Lemma start_track_takes_head_witness :
  let p := set_queue [track_a; track_b]
             (set_voice (Some (in_channel [alice; discbot]))
                (new_player the_guild 0)) in
  ∃ p', start_track default_config still_env p = WaitTrack p' ∧
    queue p' = [track_b] ∧ current p' = Some track_a ∧
    (0 ≤ _history_index p')%Z ∧
    (∃ h, _history p' !! Z.to_nat (_history_index p') = Some h ∧
          seq h = seq track_a) ∧
    (history_ok p → history_ok p') ∧
    _idle_task p' = false ∧ _idle_started_mono p' = None ∧
    _start_time_utc p' = Some (utc_now still_env).
Proof.
  intros p.
  apply (proj2 (proj2 (start_track_takes_head default_config still_env p)
                  track_a [track_b] eq_refl)).
  reflexivity.
Defined.

(** ** The panel: progress bar, upcoming tracks, bumping *)

Lemma clamp01_range x :
  (0 ≤ Qnum (clamp01 x) ≤ Z.pos (Qden (clamp01 x)))%Z.
Proof.
  unfold clamp01.
  destruct (Qle_bool 0 x) eqn:E0.
  - apply Qle_bool_iff in E0. unfold Qle in E0. simpl in E0.
    destruct (Qle_bool x 1) eqn:E1; [|simpl; lia].
    apply Qle_bool_iff in E1. unfold Qle in E1. simpl in E1. lia.
  - change (Qle_bool 0 1) with true. simpl. lia.
Qed.

Lemma progress_filled_range pos dur width :
  (0 ≤ width)%Z → (0 ≤ progress_filled pos dur width ≤ width)%Z.
Proof.
  intros Hw. unfold progress_filled, progress_ratio.
  pose proof (clamp01_range (inject_Z pos / inject_Z dur)) as Hr.
  destruct (clamp01 (inject_Z pos / inject_Z dur)) as [n d].
  unfold Qtrunc. simpl in *. rewrite Pos.mul_1_r.
  rewrite Z.quot_div_nonneg by nia. split.
  - apply Z.div_pos; nia.
  - apply Z.div_le_upper_bound; nia.
Qed.

(** X12. The progress bar: there is none exactly when no track is
    current or the current track has no duration (absent or 0); otherwise
    the bar has 18 cells, between 0 and 18 of them filled, followed by
    the time label. *)
Theorem progress_bar_has_18_cells (now : Z) (p : GuildPlayer) :
  (_progress_bar 18 now p = None ↔
   current p = None ∨
   ∃ c, current p = Some c ∧ (duration c = None ∨ duration c = Some 0%Z)) ∧
  (∀ bar, _progress_bar 18 now p = Some bar →
     ∃ filled pos dur,
       (0 ≤ filled ≤ 18)%Z ∧
       bar = str_repeat BAR_FILLED filled +:+ str_repeat BAR_EMPTY (18 - filled)
             +:+ " " +:+ progress_label pos dur ∧
       (Z.to_nat filled + Z.to_nat (18 - filled) = 18)%nat).
Proof.
  unfold _progress_bar. split.
  - destruct (current p) as [c|]; [|split; [by left|done]].
    destruct (duration c) as [dur|] eqn:Hd.
    + destruct (Z.eqb_spec dur 0) as [->|Hne].
      * split; [|done]. intros _. right. exists c. split; [done|]. by right.
      * split; [done|].
        intros [?|(c' & [= <-] & [?|?])]; [done|congruence|congruence].
    + split; [|done]. intros _. right. exists c. split; [done|]. by left.
  - intros bar.
    destruct (current p) as [c|]; [|done].
    destruct (duration c) as [dur|]; [|done].
    destruct (dur =? 0)%Z; [done|]. intros [= <-].
    pose proof (progress_filled_range (position_or_0 now p) dur 18 ltac:(lia)).
    eexists _, _, _. split; [done|]. split; [reflexivity|]. lia.
Qed.

(** X13. The upcoming tracks of the panel, for a guild with an icon
    (for one without, no embed is built): without queued tracks the
    embed has its three fixed fields and no "Up Next"; with [n] queued
    tracks it has a fourth field, "Up Next", which lists the first
    [min 5 n] of them, in queue order, and, exactly when [n > 5], one more
    line counting the [n - 5] others. *)
Theorem panel_lists_at_most_five_upcoming
    (cfg : Config) (stamp now : Z) (p : GuildPlayer) :
  optstr_truthy (guild_icon (guild p)) = true →
  ∃ e,
    _panel_embed cfg stamp now p = Ok e ∧
    map (fun f => f.1.1) (take 3 (embed_fields e))
    = ["Deck Feed"; "Queue Depth"; "Repeat Mode"] ∧
    let n := length (queue p) in
    (queue p = [] → length (embed_fields e) = 3%nat) ∧
    (queue p ≠ [] →
     ∃ lines,
       drop 3 (embed_fields e) = [("Up Next", str_join NL lines, false)] ∧
       length (embed_fields e) = 4%nat ∧
       take (n `min` 5) lines = upcoming_lines 0 (take 5 (queue p)) ∧
       ((n ≤ 5)%nat → length lines = n) ∧
       ((5 < n)%nat →
        lines = upcoming_lines 0 (take 5 (queue p))
                ++ [GLYPH_ELLIPSIS +:+ "and " +:+ str_int (Z.of_nat n - 5)
                    +:+ " more in queue"])).
Proof.
  intros Hicon.
  destruct (footer_icon_url_cases p) as [(_ & url & _ & E)|(Hno & _)];
    [|congruence].
  unfold _panel_embed. rewrite E. simpl.
  eexists. split; [reflexivity|]. simpl. split; [done|].
  unfold up_next_field. cbv zeta. split.
  - intros ->. done.
  - intros Hq. destruct (queue p) as [|t q] eqn:Eq; [done|].
    change (list_truthy (take 5 (t :: q))) with true. cbv iota.
    pose proof (upcoming_lines_length (take 5 (t :: q)) 0) as Hl.
    rewrite length_take in *.
    destruct (Z.ltb_spec (Z.of_nat (5 `min` length (t :: q)))
                (Z.of_nat (length (t :: q)))) as [Hlt|Hge].
    + eexists. split; [reflexivity|]. split; [done|].
      split; [|split].
      * rewrite take_app_le by lia. rewrite take_ge by lia. done.
      * intros ?. lia.
      * intros ?. by replace (Z.of_nat (5 `min` length (t :: q))) with 5%Z by lia.
    + eexists. split; [reflexivity|]. split; [done|].
      split; [|split].
      * rewrite take_ge by lia. done.
      * intros _. rewrite Hl. lia.
      * intros ?. lia.
Qed.

(** The panel of [the_club] while [A] plays with [B] and [C] queued. *)
Lemma panel_lists_at_most_five_upcoming_witness :
  ∃ e,
    _panel_embed default_config (seconds 50) (seconds 50) club_playing_a
    = Ok e ∧
    map (fun f => f.1.1) (take 3 (embed_fields e))
    = ["Deck Feed"; "Queue Depth"; "Repeat Mode"] ∧
    let n := length (queue club_playing_a) in
    (queue club_playing_a = [] → length (embed_fields e) = 3%nat) ∧
    (queue club_playing_a ≠ [] →
     ∃ lines,
       drop 3 (embed_fields e) = [("Up Next", str_join NL lines, false)] ∧
       length (embed_fields e) = 4%nat ∧
       take (n `min` 5) lines
       = upcoming_lines 0 (take 5 (queue club_playing_a)) ∧
       ((n ≤ 5)%nat → length lines = n) ∧
       ((5 < n)%nat →
        lines = upcoming_lines 0 (take 5 (queue club_playing_a))
                ++ [GLYPH_ELLIPSIS +:+ "and " +:+ str_int (Z.of_nat n - 5)
                    +:+ " more in queue"])).
Proof.
  apply (panel_lists_at_most_five_upcoming default_config (seconds 50)
           (seconds 50) club_playing_a).
  reflexivity.
Defined.

(** The lines of that panel, and of one with seven tracks queued. *)
Example up_next_of_two_and_of_seven :
  up_next_field club_playing_a
  = [("Up Next",
      "`01` [B](https://youtu.be/B)" +:+ NL +:+ "`02` [C](https://youtu.be/C)",
      false)] ∧
  ∃ lines,
    up_next_field
      (set_queue [track_a; track_b; track_c; track_a; track_b; track_c; track_a]
         club_playing_a)
    = [("Up Next", str_join NL lines, false)] ∧
    length lines = 6%nat ∧
    last lines = Some (GLYPH_ELLIPSIS +:+ "and 2 more in queue").
Proof.
  split; [vm_compute; reflexivity|].
  eexists. split; [reflexivity|]. split; vm_compute; reflexivity.
Qed.

(** X14. Bumping the panel is rate-limited: an unforced
    [_bump_panel_if_needed] leaves the player as it is when bumping is
    disabled ([PANEL_BUMP_SECONDS <= 0]), when less than
    [max(PANEL_BUMP_SECONDS, 1)] seconds have passed since the last bump,
    when the channel has no last message, or when the panel is the last
    message of its channel; for a guild without icon every bump, forced
    or not, leaves the player as it is (the embed raises and the
    exception is swallowed); and whenever a bump does change the player,
    the guild has an icon, the panel id is the id of the message just
    sent and the bump time is the present. *)
Theorem bump_panel_rate_limited
    (cfg : Config) (force : bool) (now_mono : Z) (io : PanelIO) (p : GuildPlayer) :
  (force = false →
   (PANEL_BUMP_SECONDS cfg ≤ 0)%Z ∨
   (now_mono - _last_panel_bump_monotonic p
      < Z.max (PANEL_BUMP_SECONDS cfg) 1 * SECOND)%Z ∨
   last_message_id io = None ∨
   last_message_id io = panel_message_id p →
   _bump_panel_if_needed cfg force now_mono io p = p) ∧
  (optstr_truthy (guild_icon (guild p)) = false →
   _bump_panel_if_needed cfg force now_mono io p = p) ∧
  (_bump_panel_if_needed cfg force now_mono io p ≠ p →
   ∃ id, send_result io = Some id ∧
     optstr_truthy (guild_icon (guild p)) = true ∧
     _bump_panel_if_needed cfg force now_mono io p
     = set_last_panel_bump_monotonic now_mono (set_panel_message_id (Some id) p)).
Proof.
  unfold _bump_panel_if_needed. cbv zeta. split; [|split].
  - intros -> Hcase.
    destruct (optint_truthy (panel_message_id p)); [|done]. cbn [negb andb orb].
    destruct (Z.leb_spec (PANEL_BUMP_SECONDS cfg) 0); [done|].
    destruct (_resolve_panel_channel io p); [|done]. cbn [negb].
    destruct (Z.ltb_spec (now_mono - _last_panel_bump_monotonic p)
                (Z.max (PANEL_BUMP_SECONDS cfg) 1 * SECOND)); [done|].
    destruct Hcase as [?|[?|[Hn|He]]]; [lia|lia| |].
    + by rewrite Hn.
    + rewrite He. destruct (panel_message_id p); [|done].
      by rewrite bool_decide_eq_true_2.
  - intros Hno.
    destruct (footer_icon_url_cases p) as [(Hyes & _)|(_ & ->)]; [congruence|].
    repeat (case_match; try done).
  - intros Hne.
    destruct (footer_icon_url_cases p) as [(Hyes & url & _ & E)|(_ & E)];
      rewrite E in *.
    + rewrite Hyes. repeat (case_match; try done); by eexists.
    + repeat (case_match; try done).
Qed.

(** The panel of [the_club] is message 800, bumped when the clock read
    100 seconds; since then message 901 was written to the channel.  One
    second later (45 seconds are asked for) the unforced bump does
    nothing; 50 seconds later it posts the panel anew, as message 900. *)
Lemma bump_panel_rate_limited_witness :
  let p := set_last_panel_bump_monotonic (100 * SECOND)
             (set_panel_message_id (Some 800%Z) club_playing_a) in
  _bump_panel_if_needed default_config false (101 * SECOND) a_panel p = p ∧
  _bump_panel_if_needed default_config false (150 * SECOND) a_panel p
  = set_last_panel_bump_monotonic (150 * SECOND)
      (set_panel_message_id (Some 900%Z) p).
Proof.
  intros p. split.
  - apply (proj1 (bump_panel_rate_limited default_config false
                    (101 * SECOND) a_panel p)).
    + reflexivity.
    + right. left. vm_compute. reflexivity.
  - destruct (proj2 (proj2 (bump_panel_rate_limited default_config false
                              (150 * SECOND) a_panel p)))
      as (id & Hid & _ & ->); [by vm_compute|].
    vm_compute in Hid. by injection Hid as <-.
Defined.

(** In the guild without icon the same bump, forced, changes nothing. *)
Example bump_without_icon_does_nothing :
  let p := set_panel_message_id (Some 800%Z)
             (set_panel_channel_id (Some 77%Z) playing_a) in
  _bump_panel_if_needed default_config true (150 * SECOND) a_panel p = p.
Proof. vm_compute. reflexivity. Qed.

(** X15. The panel operations write nothing but the panel: posting or
    updating, deleting, bumping and the idle update leave every attribute
    of the player other than [panel_message_id] and
    [_last_panel_bump_monotonic] as it was (queue, current track,
    history, voice handle, repeat mode, counters and timers), whether
    they return or raise; without a panel channel, posting returns and
    changes nothing at all. *)
Theorem panel_operations_write_only_the_panel
    (cfg : Config) (force : bool) (now_mono : Z) (io : PanelIO) (p : GuildPlayer) :
  forget_panel (post_or_update_panel io p) = forget_panel p ∧
  forget_panel (delete_panel io p) = forget_panel p ∧
  forget_panel (_bump_panel_if_needed cfg force now_mono io p) = forget_panel p ∧
  forget_panel (idle_panel cfg io p) = forget_panel p ∧
  (_resolve_panel_channel io p = false →
   post_or_update_panel io p = Returns p) ∧
  (∀ p', forget_panel p' = forget_panel p →
     queue p' = queue p ∧ current p' = current p ∧ voice p' = voice p ∧
     _history p' = _history p ∧ _history_index p' = _history_index p ∧
     repeat_mode p' = repeat_mode p ∧ _seq_counter p' = _seq_counter p ∧
     _stopped p' = _stopped p).
Proof.
  split; [apply post_or_update_panel_frame|].
  split; [apply delete_panel_frame|].
  split; [apply _bump_panel_if_needed_frame|].
  split; [apply idle_panel_frame|].
  split.
  - intros H. unfold post_or_update_panel. by rewrite H.
  - intros p' Hf.
    destruct (frame_history _ _ Hf), (frame_repeat_seq _ _ Hf).
    by rewrite (frame_queue _ _ Hf), (frame_current _ _ Hf),
      (frame_voice _ _ Hf), (frame_stopped _ _ Hf).
Qed.

(** ** Resolving a query *)

Lemma string_append_assoc (a b c : string) :
  (a +:+ b) +:+ c = a +:+ (b +:+ c).
Proof.
  induction a as [|x a IH]; [done|].
  change (String x ((a +:+ b) +:+ c) = String x (a +:+ (b +:+ c))).
  by f_equal.
Qed.

Lemma strip_prefix_app pre s : strip_prefix pre (pre +:+ s) = Some s.
Proof.
  induction pre as [|a pre IH]; simpl; [by destruct s|].
  by rewrite Ascii.eqb_refl.
Qed.

Lemma strip_prefix_inv pre : ∀ s rest,
  strip_prefix pre s = Some rest → s = pre +:+ rest.
Proof.
  induction pre as [|a pre IH]; intros s rest; simpl.
  - destruct s; by intros [= <-].
  - destruct s as [|b s]; [done|].
    destruct (Ascii.eqb_spec a b) as [->|]; [|done].
    intros H. by rewrite (IH _ _ H).
Qed.

Lemma take_alnum_spec s :
  ∃ rest, s = take_alnum s +:+ rest ∧ all_alnum (take_alnum s) = true ∧
          no_alnum_ahead rest.
Proof.
  induction s as [|c s (rest & Hs & Hall & Hrest)]; [by exists EmptyString|].
  simpl. destruct (is_alnum c) eqn:E.
  - exists rest.
    split; [change (String c s = String c (take_alnum s +:+ rest)); by f_equal|].
    simpl. by rewrite E, Hall.
  - by exists (String c s).
Qed.

Lemma take_alnum_app ident rest :
  all_alnum ident = true → no_alnum_ahead rest →
  take_alnum (ident +:+ rest) = ident.
Proof.
  intros Hall Hrest. induction ident as [|c ident IH].
  - change (EmptyString +:+ rest) with rest.
    destruct rest as [|c rest]; [done|]. simpl in *. by rewrite Hrest.
  - change (String c ident +:+ rest) with (String c (ident +:+ rest)).
    simpl in *. apply andb_prop in Hall as [-> Hall]. by rewrite IH.
Qed.

Lemma str_truthy_true s : str_truthy s = true ↔ s ≠ EmptyString.
Proof. by destruct s. Qed.

Lemma match_kind_ident_sound s kind ident :
  match_kind_ident s = Some (kind, ident) →
  ∃ rest, s = kind +:+ "/" +:+ ident +:+ rest ∧
    kind ∈ ["track"; "album"; "playlist"] ∧ ident ≠ EmptyString ∧
    all_alnum ident = true ∧ no_alnum_ahead rest.
Proof.
  assert (Hone : ∀ k,
    match strip_prefix (k +:+ "/") s with
    | Some rest =>
        if str_truthy (take_alnum rest) then Some (k, take_alnum rest) else None
    | None => None
    end = Some (kind, ident) →
    k = kind ∧ ∃ rest, s = kind +:+ "/" +:+ ident +:+ rest ∧
      ident ≠ EmptyString ∧ all_alnum ident = true ∧ no_alnum_ahead rest).
  { intros k. destruct (strip_prefix (k +:+ "/") s) as [after|] eqn:E; [|done].
    destruct (str_truthy (take_alnum after)) eqn:Et; [|done].
    intros [= <- <-]. split; [done|].
    apply strip_prefix_inv in E.
    destruct (take_alnum_spec after) as (rest & Hafter & Hall & Hrest).
    exists rest. split.
    - rewrite <- Hafter, E. apply string_append_assoc.
    - split; [by apply str_truthy_true|done]. }
  unfold match_kind_ident.
  pose proof (Hone "track") as Ht. pose proof (Hone "album") as Ha.
  pose proof (Hone "playlist") as Hp.
  destruct (match strip_prefix ("track" +:+ "/") s with
            | Some _ => _ | None => _ end) as [r1|].
  { intros [= ->]. destruct Ht as [<- (rest & ? & ? & ? & ?)]; [done|].
    exists rest. split; [done|]. split; [by repeat constructor|done]. }
  destruct (match strip_prefix ("album" +:+ "/") s with
            | Some _ => _ | None => _ end) as [r2|].
  { intros [= ->]. destruct Ha as [<- (rest & ? & ? & ? & ?)]; [done|].
    exists rest. split; [done|]. split; [by repeat constructor|done]. }
  intros H. destruct Hp as [<- (rest & ? & ? & ? & ?)]; [done|].
  exists rest. split; [done|]. split; [by repeat constructor|done].
Qed.

Lemma match_kind_ident_complete kind ident rest :
  kind ∈ ["track"; "album"; "playlist"] → ident ≠ EmptyString →
  all_alnum ident = true → no_alnum_ahead rest →
  match_kind_ident (kind +:+ "/" +:+ ident +:+ rest) = Some (kind, ident).
Proof.
  intros Hkind Hne Hall Hrest.
  apply str_truthy_true in Hne.
  pose proof (take_alnum_app ident rest Hall Hrest) as Htake.
  unfold match_kind_ident.
  apply elem_of_cons in Hkind as [->|Hkind];
    [|apply elem_of_cons in Hkind as [->|Hkind];
      [|apply list_elem_of_singleton in Hkind as ->]].
  - change ("track" +:+ "/" +:+ ident +:+ rest)
      with (("track" +:+ "/") +:+ ident +:+ rest).
    by rewrite strip_prefix_app, Htake, Hne.
  - change (strip_prefix ("track" +:+ "/") ("album" +:+ "/" +:+ ident +:+ rest))
      with (@None string).
    change ("album" +:+ "/" +:+ ident +:+ rest)
      with (("album" +:+ "/") +:+ ident +:+ rest).
    by rewrite strip_prefix_app, Htake, Hne.
  - change (strip_prefix ("track" +:+ "/") ("playlist" +:+ "/" +:+ ident +:+ rest))
      with (@None string).
    change (strip_prefix ("album" +:+ "/") ("playlist" +:+ "/" +:+ ident +:+ rest))
      with (@None string).
    change ("playlist" +:+ "/" +:+ ident +:+ rest)
      with (("playlist" +:+ "/") +:+ ident +:+ rest).
    by rewrite strip_prefix_app, Htake, Hne.
Qed.

(** X16. The Spotify pattern: [SPOTIFY_URL_RE.match(query)] gives the
    groups [(kind, ident)] exactly when the query begins with [http://] or
    [https://], then [open.spotify.com/], one of [track], [album],
    [playlist], a slash and the non-empty run [ident] of letters and
    digits, which ends where the text ends or goes on with another
    character; whatever follows is ignored. *)
Theorem SPOTIFY_URL_RE_accepts_exactly_links (query kind ident : string) :
  SPOTIFY_URL_RE_match query = Some (kind, ident) ↔
  ∃ scheme rest,
    query = scheme +:+ "open.spotify.com/" +:+ kind +:+ "/" +:+ ident +:+ rest ∧
    scheme ∈ ["https://"; "http://"] ∧
    kind ∈ ["track"; "album"; "playlist"] ∧
    ident ≠ EmptyString ∧ all_alnum ident = true ∧ no_alnum_ahead rest.
Proof.
  split.
  - unfold SPOTIFY_URL_RE_match.
    destruct (strip_prefix "https://" query) as [after|] eqn:Es.
    + destruct (strip_prefix "open.spotify.com/" after) as [after'|] eqn:Eh;
        [|done].
      intros (rest & -> & ? & ? & ? & ?)%match_kind_ident_sound.
      exists "https://", rest.
      apply strip_prefix_inv in Es, Eh. subst. split; [done|].
      split; [by repeat constructor|done].
    + destruct (strip_prefix "http://" query) as [after|] eqn:Es'; [|done].
      destruct (strip_prefix "open.spotify.com/" after) as [after'|] eqn:Eh;
        [|done].
      intros (rest & -> & ? & ? & ? & ?)%match_kind_ident_sound.
      exists "http://", rest.
      apply strip_prefix_inv in Es', Eh. subst. split; [done|].
      split; [by repeat constructor|done].
  - intros (scheme & rest & -> & Hscheme & Hkind & Hne & Hall & Hrest).
    pose proof (match_kind_ident_complete kind ident rest Hkind Hne Hall Hrest)
      as Hm.
    unfold SPOTIFY_URL_RE_match.
    apply elem_of_cons in Hscheme as [->|Hscheme];
      [|apply list_elem_of_singleton in Hscheme as ->].
    + rewrite strip_prefix_app.
      change ("open.spotify.com/" +:+ kind +:+ "/" +:+ ident +:+ rest)
        with ("open.spotify.com/" +:+ (kind +:+ "/" +:+ ident +:+ rest)).
      by rewrite strip_prefix_app.
    + change (strip_prefix "https://" ("http://" +:+ _)) with (@None string).
      rewrite strip_prefix_app.
      by rewrite strip_prefix_app.
Qed.

Lemma omap_length_le {A B} (f : A → option B) (l : list A) :
  (length (omap f l) ≤ length l)%nat.
Proof.
  induction l as [|a l IH]; simpl; [done|].
  change (list_omap A B f l) with (omap f l).
  destruct (f a); simpl; lia.
Qed.

Lemma playlist_loop_spec cfg r opts pid entries : ∀ i,
  playlist_loop cfg r opts pid i entries
  = omap (playlist_track r opts pid) (take (Z.to_nat (PLAYLIST_MAX cfg - i)) entries).
Proof.
  induction entries as [|entry entries IH]; intros i; simpl.
  - by rewrite take_nil.
  - destruct (Z.leb_spec (PLAYLIST_MAX cfg) i) as [Hge|Hlt].
    + by replace (Z.to_nat (PLAYLIST_MAX cfg - i)) with 0%nat by lia.
    + replace (Z.to_nat (PLAYLIST_MAX cfg - i))
        with (S (Z.to_nat (PLAYLIST_MAX cfg - (i + 1)))) by lia.
      rewrite firstn_cons. simpl. unfold playlist_track at 1.
      destruct (_normalize_url pid entry) as [page_url|]; [|apply IH].
      destruct (yt_extract r opts page_url); by rewrite IH.
Qed.

(** X17. A YouTube playlist: [yt_extract_playlist] returns tracks exactly
    when the flat extraction gives an info and one of its first
    [PLAYLIST_MAX] entries is playable; the tracks are then those of the
    first [PLAYLIST_MAX] entries that have a URL and whose extraction
    succeeds, in playlist order, so never more than [PLAYLIST_MAX] nor
    than the playlist has entries, and never none. *)
Theorem yt_playlist_gives_playable_entries_up_to_cap
    (cfg : Config) (r : Resolver) (opts : YtdlOpts) (url : string)
    (out : list Track) :
  yt_extract_playlist cfg r opts url = Ok out ↔
  ∃ info,
    yt_playlist_info r opts url = Ok (Some info) ∧
    out = playable cfg r opts info ∧ out ≠ [] ∧
    (length out ≤ Z.to_nat (PLAYLIST_MAX cfg))%nat ∧
    (length out ≤ length (info_entries info))%nat.
Proof.
  unfold yt_extract_playlist, playable.
  destruct (yt_playlist_info r opts url) as [[info|]|msg]; simpl.
  - rewrite playlist_loop_spec, Z.sub_0_r.
    set (out' := omap _ _).
    assert (Hlen : (length out' ≤ Z.to_nat (PLAYLIST_MAX cfg))%nat ∧
                   (length out' ≤ length (info_entries info))%nat).
    { subst out'. split.
      - etrans; [apply omap_length_le|]. rewrite length_take. lia.
      - etrans; [apply omap_length_le|]. rewrite length_take. lia. }
    split.
    + destruct (list_truthy out') eqn:E; [|done]. intros [= <-].
      exists info. split; [done|]. split; [done|].
      split; [by destruct out'|done].
    + intros (info' & [= <-] & -> & Hne & _). fold out' in Hne |- *.
      by destruct out'.
  - split; [done|]. by intros (info & ? & _).
  - split; [done|]. by intros (info & ? & _).
Qed.

(** ** Spotify: the cap as an upper bound *)

Section CatalogBound.
Context {Item : Type}.
Variable cfg : Config.
Variable r : Resolver.
Variable opts : YtdlOpts.
Variable fetch : Z → Z → Exc (list Item).
Variable query_of : Item → Exc (option string).

Lemma catalog_page_bound items : ∀ (count : Z) (results : list Track)
    broke count' results',
  below_cap cfg count results →
  catalog_page cfg r opts query_of items count results
  = Ok (broke, count', results') →
  (length results' ≤ spotify_bound cfg)%nat ∧
  (broke = false → below_cap cfg count' results').
Proof.
  unfold spotify_bound.
  induction items as [|it items IH];
    intros count results broke count' results' [Hc Hlt]; simpl.
  - intros [= <- <- <-]. split; [|done].
    destruct Hlt as [?| ->]; simpl; lia.
  - destruct (query_of it) as [[q|]|msg]; simpl; [|by apply IH|done].
    destruct (yt_search_first r opts q) as [t|msg]; simpl; [|done].
    destruct (Z.leb_spec (SPOTIFY_MAX cfg) (count + 1)) as [Hge|Hless].
    + intros [= <- <- <-]. split; [|done].
      rewrite length_app. simpl.
      destruct Hlt as [?| ->]; simpl in *; lia.
    + apply IH. split; [rewrite length_app; simpl; lia | left; lia].
Qed.

Lemma catalog_pages_bound (limit : Z) : ∀ fuel fetched offset count results out,
  below_cap cfg count results →
  catalog_pages cfg r opts fetch query_of fuel limit fetched offset count results
  = Some (Ok out) →
  (length out ≤ spotify_bound cfg)%nat.
Proof.
  induction fuel as [|fuel IH]; intros fetched offset count results out Hinv;
    simpl; [done|].
  assert (Hres : (length results ≤ spotify_bound cfg)%nat).
  { unfold spotify_bound. destruct Hinv as [Hc [?| ->]]; simpl; lia. }
  destruct (fetch limit offset) as [items|msg]; [|done].
  destruct (list_truthy items); simpl; [|by intros [= <-]].
  destruct (catalog_page cfg r opts query_of items count results)
    as [[[broke count'] results']|msg] eqn:E; [|done].
  destruct (catalog_page_bound _ _ _ _ _ _ Hinv E) as [Hlen Hnext].
  destruct broke; [by intros [= <-]|].
  destruct (_ <=? _)%Z; [by intros [= <-]|].
  destruct (_ <? _)%Z; [by intros [= <-]|].
  apply IH. by apply Hnext.
Qed.

Lemma catalog_tracks_bound (limit : Z) (out : list Track) :
  catalog_tracks cfg r opts fetch query_of limit = Ok out →
  (length out ≤ spotify_bound cfg)%nat.
Proof.
  unfold catalog_tracks.
  destruct (catalog_pages _ _ _ _ _ _ _ _ _ _ _) as [[out'|]|] eqn:E; [|done..].
  intros [= <-]. eapply catalog_pages_bound; [|exact E].
  split; [done | by right].
Qed.
End CatalogBound.

(** X18. A Spotify link never expands beyond the cap: whatever the
    Spotify client and the searches answer, a successful [enqueue] of a
    track, album or playlist link admits at most [max(SPOTIFY_MAX, 1)]
    tracks, and the queue grows by that many at most; a track link gives
    at most one. *)
Theorem spotify_link_never_exceeds_cap
    (cfg : Config) (r : Resolver) (now_mono : Z) (io : PanelIO)
    (query kind ident : string) (requester : option Member)
    (p p' : GuildPlayer) (good : list Track) :
  SPOTIFY_URL_RE_match query = Some (kind, ident) →
  enqueue cfg r now_mono io query requester p = (Ok good, p') →
  (length good ≤ spotify_bound cfg)%nat ∧
  (length (queue p') ≤ length (queue p) + spotify_bound cfg)%nat ∧
  (kind = "track" → (length good ≤ 1)%nat).
Proof.
  intros Hm Henq.
  apply enqueue_ok_inv in Henq as (tracks & p1 & Hres & E & ->).
  destruct (ytdl_opts_player cfg r p) as [Hp0 _].
  destruct (enqueue_loop_spec _ _ _ _ _ E) as (Ht & _ & _ & Hq & _).
  assert (Hq0 : queue (ytdl_opts cfg r p).2 = queue p) by (by rewrite Hp0).
  rewrite Hq0 in Hq.
  assert (Hgt : (length good ≤ length tracks)%nat).
  { apply (f_equal length) in Ht. rewrite !length_map in Ht. rewrite Ht.
    apply length_filter. }
  assert (Hqueue : queue (if list_truthy good
                          then _cancel_idle_timer
                                 (set_last_activity_mono now_mono
                                    (ensure_loop (set_queue_event true p1)))
                          else p1) = queue p1).
  { destruct (list_truthy good); [|done].
    unfold ensure_loop. by destruct (loop_task _). }
  rewrite Hqueue, Hq, length_app.
  unfold create_tracks_from_query in Hres. rewrite Hm in Hres.
  destruct (make_spotify r) as [sp|]; [|done].
  assert (Hone : (1 ≤ spotify_bound cfg)%nat) by (unfold spotify_bound; lia).
  destruct (String.eqb_spec kind "track") as [->|Hk1].
  - destruct (sp_track sp ident) as [t|]; [|done]. simpl in Hres.
    destruct (first_artist t); [|done]. simpl in Hres.
    destruct (yt_search_first _ _ _); [|done]. simpl in Hres.
    injection Hres as <-. simpl in Hgt. lia.
  - assert (Hlen : (length tracks ≤ spotify_bound cfg)%nat).
    { destruct (String.eqb kind "album");
        [by eapply catalog_tracks_bound|].
      destruct (String.eqb kind "playlist");
        [by eapply catalog_tracks_bound|].
      injection Hres as <-. simpl. lia. }
    split; [lia|]. split; [lia|done].
Qed.

Lemma spotify_link_never_exceeds_cap_witness :
  let res := enqueue default_config (finding (album_client album_120)) 7
               no_panel "https://open.spotify.com/album/abc123"
               (Some alice) (new_player the_guild 0) in
  (length (tracks_of res.1) ≤ spotify_bound default_config)%nat ∧
  (length (queue res.2)
   ≤ length (queue (new_player the_guild 0)) + spotify_bound default_config)%nat ∧
  ("album" = "track" → (length (tracks_of res.1) ≤ 1)%nat).
Proof.
  intros res.
  apply (spotify_link_never_exceeds_cap default_config
           (finding (album_client album_120)) 7 no_panel
           "https://open.spotify.com/album/abc123" "album" "abc123"
           (Some alice) (new_player the_guild 0) res.2 (tracks_of res.1)).
  - vm_compute. reflexivity.
  - vm_compute. reflexivity.
Defined.

(** ** The cookies handed to yt-dlp *)

(** X19. The cookie source of [ytdl_opts] follows the precedence
    browser, file, inline: a configured browser is the only source; else
    a configured file; else, with inline cookies, the temporary file of
    the player, created on first use and reused afterwards; and the
    options never name a browser and a file at once. *)
Theorem ytdl_opts_one_cookie_source
    (cfg : Config) (r : Resolver) (p : GuildPlayer) :
  let opts := (ytdl_opts cfg r p).1 in
  let p' := (ytdl_opts cfg r p).2 in
  (cookiesfrombrowser opts = None ∨ cookiefile opts = None) ∧
  (str_truthy (YTDLP_COOKIES_FROM_BROWSER cfg) = true →
   cookiesfrombrowser opts = Some (YTDLP_COOKIES_FROM_BROWSER cfg) ∧ p' = p) ∧
  (str_truthy (YTDLP_COOKIES_FROM_BROWSER cfg) = false →
   cookiesfrombrowser opts = None ∧
   (str_truthy (YTDLP_COOKIES_FILE cfg) = true →
    cookiefile opts = Some (YTDLP_COOKIES_FILE cfg) ∧ p' = p) ∧
   (str_truthy (YTDLP_COOKIES_FILE cfg) = false →
    (str_truthy (YTDLP_COOKIES_B64 cfg) = false →
     cookiefile opts = None ∧ p' = p) ∧
    (str_truthy (YTDLP_COOKIES_B64 cfg) = true →
     cookiefile opts = _temp_cookie_path p' ∧
     _temp_cookie_path p'
     = match _temp_cookie_path p with
       | Some path => Some path
       | None => write_temp_cookie_file r
       end ∧
     ytdl_opts cfg r p' = (opts, p')))).
Proof.
  unfold ytdl_opts, BASE_YTDL_OPTS, _ensure_temp_cookie_file.
  destruct (str_truthy (YTDLP_COOKIES_FROM_BROWSER cfg)) eqn:Ef,
    (str_truthy (YTDLP_COOKIES_FILE cfg)) eqn:Ec,
    (str_truthy (YTDLP_COOKIES_B64 cfg)) eqn:Eb; simpl;
    try naive_solver.
  destruct (_temp_cookie_path p) as [path|] eqn:Ep.
  - repeat (rewrite ?Ep; simpl). naive_solver.
  - destruct (write_temp_cookie_file r) as [path|] eqn:Ew; simpl.
    + naive_solver.
    + repeat (rewrite ?Ep, ?Ew; simpl). naive_solver.
Qed.

(** ** Extraction *)

Lemma retry_loop_spec {A} (attempt : nat → Exc A) (n : nat) :
  ∀ (i : nat) last res calls,
    retry_loop attempt n i last = (res, calls) →
    (i ≤ calls ≤ i + n)%nat ∧
    (∀ j, (i ≤ j)%nat → (S j < calls)%nat → ∃ e, attempt j = Raise e) ∧
    ((0 < n)%nat → (i < calls)%nat ∧ res = attempt (calls - 1)%nat) ∧
    ((∃ e, res = Raise e) → calls = (i + n)%nat) ∧
    (n = 0%nat →
     res = match last with
           | Some e => Raise e
           | None => Raise "exceptions must derive from BaseException"
           end).
Proof.
  induction n as [|n IH]; intros i last res calls; simpl.
  - intros [= <- <-]. split; [lia|]. split; [intros; lia|]. split; [lia|].
    split; [intros _; lia | done].
  - destruct (attempt i) as [a|e] eqn:Ea.
    + intros [= <- <-]. split; [lia|]. split; [intros; lia|].
      split; [|split; [by intros [e ?] | done]].
      intros _. split; [lia|]. by replace (S i - 1)%nat with i by lia.
    + intros Hloop. apply IH in Hloop as (Hc & Hprev & Hres & Hfail & Hlast).
      split; [lia|]. split.
      * intros j Hj Hlt. destruct (decide (j = i)) as [->|Hne]; [by exists e|].
        apply Hprev; lia.
      * split; [|split; [intros He; rewrite (Hfail He); lia | done]].
        intros _. destruct n as [|n].
        -- rewrite Hlast by done. assert (calls = S i) as -> by lia.
           replace (S i - 1)%nat with i by lia. rewrite Ea.
           split; [lia|done].
        -- destruct Hres as [? ->]; [lia|]. split; [lia|done].
Qed.

(** X20. Extraction with retries: with [tries >= 0] the extraction is
    called at least once and at most [tries + 1] times, every call before
    the last one raised, and the result is that of the last call: the
    first success, or the error of the last attempt once all
    [tries + 1] failed.  With [tries < 0] nothing is called and the
    function ends in a [TypeError]. *)
Theorem extract_with_retries_first_success {A : Type}
    (max_retries : Z) (attempt : nat → Exc A) (tries : option Z)
    (res : Exc A) (calls : nat) :
  _extract_with_retries max_retries attempt tries = (res, calls) →
  let n := default max_retries tries in
  ((n < 0)%Z →
   calls = 0%nat ∧ res = Raise "exceptions must derive from BaseException") ∧
  ((0 ≤ n)%Z →
   (1 ≤ calls ≤ Z.to_nat n + 1)%nat ∧
   res = attempt (calls - 1)%nat ∧
   (∀ j, (S j < calls)%nat → ∃ e, attempt j = Raise e) ∧
   ((∃ e, res = Raise e) → calls = (Z.to_nat n + 1)%nat)).
Proof.
  intros Hloop n. unfold _extract_with_retries in Hloop.
  assert (Hn : n = match tries with None => max_retries | Some t => t end)
    by (by destruct tries).
  rewrite <- Hn in Hloop. split.
  - intros Hneg. replace (Z.to_nat (n + 1)) with 0%nat in Hloop by lia.
    simpl in Hloop. by injection Hloop as <- <-.
  - intros Hpos.
    replace (Z.to_nat (n + 1)) with (S (Z.to_nat n)) in Hloop by lia.
    apply retry_loop_spec in Hloop as (Hc & Hprev & Hres & Hfail & _).
    destruct Hres as [Hlt ->]; [lia|].
    split; [lia|]. split; [done|]. split.
    + intros j Hj. apply Hprev; lia.
    + intros He. rewrite (Hfail He). lia.
Qed.

Lemma extract_with_retries_first_success_witness :
  let attempt := fun i : nat => if (i <? 2)%nat then Raise "timed out" else Ok 7%Z in
  (1 ≤ 3 ≤ Z.to_nat 2 + 1)%nat ∧
  Ok 7%Z = attempt (3 - 1)%nat ∧
  (∀ j, (S j < 3)%nat → ∃ e, attempt j = Raise e) ∧
  ((∃ e, Ok 7%Z = Raise e) → 3%nat = (Z.to_nat 2 + 1)%nat).
Proof.
  intros attempt.
  apply (proj2 (extract_with_retries_first_success 2 attempt None (Ok 7%Z) 3
                  ltac:(reflexivity))).
  simpl. lia.
Defined.

Lemma optstr_truthy_true x :
  optstr_truthy x = true ↔ ∃ s, x = Some s ∧ s ≠ EmptyString.
Proof.
  destruct x as [s|]; simpl.
  - rewrite str_truthy_true. split; [by exists s|]. by intros (? & [= <-] & ?).
  - split; [done|]. by intros (? & ? & _).
Qed.

(** A track [yt_extract] returns has a stream. *)
Lemma yt_extract_info_usable sort_error extract url t :
  yt_extract_info sort_error extract url = Ok t → usable t.
Proof.
  unfold yt_extract_info, usable.
  destruct (extract false url) as [x|]; [|done]. simpl.
  destruct (first_entry x) as [[info|]|]; [|done..]. simpl.
  match goal with
  | |- context [mbind _ ?m] => destruct m as [[s|]|]; [|done..]
  end. simpl.
  destruct (str_truthy s) eqn:Es; [|done]. simpl.
  destruct (pick_thumbnail _ _); [|done]. simpl. by intros [= <-].
Qed.

(** X21. The track of [yt_extract]: a returned track always has a
    non-empty stream URL and a non-empty title, no sequence number and no
    requester; title, page URL and duration are those of the first
    extraction (the page URL falling back to the requested one); the
    stream is that of the first extraction when it has one, and only
    otherwise that of the extraction with the web client, whose answer
    is not consulted when the first has a stream. *)
Theorem yt_extract_track_has_stream
    (sort_error : list Thumb → string)
    (extract : bool → string → Exc Extracted) (url : string) (t : Track) :
  yt_extract_info sort_error extract url = Ok t →
  usable t ∧ seq t = None ∧ requested_by t = None ∧ title t ≠ EmptyString ∧
  (url ≠ EmptyString → webpage_url t ≠ EmptyString) ∧
  ∃ x info,
    extract false url = Ok x ∧ first_entry x = Ok (Some info) ∧
    duration t = media_duration info ∧
    (optstr_truthy (_pick_stream info) = true →
     _pick_stream info = Some (stream_url t) ∧
     ∀ extract' : bool → string → Exc Extracted,
       extract' false url = extract false url →
       yt_extract_info sort_error extract' url = Ok t) ∧
    (optstr_truthy (_pick_stream info) = false →
     ∃ x2 info2,
       extract true url = Ok x2 ∧ first_entry x2 = Ok (Some info2) ∧
       _pick_stream info2 = Some (stream_url t)).
Proof.
  intros Hok. split; [by eapply yt_extract_info_usable|].
  pose proof Hok as Hok'. unfold yt_extract_info in Hok'.
  destruct (extract false url) as [x|] eqn:Ex; [|done]. simpl in Hok'.
  destruct (first_entry x) as [[info|]|] eqn:Ei; [|done..]. simpl in Hok'.
  destruct (optstr_truthy (_pick_stream info)) eqn:Ep; simpl in Hok'.
  - pose proof Ep as (s & Es & Hs%str_truthy_true)%optstr_truthy_true.
    rewrite Es in Hok'. rewrite Hs in Hok'. simpl in Hok'.
    destruct (pick_thumbnail _ _) as [thumb|] eqn:Et; [|done]. simpl in Hok'.
    injection Hok' as <-. simpl.
    split; [done|]. split; [done|].
    split; [by destruct (media_title info) as [[|??]|]|].
    split; [by destruct (media_webpage_url info) as [[|??]|]|].
    exists x, info. split; [done|]. split; [done|]. split; [done|].
    split; [|intros ?; congruence]. intros _. split; [done|].
    intros extract' He'. unfold yt_extract_info. rewrite He'. simpl.
    rewrite Ei. simpl. rewrite Ep. simpl. rewrite Es, Hs. simpl.
    by rewrite Et.
  - destruct (extract true url) as [x2|] eqn:Ex2; [|done]. simpl in Hok'.
    destruct (first_entry x2) as [[info2|]|] eqn:Ei2; [|done..].
    simpl in Hok'.
    destruct (_pick_stream info2) as [s|] eqn:Es; [|done].
    destruct (str_truthy s) eqn:Et; [|done]. simpl in Hok'.
    destruct (pick_thumbnail _ _) as [thumb|]; [|done]. simpl in Hok'.
    injection Hok' as <-. simpl.
    split; [done|]. split; [done|].
    split; [by destruct (media_title info) as [[|??]|]|].
    split; [by destruct (media_webpage_url info) as [[|??]|]|].
    exists x, info. split; [done|]. split; [done|]. split; [done|].
    split; [intros ?; congruence|]. intros _. by exists x2, info2.
Qed.

Lemma yt_extract_track_has_stream_witness :
  usable the_song ∧ seq the_song = None ∧ requested_by the_song = None ∧
  title the_song ≠ EmptyString ∧
  ("https://youtu.be/x" ≠ EmptyString → webpage_url the_song ≠ EmptyString) ∧
  ∃ x info,
    answering false "https://youtu.be/x" = Ok x ∧
    first_entry x = Ok (Some info) ∧
    duration the_song = media_duration info ∧
    (optstr_truthy (_pick_stream info) = true →
     _pick_stream info = Some (stream_url the_song) ∧
     ∀ extract' : bool → string → Exc Extracted,
       extract' false "https://youtu.be/x" = answering false "https://youtu.be/x" →
       yt_extract_info no_height_error extract' "https://youtu.be/x"
       = Ok the_song) ∧
    (optstr_truthy (_pick_stream info) = false →
     ∃ x2 info2,
       answering true "https://youtu.be/x" = Ok x2 ∧
       first_entry x2 = Ok (Some info2) ∧
       _pick_stream info2 = Some (stream_url the_song)).
Proof.
  apply (yt_extract_track_has_stream no_height_error answering
           "https://youtu.be/x" the_song).
  vm_compute. reflexivity.
Defined.

(** ** Everything resolved is admitted *)

Section ResolvedTracks.
Variable cfg : Config.
Variable r : Resolver.
Variable opts : YtdlOpts.
Variable P : Track → Prop.
Hypothesis extracted : ∀ url t, yt_extract r opts url = Ok t → P t.

Lemma catalog_page_all {Item} (query_of : Item → Exc (option string)) items :
  ∀ count results broke count' results',
    Forall P results →
    catalog_page cfg r opts query_of items count results
    = Ok (broke, count', results') →
    Forall P results'.
Proof.
  induction items as [|it items IH]; intros count results broke count' results' HP;
    simpl.
  - by intros [= <- <- <-].
  - destruct (query_of it) as [[q|]|]; simpl; [|by apply IH|done].
    destruct (yt_search_first r opts q) as [t|] eqn:Et; simpl; [|done].
    assert (HP' : Forall P (results ++ [t])).
    { apply Forall_app. split; [done|]. constructor; [|done].
      by apply (extracted _ _ Et). }
    destruct (_ <=? _)%Z; [by intros [= <- <- <-]|]. by apply IH.
Qed.

Lemma catalog_pages_all {Item} (fetch : Z → Z → Exc (list Item))
    (query_of : Item → Exc (option string)) (limit : Z) :
  ∀ fuel fetched offset count results out,
    Forall P results →
    catalog_pages cfg r opts fetch query_of fuel limit fetched offset count results
    = Some (Ok out) →
    Forall P out.
Proof.
  induction fuel as [|fuel IH]; intros fetched offset count results out HP;
    simpl; [done|].
  destruct (fetch limit offset) as [items|]; [|done].
  destruct (list_truthy items); simpl; [|by intros [= <-]].
  destruct (catalog_page cfg r opts query_of items count results)
    as [[[broke count'] results']|] eqn:E; [|done].
  pose proof (catalog_page_all _ _ _ _ _ _ _ HP E) as HP'.
  destruct broke; [by intros [= <-]|].
  destruct (_ <=? _)%Z; [by intros [= <-]|].
  destruct (_ <? _)%Z; [by intros [= <-]|].
  by apply IH.
Qed.

Lemma playlist_loop_all pid entries : ∀ i,
  Forall P (playlist_loop cfg r opts pid i entries).
Proof.
  induction entries as [|entry entries IH]; intros i; simpl; [done|].
  destruct (_ <=? _)%Z; [done|].
  destruct (_normalize_url pid entry) as [page_url|]; [|apply IH].
  destruct (yt_extract r opts page_url) as [t|] eqn:Et; [|apply IH].
  constructor; [by apply (extracted _ _ Et) | apply IH].
Qed.

Lemma create_tracks_from_query_all query tracks :
  create_tracks_from_query cfg r opts query = Ok tracks →
  Forall P tracks ∧ (SPOTIFY_URL_RE_match query = None → tracks ≠ []).
Proof.
  unfold create_tracks_from_query.
  destruct (SPOTIFY_URL_RE_match query) as [[kind ident]|].
  - intros Hres. split; [|done].
    destruct (make_spotify r) as [sp|]; [|done].
    destruct (String.eqb kind "track").
    { destruct (sp_track sp ident) as [t|]; [|done]. simpl in Hres.
      destruct (first_artist t); [|done]. simpl in Hres.
      destruct (yt_search_first _ _ _) as [tr|] eqn:Et; [|done].
      simpl in Hres. injection Hres as <-.
      constructor; [by apply (extracted _ _ Et) | done]. }
    assert (Hcat : ∀ Item (fetch : Z → Z → Exc (list Item)) query_of limit,
              catalog_tracks cfg r opts fetch query_of limit = Ok tracks →
              Forall P tracks).
    { intros Item fetch query_of limit. unfold catalog_tracks.
      destruct (catalog_pages _ _ _ _ _ _ _ _ _ _ _) as [[out|]|] eqn:E;
        [|done..].
      intros [= <-]. by eapply catalog_pages_all; [|exact E]. }
    destruct (String.eqb kind "album"); [by eapply Hcat|].
    destruct (String.eqb kind "playlist"); [by eapply Hcat|].
    by injection Hres as <-.
  - destruct (_is_yt_playlist query).
    + unfold yt_extract_playlist.
      destruct (yt_playlist_info r opts query) as [[info|]|]; simpl; [|done..].
      pose proof (playlist_loop_all (default EmptyString (info_id info))
                    (info_entries info) 0) as Hall.
      destruct (playlist_loop _ _ _ _ _ _) as [|t out]; [done|].
      by intros [= <-].
    + destruct (_ || _).
      * destruct (yt_extract r opts query) as [t|] eqn:Et; [|done]. simpl.
        intros [= <-]. split; [|done].
        constructor; [by apply (extracted _ _ Et) | done].
      * destruct (yt_search_first r opts query) as [t|] eqn:Et; [|done]. simpl.
        intros [= <-].  split; [|done].
        constructor; [by apply (extracted _ _ Et) | done].
Qed.
End ResolvedTracks.

(** X22. With [yt_extract] as the resolver, [enqueue] drops nothing:
    every track the resolution of the query returns has a stream, so a
    successful [enqueue] admits all of them, in order; for a query that
    is not a Spotify link that is at least one track, and the loop is
    woken for it. *)
Theorem enqueue_admits_all_extracted
    (cfg : Config) (sort_error : list Thumb → string) (sp : option Spotify)
    (extract : YtdlOpts → bool → string → Exc Extracted)
    (playlist_info : YtdlOpts → string → Exc (option YtPlaylistInfo))
    (cookie_file : option string)
    (now_mono : Z) (io : PanelIO) (query : string)
    (requester : option Member) (p p' : GuildPlayer) (good : list Track) :
  let r := extracting sort_error sp extract playlist_info cookie_file in
  enqueue cfg r now_mono io query requester p = (Ok good, p') →
  ∃ tracks,
    create_tracks_from_query cfg r (ytdl_opts cfg r p).1 query = Ok tracks ∧
    map title good = map title tracks ∧
    map stream_url good = map stream_url tracks ∧
    length good = length tracks ∧
    queue p' = queue p ++ good ∧
    (SPOTIFY_URL_RE_match query = None →
     good ≠ [] ∧ queue_event p' = true ∧ loop_task p' = true).
Proof.
  intros r Henq.
  apply enqueue_ok_inv in Henq as (tracks & p1 & Hres & E & ->).
  destruct (ytdl_opts_player cfg r p) as [Hp0 _].
  destruct (enqueue_loop_spec _ _ _ _ _ E) as (Ht & Hs & _ & Hq & _).
  assert (Hq0 : queue (ytdl_opts cfg r p).2 = queue p) by (by rewrite Hp0).
  rewrite Hq0 in Hq.
  destruct (create_tracks_from_query_all cfg r (ytdl_opts cfg r p).1 usable
              (fun url t H => yt_extract_info_usable _ _ _ _ H) query tracks Hres)
    as [Hall Hne].
  assert (Hfilter : filter usable tracks = tracks).
  { clear -Hall. induction Hall as [|t tracks Ht _ IH]; [done|].
    rewrite filter_cons. destruct (decide (usable t)); [|done]. by rewrite IH. }
  rewrite Hfilter in Ht, Hs.
  assert (Hlen : length good = length tracks).
  { apply (f_equal length) in Ht. by rewrite !length_map in Ht. }
  exists tracks. split; [done|]. split; [done|]. split; [done|].
  split; [done|]. split.
  - destruct (list_truthy good); [|done].
    unfold ensure_loop. by destruct (loop_task _).
  - intros Hm. specialize (Hne Hm).
    assert (Hgood : good ≠ []) by (destruct good, tracks; done).
    split; [done|]. destruct good as [|g good]; [done|]. simpl.
    unfold ensure_loop.
    destruct (loop_task (set_queue_event true p1)) eqn:El;
      (split; [reflexivity | assumption || reflexivity]).
Qed.

Lemma enqueue_admits_all_extracted_witness :
  let good := tracks_of song_extracted_and_enqueued.1 in
  let p' := song_extracted_and_enqueued.2 in
  ∃ tracks,
    create_tracks_from_query default_config extracting_songs
      (ytdl_opts default_config extracting_songs (new_player the_guild 0)).1
      "some song" = Ok tracks ∧
    map title good = map title tracks ∧
    map stream_url good = map stream_url tracks ∧
    length good = length tracks ∧
    queue p' = queue (new_player the_guild 0) ++ good ∧
    (SPOTIFY_URL_RE_match "some song" = None →
     good ≠ [] ∧ queue_event p' = true ∧ loop_task p' = true).
Proof.
  intros good p'.
  apply (enqueue_admits_all_extracted default_config no_height_error None
           (fun _ => answering)
           (fun _ _ => Ok None) None 7 no_panel "some song" (Some alice)
           (new_player the_guild 0) p' good).
  vm_compute. reflexivity.
Defined.

(** ** The audio source *)

(** X23. The bitrate handed to ffmpeg: [_ffmpeg_source] fails exactly
    without a current track; otherwise it streams the URL of the current
    track at a bitrate between 8 and 512 kbit/s, which is the channel's
    bitrate in kbit/s (128 without a channel) clamped to that range and,
    when [MUSIC_OPUS_BITRATE_MAX] holds an integer, never above that cap
    clamped to the same range. *)
Theorem ffmpeg_bitrate_within_opus_range
    (int_of : string → option Z) (cap_env : option string) (p : GuildPlayer) :
  (_ffmpeg_source int_of cap_env p = None ↔ current p = None) ∧
  (∀ src, _ffmpeg_source int_of cap_env p = Some src →
     (∃ c, current p = Some c ∧ source_url src = stream_url c) ∧
     (8 ≤ source_bitrate src ≤ 512)%Z ∧
     (∀ s n, cap_env = Some s → s ≠ EmptyString → int_of s = Some n →
        (source_bitrate src ≤ clamp 8 512 n)%Z) ∧
     (cap_env = None ∨ cap_env = Some EmptyString ∨
      (∃ s, cap_env = Some s ∧ int_of s = None) →
      source_bitrate src
      = clamp 8 512
          (match voice p with
           | Some v => match channel v with
                       | Some ch => bitrate ch / 1000
                       | None => 128
                       end
           | None => 128
           end)%Z)).
Proof.
  unfold _ffmpeg_source, clamp. cbv zeta. split.
  - by destruct (current p).
  - intros src. destruct (current p) as [c|]; [|done]. intros [= <-]. simpl.
    split; [by exists c|]. split; [lia|]. split.
    + intros s n -> Hs%str_truthy_true Hn. simpl. rewrite Hs. simpl.
      rewrite Hn. lia.
    + intros Hcap.
      assert (Hnone : (if optstr_truthy cap_env
                       then match int_of (default EmptyString cap_env) with
                            | Some n => Some (8 `max` (512 `min` n))%Z
                            | None => None
                            end
                       else None) = None).
      { destruct Hcap as [->|[->|(s & -> & Hs)]]; [done|done|].
        simpl. rewrite Hs. by destruct (str_truthy s). }
      rewrite Hnone.
      destruct (voice p) as [v|]; [|done].
      by destruct (channel v).
Qed.

(** ** Old panels *)

Lemma cleanup_loop_spec bot_id keep_id messages id :
  id ∈ cleanup_loop bot_id keep_id messages ↔
  ∃ m embed rest,
    m ∈ messages ∧ message_id m = id ∧ author_id m = bot_id ∧
    id ≠ keep_id ∧ embeds m = embed :: rest ∧
    posted_author embed = Some "DiscBot Music Console".
Proof.
  induction messages as [|m messages IH]; simpl.
  - split; [by intros ?%elem_of_nil|].
    by intros (m & ? & ? & ?%elem_of_nil & _).
  - assert (Hlater : id ∈ cleanup_loop bot_id keep_id messages →
              ∃ m' embed rest,
                m' ∈ m :: messages ∧ message_id m' = id ∧ author_id m' = bot_id ∧
                id ≠ keep_id ∧ embeds m' = embed :: rest ∧
                posted_author embed = Some "DiscBot Music Console").
    { intros (m' & embed & rest & Hin & Hrest)%IH.
      exists m', embed, rest. split; [by right | done]. }
    assert (Hsplit : (∃ m' embed rest,
                m' ∈ m :: messages ∧ message_id m' = id ∧ author_id m' = bot_id ∧
                id ≠ keep_id ∧ embeds m' = embed :: rest ∧
                posted_author embed = Some "DiscBot Music Console") →
              (message_id m = id ∧ author_id m = bot_id ∧ id ≠ keep_id ∧
               ∃ embed rest, embeds m = embed :: rest ∧
                 posted_author embed = Some "DiscBot Music Console") ∨
              id ∈ cleanup_loop bot_id keep_id messages).
    { intros (m' & embed & rest & [->|Hin]%elem_of_cons & Hid & Ha & Hk & He & Hau).
      - left. split; [done|]. split; [done|]. split; [done|].
        by exists embed, rest.
      - right. apply IH. by exists m', embed, rest. }
    destruct (Z.eqb_spec (author_id m) bot_id) as [Ha|Ha]; simpl.
    2:{ split; [done|]. intros [(_ & ? & _)|?]%Hsplit; done. }
    destruct (Z.eqb_spec (message_id m) keep_id) as [Hk|Hk].
    { split; [done|]. intros [(? & _ & ? & _)|?]%Hsplit; [congruence|done]. }
    destruct (embeds m) as [|embed rest] eqn:Ee.
    { split; [done|]. by intros [(_ & _ & _ & ? & ? & ? & _)|?]%Hsplit. }
    destruct (bool_decide_reflect
                (posted_author embed = Some "DiscBot Music Console"))
      as [He|He].
    + rewrite elem_of_cons. split.
      * intros [->|Hin]; [|by apply Hlater].
        exists m, embed, rest. split; [by left|]. done.
      * intros [(? & _)|?]%Hsplit; [by left | by right].
    + split; [done|].
      intros [(_ & _ & _ & ? & ? & [= <- _] & ?)|?]%Hsplit; done.
Qed.

(** X24. What the panel cleanup deletes: [_cleanup_old_panels] calls
    [delete()] exactly on the messages of the history that the bot wrote,
    other than the one to keep, whose first embed has an author named
    "DiscBot Music Console".  The embed built by [_panel_embed] carries
    that text as its title and has no author: when the bot's messages in
    the history are panels, nothing is deleted. *)
Theorem cleanup_old_panels_spares_panels
    (bot_user : option Z) (history : Exc (list Message)) (keep_id : Z) :
  (∀ id, id ∈ _cleanup_old_panels bot_user history keep_id ↔
     ∃ bot_id messages m embed rest,
       bot_user = Some bot_id ∧ history = Ok messages ∧
       m ∈ messages ∧ message_id m = id ∧ author_id m = bot_id ∧
       id ≠ keep_id ∧ embeds m = embed :: rest ∧
       posted_author embed = Some "DiscBot Music Console") ∧
  (∀ bot_id messages,
     bot_user = Some bot_id → history = Ok messages →
     (∀ m, m ∈ messages → author_id m = bot_id →
        ∃ cfg stamp now p e rest,
          _panel_embed cfg stamp now p = Ok e ∧ embeds m = posted e :: rest) →
     _cleanup_old_panels bot_user history keep_id = []).
Proof.
  assert (Hspec : ∀ id, id ∈ _cleanup_old_panels bot_user history keep_id ↔
     ∃ bot_id messages m embed rest,
       bot_user = Some bot_id ∧ history = Ok messages ∧
       m ∈ messages ∧ message_id m = id ∧ author_id m = bot_id ∧
       id ≠ keep_id ∧ embeds m = embed :: rest ∧
       posted_author embed = Some "DiscBot Music Console").
  { intros id. unfold _cleanup_old_panels.
    destruct bot_user as [bot_id|];
      [|split; [by intros ?%elem_of_nil | by intros (? & ? & ? & ? & ? & ? & _)]].
    destruct history as [messages|msg];
      [|split; [by intros ?%elem_of_nil
               | by intros (? & ? & ? & ? & ? & _ & ? & _)]].
    rewrite cleanup_loop_spec. split.
    - intros (m & embed & rest & ?). by exists bot_id, messages, m, embed, rest.
    - intros (? & ? & m & embed & rest & [= <-] & [= <-] & ?).
      by exists m, embed, rest. }
  split; [exact Hspec|].
  intros bot_id messages Hbot Hhist Hpanels.
  apply elem_of_nil_inv. intros id Hin.
  apply Hspec in Hin
    as (bot_id' & messages' & m & embed & rest & Hb & Hh & Hm & _ & Ha & _ & He & Hau).
  rewrite Hbot in Hb. rewrite Hhist in Hh.
  injection Hb as <-. injection Hh as <-.
  destruct (Hpanels m Hm Ha) as (cfg & stamp & now & p & e & rest' & _ & He').
  rewrite He' in He. injection He as <- _. done.
Qed.

(** ** The players of the bot *)

(** X25. One player per guild: [get_player] returns the registered
    player of the guild as it is, leaving the registry untouched, and
    registers a fresh player only when the guild has none; the players of
    other guilds are never touched, and asking again returns the same
    player. *)
Theorem get_player_one_per_guild
    (g : Guild) (now_mono now_mono' : Z) (players : gmap Z GuildPlayer) :
  let p := (get_player g now_mono players).1 in
  let players' := (get_player g now_mono players).2 in
  players' !! guild_id g = Some p ∧
  (∀ k, k ≠ guild_id g → players' !! k = players !! k) ∧
  (∀ q, players !! guild_id g = Some q → p = q ∧ players' = players) ∧
  (players !! guild_id g = None →
   p = new_player g now_mono ∧ size players' = S (size players)) ∧
  get_player g now_mono' players' = (p, players').
Proof.
  unfold get_player.
  destruct (players !! guild_id g) as [q|] eqn:E; simpl.
  - split; [done|]. split; [done|]. split; [by intros ? [= <-]|].
    split; [done|]. by rewrite E.
  - split; [by rewrite lookup_insert_eq|].
    split; [by intros k Hk; rewrite lookup_insert_ne|].
    split; [done|]. split.
    + split; [done|]. by rewrite map_size_insert_None.
    + by rewrite lookup_insert_eq.
Qed.

(** X26. A message in a channel refreshes panels only: [on_message]
    creates and removes no player; it leaves every player as it is unless
    the message is from a human, in a guild, in the panel channel of that
    guild's player, and then only the panel (its message id and bump
    time) of that one player may change, whether the panel update
    returns or raises. *)
Theorem on_message_refreshes_only_the_panel
    (cfg : Config) (author_bot : bool) (guild : option Z) (channel_id : Z)
    (now_mono : Z) (io_post io_bump : PanelIO) (players : gmap Z GuildPlayer) :
  let players' :=
    on_message cfg author_bot guild channel_id now_mono io_post io_bump players in
  (∀ k, players' !! k = None ↔ players !! k = None) ∧
  (∀ k p p', players !! k = Some p → players' !! k = Some p' →
     forget_panel p' = forget_panel p ∧
     (p' ≠ p →
      author_bot = false ∧ guild = Some k ∧
      panel_channel_id p = Some channel_id ∧ channel_id ≠ 0%Z)).
Proof.
  unfold on_message. cbv zeta.
  assert (Hsame : (∀ k, players !! k = None ↔ players !! k = None) ∧
    (∀ k p p', players !! k = Some p → players !! k = Some p' →
       forget_panel p' = forget_panel p ∧
       (p' ≠ p →
        author_bot = false ∧ guild = Some k ∧
        panel_channel_id p = Some channel_id ∧ channel_id ≠ 0%Z))).
  { split; [done|]. intros k p p' Hp Hp'. rewrite Hp in Hp'.
    injection Hp' as <-. split; [done|]. by intros ?. }
  destruct author_bot; [exact Hsame|].
  destruct guild as [gid|]; [|exact Hsame].
  destruct (players !! gid) as [q|] eqn:E; [|exact Hsame].
  destruct (optint_truthy (panel_channel_id q)) eqn:Et; [|exact Hsame].
  destruct (bool_decide_reflect (Some channel_id = panel_channel_id q))
    as [Hc|Hc]; [|exact Hsame].
  clear Hsame. simpl.
  pose proof (post_or_update_panel_frame io_post q) as Hpost.
  assert (Hnew : ∃ q', forget_panel q' = forget_panel q ∧
            match post_or_update_panel io_post q with
            | Returns p =>
                <[gid := _bump_panel_if_needed cfg false now_mono io_bump p]>
                  players
            | Raises _ p => <[gid := p]> players
            end = <[gid := q']> players).
  { destruct (post_or_update_panel io_post q) as [q'|e q'];
      cbn [player_left] in Hpost; eexists; (split; [|reflexivity]);
      [by rewrite _bump_panel_if_needed_frame | done]. }
  destruct Hnew as (q' & Hq' & ->). split.
  - intros k. destruct (decide (k = gid)) as [->|Hne].
    + rewrite lookup_insert_eq, E. done.
    + by rewrite lookup_insert_ne.
  - intros k p p' Hp. destruct (decide (k = gid)) as [->|Hne].
    + rewrite lookup_insert_eq. intros [= <-].
      rewrite E in Hp. injection Hp as <-. split.
      * done.
      * intros _. split; [done|]. split; [done|]. split; [done|].
        rewrite <- Hc in Et. simpl in Et. by destruct (Z.eqb_spec channel_id 0).
    + rewrite lookup_insert_ne by done. rewrite Hp. by intros [= <-].
Qed.

(** ** What holds in every reachable state *)

Lemma steady_nav p p' : nav p' = nav p → steady p → steady p'.
Proof.
  unfold nav, steady, history_ok, history_distinct, cursor_valid.
  intros [= -> -> ->]. done.
Qed.

Lemma find_seq_from_None s h : ∀ i,
  find_seq_from i s h = None → s ∉ map seq h.
Proof.
  induction h as [|t h IH]; intros i; simpl; [by intros _ ?%elem_of_nil|].
  unfold seq_eqb. destruct (bool_decide_reflect (seq t = s)) as [|Hne]; [done|].
  intros Hf. apply not_elem_of_cons. split; [done|]. by apply (IH (S i)).
Qed.

(** Recording a track keeps the history free of repetitions. *)
Lemma record_history_distinct track p :
  history_distinct p → history_distinct (_update_history_for_track track p).
Proof.
  unfold history_distinct. intros Hnd. destruct track as [t|]; [|done].
  unfold _update_history_for_track.
  destruct (find_seq_from 0 (seq t) (_history p)) as [j|] eqn:Hf; [done|].
  apply find_seq_from_None in Hf.
  assert (Hall : NoDup (map seq (_history p ++ [t]))).
  { rewrite map_app. apply NoDup_app. split; [done|]. split.
    - intros s Hs [->|[]%elem_of_nil]%elem_of_cons. done.
    - apply NoDup_singleton. }
  cbv zeta. destruct (_ <? _)%nat; [|done].
  cbn [_history set_history set_history_index].
  change (map seq (drop ?n ?l)) with (seq <$> drop n l).
  rewrite fmap_drop. eapply sublist_NoDup; [exact Hall | apply sublist_drop].
Qed.

Lemma nav_frame p p' : forget_panel p' = forget_panel p → nav p' = nav p.
Proof.
  intros Hf. unfold nav.
  destruct (frame_history _ _ Hf) as [-> ->].
  by destruct (frame_repeat_seq _ _ Hf) as [-> _].
Qed.

Lemma nav_post io p : nav (post_or_update_panel io p) = nav p.
Proof. apply nav_frame, post_or_update_panel_frame. Qed.

Lemma nav_delete io p : nav (delete_panel io p) = nav p.
Proof. apply nav_frame, delete_panel_frame. Qed.

Lemma nav_bump cfg force now io p :
  nav (_bump_panel_if_needed cfg force now io p) = nav p.
Proof. apply nav_frame, _bump_panel_if_needed_frame. Qed.

Lemma nav_idle_panel cfg io p : nav (idle_panel cfg io p) = nav p.
Proof. apply nav_frame, idle_panel_frame. Qed.

Lemma nav_skip p : nav (skip p) = nav p.
Proof. unfold skip. by destruct (voice p). Qed.

Lemma nav_stop p : nav (stop p) = nav p.
Proof. unfold stop. cbv zeta. by destruct (voice (set_stopped true p)). Qed.

Lemma nav_pause p : nav (pause p) = nav p.
Proof. unfold pause. destruct (voice p) as [v|]; [|done]. by destruct (is_playing v). Qed.

Lemma nav_resume p : nav (resume p) = nav p.
Proof. unfold resume. destruct (voice p) as [v|]; [|done]. by destruct (is_paused v). Qed.

Lemma nav_safe_disconnect cfg now io p :
  nav (_safe_disconnect cfg now io p) = nav p.
Proof. unfold _safe_disconnect. cbv zeta. by rewrite nav_idle_panel. Qed.

Lemma nav_start_idle_timer cfg now io p :
  nav (_start_idle_timer_if_needed cfg now io p) = nav p.
Proof.
  unfold _start_idle_timer_if_needed.
  destruct (negb (voice_connected p)); [done|].
  destruct (negb (_has_humans p)); [by rewrite nav_safe_disconnect|].
  destruct (_ || _); [done|].
  destruct (negb (_queue_empty p)); [done|].
  by destruct (_idle_task p).
Qed.

Lemma nav_idle_wait_expired cfg now io p :
  nav (_idle_wait_expired cfg now io p) = nav p.
Proof.
  unfold _idle_wait_expired.
  set (o := if negb (voice_connected p) then Returns p else _).
  assert (Hq : nav o = nav p).
  { subst o. destruct (negb (voice_connected p)); [done|].
    destruct (_ || _); [done|].
    destruct (negb (_queue_empty p)); [done|]. apply nav_safe_disconnect. }
  rewrite <- Hq. by destruct o.
Qed.

Lemma nav_connect same_channel answer p :
  nav (connect same_channel answer p) = nav p.
Proof. unfold connect. by repeat case_match. Qed.

Lemma nav_set_panel_channel is_text channel_id force p :
  nav (set_panel_channel is_text channel_id force p) = nav p.
Proof. unfold set_panel_channel. by repeat case_match. Qed.

Lemma nav_voice_event v p : nav (voice_event v p) = nav p.
Proof. unfold voice_event. by case_match. Qed.

Lemma nav_enqueue cfg r now io query requester p :
  nav (enqueue cfg r now io query requester p).2 = nav p.
Proof.
  rewrite enqueue_eq.
  destruct (ytdl_opts_player cfg r p) as [Hp0 _].
  destruct (ytdl_opts cfg r p) as [opts p0]. simpl in Hp0.
  assert (H0 : nav p0 = nav p) by (by rewrite Hp0).
  destruct (create_tracks_from_query cfg r opts query) as [tracks|msg]; [|done].
  destruct (enqueue_loop requester tracks p0) as [good p1] eqn:E.
  apply enqueue_loop_frame in E.
  assert (H1 : nav p1 = nav p) by (by rewrite E, <- H0).
  destruct (list_truthy good); [|done]. simpl.
  unfold ensure_loop. by destruct (loop_task _).
Qed.

Lemma ctl_player_then_continue o :
  ctl_player (then_continue o) = Some (player_left o).
Proof. by destruct o. Qed.

Lemma nav_then_continue o p' :
  ctl_player (then_continue o) = Some p' → p' = player_left o.
Proof. rewrite ctl_player_then_continue. by intros [= <-]. Qed.

Lemma nav_loop_top cfg env p p' :
  ctl_player (loop_top cfg env p) = Some p' → nav p' = nav p.
Proof.
  unfold loop_top.
  destruct (_stopped p); [by intros [= <-]|].
  destruct (_ && negb (_has_humans p));
    [intros ->%nav_then_continue; apply nav_safe_disconnect|].
  destruct (_ && _); [|by intros [= <-]]. cbv zeta.
  destruct (_idle_started_mono p) as [started|]; [|by intros [= <-]].
  destruct (_ <=? _)%Z; [|by intros [= <-]].
  intros ->%nav_then_continue. by rewrite nav_idle_panel.
Qed.

Lemma nav_queue_wait_timeout cfg env p p' :
  ctl_player (queue_wait_timeout cfg env p) = Some p' → nav p' = nav p.
Proof.
  unfold queue_wait_timeout.
  destruct (_ && _); intros [= <-]; [apply nav_delete | done].
Qed.

Lemma nav_apply_repeat p : nav (apply_repeat p) = nav p.
Proof.
  unfold apply_repeat. cbv zeta.
  set (q := match current p with Some _ => _ | None => p end).
  assert (Hq : nav q = nav p).
  { subst q. destruct (current p) as [c|]; [|done].
    by destruct (String.eqb _ _). }
  by destruct (_ && _ && _).
Qed.

Lemma nav_after_track cfg env p : nav (after_track cfg env p) = nav p.
Proof.
  unfold after_track, _on_track_end, _cleanup_temp_cookie_file. cbv zeta.
  set (p0 := set_last_activity_mono _ _).
  set (p1 := if _ : bool then set_current None p0 else p0).
  assert (H1 : nav p1 = nav p) by (subst p1; by case_match).
  rewrite and_then_left.
  set (p2 := player_left (_start_idle_timer_if_needed _ _ _ p1)).
  assert (H2 : nav p2 = nav p) by (subst p2; by rewrite nav_start_idle_timer).
  destruct (raised _); [done|].
  destruct (_stopped p2).
  - destruct (DELETE_PANEL_ON_IDLE cfg);
      [cbn [player_left]; by rewrite nav_delete|].
    by rewrite nav_post.
  - pose proof (nav_apply_repeat p2) as H3.
    destruct (list_truthy (queue (apply_repeat p2)));
      [by rewrite nav_post, H3|].
    rewrite and_then_left.
    destruct (raised _); [by rewrite nav_post, H3|].
    destruct (DELETE_PANEL_ON_IDLE cfg).
    + cbn [player_left]. by rewrite nav_delete, nav_bump, nav_post, H3.
    + rewrite nav_post.
      change (nav (set_current None ?q)) with (nav q).
      by rewrite nav_bump, nav_post, H3.
Qed.

Lemma start_track_steady cfg env p p' :
  steady p → ctl_player (start_track cfg env p) = Some p' → steady p'.
Proof.
  intros (Hmode & Hok & Hnd). unfold start_track.
  destruct (queue p) as [|t rest]; [done|]. cbv zeta.
  destruct (negb _); [by intros [= <-]|].
  set (p0 := set_last_activity_mono _ _).
  set (p1 := _update_history_for_track (current p0) p0).
  assert (H1 : steady p1).
  { split; [|split].
    - subst p1. unfold _update_history_for_track.
      destruct (current p0) as [c|]; [|done].
      destruct (find_seq_from _ _ _); [done|]. cbv zeta.
      by destruct (_ <? _)%nat.
    - by apply record_history_ok.
    - by apply record_history_distinct. }
  clearbody p1. clear p0.
  destruct (play_ok env); [|intros [= <-]; by apply (steady_nav p1)].
  match goal with
  | |- context [post_or_update_panel ?io ?q] =>
      pose proof (nav_post io q) as Hpost;
      assert (Hq : nav q = nav p1) by (by case_match);
      destruct (post_or_update_panel io q) as [q'|e q']
  end; cbn [player_left] in Hpost; intros [= <-];
    apply (steady_nav p1); try done.
  - change (nav (set_ui_task true ?q)) with (nav q).
    by rewrite nav_bump, Hpost.
  - change (nav (set_next_event true ?q)) with (nav q). by rewrite Hpost.
Qed.

Lemma valid_mode_cases mode :
  valid_mode mode ↔ mode = "off" ∨ mode = "one" ∨ mode = "all".
Proof.
  unfold valid_mode. rewrite !elem_of_cons, elem_of_nil. tauto.
Qed.

(** One operation from a steady state. *)
Lemma run_player_op_steady cfg op p :
  steady p →
  (run_player_op cfg op p = None →
   ∃ env, op = DoStartTrack env ∧ queue p = []) ∧
  (∀ p', run_player_op cfg op p = Some p' → steady p').
Proof.
  intros Hp. pose proof Hp as (Hmode & Hok & Hnd).
  assert (Hkeep : ∀ p', nav p' = nav p → steady p')
    by (intros p' H; by apply (steady_nav p)).
  assert (Hset : ∀ mode io, valid_mode mode →
            steady (post_or_update_panel io (set_repeat_mode mode p))).
  { intros mode io Hv. apply (steady_nav (set_repeat_mode mode p));
      [apply nav_post | done]. }
  destruct op; cbn [run_player_op].
  - split; [done|]. intros p' [= <-]. apply Hkeep, nav_connect.
  - split; [done|]. intros p' [= <-]. apply Hkeep, nav_set_panel_channel.
  - split; [done|]. intros p' [= <-]. apply Hkeep, nav_voice_event.
  - split; [done|]. intros p' [= <-]. apply Hkeep, nav_enqueue.
  - split; [done|]. intros p' [= <-]. apply Hkeep, nav_skip.
  - split; [done|]. intros p' [= <-]. apply Hkeep, nav_stop.
  - split; [done|]. intros p' [= <-]. apply Hkeep. unfold stop_button.
    by rewrite !nav_post, nav_stop.
  - split; [done|]. intros p' [= <-]. apply Hkeep, nav_pause.
  - split; [done|]. intros p' [= <-]. apply Hkeep, nav_resume.
  - destruct (play_previous_keeps_history_ok p Hok) as (p1 & Hp1 & Hok1 & Hh1).
    rewrite Hp1. split; [done|]. intros p' [= <-].
    split; [|split; [done | unfold history_distinct; by rewrite Hh1]].
    assert (Hm : ∀ q q', play_previous q = Some q' → repeat_mode q' = repeat_mode q).
    { clear. intros q q'. unfold play_previous.
      repeat case_match; intros [= <-]; try done;
        unfold skip; by case_match. }
    by rewrite (Hm _ _ Hp1).
  - unfold prev_button. destruct (negb (can_go_previous p));
      [split; [done|]; by intros p' [= <-]|].
    destruct (play_previous_keeps_history_ok p Hok) as (p1 & Hp1 & Hok1 & Hh1).
    rewrite Hp1. split; [done|]. intros p' [= <-].
    split; [|split; [done | unfold history_distinct; by rewrite Hh1]].
    assert (Hm : ∀ q q', play_previous q = Some q' → repeat_mode q' = repeat_mode q).
    { clear. intros q q'. unfold play_previous.
      repeat case_match; intros [= <-]; try done;
        unfold skip; by case_match. }
    by rewrite (Hm _ _ Hp1).
  - destruct (play_next_keeps_history_ok p Hok) as (p1 & Hp1 & Hok1 & Hh1).
    rewrite Hp1. split; [done|]. intros p' [= <-].
    split; [|split; [done | unfold history_distinct; by rewrite Hh1]].
    assert (Hm : ∀ q q', play_next_from_history q = Some q' →
              repeat_mode q' = repeat_mode q).
    { clear. intros q q'. unfold play_next_from_history.
      repeat case_match; intros [= <-]; try done;
        cbn [repeat_mode set_history_index]; unfold skip; by case_match. }
    by rewrite (Hm _ _ Hp1).
  - unfold cycle_repeat.
    apply valid_mode_cases in Hmode as [Hm|[Hm|Hm]]; rewrite Hm; simpl;
      (split; [done|]; intros p' [= <-]; split; [|done];
       apply valid_mode_cases; simpl; auto).
  - split; [done|]. intros p' [= <-]. apply Hset, valid_mode_cases. auto.
  - split; [done|]. intros p' [= <-]. apply Hset, valid_mode_cases. auto.
  - split; [done|]. intros p' [= <-]. apply Hset, valid_mode_cases. auto.
  - split; [done|]. intros p' [= <-]. unfold slash_repeat.
    destruct (optstr_truthy mode); [|done].
    destruct (bool_decide_reflect
                (default EmptyString mode ∈ ["off"; "one"; "all"]));
      [|done]. simpl. by apply Hset.
  - split; [done|]. intros p' [= <-]. apply Hkeep, nav_post.
  - split; [done|]. intros p' [= <-]. apply Hkeep, nav_delete.
  - split; [done|]. intros p' [= <-]. apply Hkeep, nav_bump.
  - split; [done|]. by intros p' [= <-].
  - split; [done|]. intros p' [= <-]. apply Hkeep, nav_idle_wait_expired.
  - split; [done|]. by intros p' [= <-].
  - split.
    + unfold loop_top.
      repeat case_match; try done; by rewrite ctl_player_then_continue.
    + intros p' H. by apply Hkeep, (nav_loop_top cfg env).
  - split; [done|]. by intros p' [= <-].
  - split.
    + unfold queue_wait_timeout. by case_match.
    + intros p' H. by apply Hkeep, (nav_queue_wait_timeout cfg env).
  - split.
    + unfold start_track. destruct (queue p) as [|t rest]; [by exists env|].
      cbv zeta. by repeat case_match.
    + intros p' H. by apply (start_track_steady cfg env p).
  - split; [done|]. intros p' [= <-]. apply Hkeep, nav_after_track.
Qed.

(** X27. No reachable state breaks navigation or the repeat button:
    after any run of connects, panel attachments, voice events, commands,
    buttons, panel operations, idle-task steps and loop stretches from a
    fresh player, in any order and whatever the outside answers (panel
    updates that raise included), the repeat mode is one of [off], [one],
    [all],
    the history is within its bound with a valid cursor and no two of its
    entries carry the same sequence number; so in such a state the
    repeat button finds its mode (no [KeyError]), previous and forward
    find their history entry (no [IndexError]), and the one operation
    that raises instead of leaving a player is the [popleft] of the loop,
    on an empty queue. *)
Theorem reachable_states_are_steady
    (cfg : Config) (g : Guild) (now_mono : Z) (ops : list PlayerOp)
    (p : GuildPlayer) :
  run_player_ops cfg ops (new_player g now_mono) = Some p →
  valid_mode (repeat_mode p) ∧
  (length (_history p) ≤ 5)%nat ∧ cursor_valid p ∧
  NoDup (map seq (_history p)) ∧
  (∀ op, run_player_op cfg op p = None →
     ∃ env, op = DoStartTrack env ∧ queue p = []) ∧
  (∃ p', cycle_repeat p = Some p') ∧
  (∃ p', play_previous p = Some p') ∧
  (∃ p', play_next_from_history p = Some p').
Proof.
  assert (Hrun : ∀ ops q, steady q →
            run_player_ops cfg ops q = Some p → steady p).
  { clear ops. induction ops as [|op ops IH]; intros q Hq; simpl.
    - by intros [= <-].
    - destruct (run_player_op cfg op q) as [q'|] eqn:E; [|done].
      apply IH. by apply (run_player_op_steady cfg op q Hq). }
  intros Hp. apply Hrun in Hp as Hsteady.
  2:{ split; [apply valid_mode_cases; by left|].
      split; [apply new_player_history_ok | apply NoDup_nil_2]. }
  pose proof Hsteady as (Hmode & (Hlen & Hcur) & Hnd).
  assert (Hnone : ∀ op, run_player_op cfg op p = None →
            ∃ env, op = DoStartTrack env ∧ queue p = [])
    by (intros op; apply (run_player_op_steady cfg op p Hsteady)).
  assert (Hsome : ∀ op, (∀ env, op ≠ DoStartTrack env) →
            ∃ p', run_player_op cfg op p = Some p').
  { intros op Hop. destruct (run_player_op cfg op p) as [p'|] eqn:E;
      [by exists p'|].
    destruct (Hnone op E) as (env & -> & _). by destruct (Hop env). }
  split; [done|]. split; [done|]. split; [done|]. split; [done|].
  split; [done|].
  split; [exact (Hsome DoRepeatButton ltac:(done))|].
  split; [exact (Hsome DoPrevious ltac:(done))|].
  exact (Hsome DoForward ltac:(done)).
Qed.

(** The state after the session: two tracks are in the history. *)
Lemma reachable_states_are_steady_witness :
  (map title (_history after_a_session) = ["one"; "three"] ∧
   voice after_a_session ≠ None ∧
   panel_message_id after_a_session = Some 900%Z) ∧
  valid_mode (repeat_mode after_a_session) ∧
  (length (_history after_a_session) ≤ 5)%nat ∧ cursor_valid after_a_session ∧
  NoDup (map seq (_history after_a_session)) ∧
  (∀ op, run_player_op default_config op after_a_session = None →
     ∃ env, op = DoStartTrack env ∧ queue after_a_session = []) ∧
  (∃ p', cycle_repeat after_a_session = Some p') ∧
  (∃ p', play_previous after_a_session = Some p') ∧
  (∃ p', play_next_from_history after_a_session = Some p').
Proof.
  split.
  { split; [vm_compute; reflexivity|].
    split; [vm_compute; discriminate | vm_compute; reflexivity]. }
  apply (reachable_states_are_steady default_config the_club 0 a_session
           after_a_session).
  vm_compute. reflexivity.
Defined.

(** The same session in the guild without icon: the panel is never
    posted, the first track counts as ended as soon as it starts, and the
    history is recorded all the same. *)
Example session_without_icon :
  run_player_ops default_config a_session (new_player the_guild 0)
  = Some after_a_session_without_icon ∧
  map title (_history after_a_session_without_icon) = ["one"; "three"] ∧
  map seq (_history after_a_session_without_icon) = [Some 1%Z; Some 2%Z] ∧
  panel_message_id after_a_session_without_icon = None ∧
  repeat_mode after_a_session_without_icon = "all".
Proof.
  split; [vm_compute; reflexivity|]. split; [vm_compute; reflexivity|].
  split; [vm_compute; reflexivity|]. split; vm_compute; reflexivity.
Qed.

(** * The logo *)

(** X28. The logo of an embed comes with its file: the file the panel is
    sent with is the one [build_logo_file] builds (the guard
    [logo_requires_attachment] never withholds it); when there is a file,
    its path exists, its name is not empty and [logo_embed_url] is the
    attachment URL of that name; when there is none, [logo_embed_url] is
    the configured URL, if any; it is never the empty string.
    [logo_requires_attachment] can hold without a file, but only for a
    path whose last component is empty. *)
Theorem logo_url_comes_with_its_file (e : branding.LogoEnv) :
  let c := branding.load e in
  panel_logo_file c = branding.build_logo_file c ∧
  (∀ path name, branding.build_logo_file c = Some (path, name) →
     branding.path_exists e path = true ∧ name ≠ EmptyString ∧
     branding.logo_embed_url c = Some ("attachment://" +:+ name)) ∧
  (branding.build_logo_file c = None →
   branding.logo_embed_url c = branding.LOGO_URL c) ∧
  optstr_truthy (branding.logo_embed_url c)
  = bool_decide (branding.logo_embed_url c ≠ None) ∧
  (branding.logo_requires_attachment c = true →
   branding.build_logo_file c = None →
   ∃ path, branding.LOGO_PATH c = Some path ∧
           branding.path_name e path = EmptyString).
Proof.
  intros c. subst c.
  unfold panel_logo_file, branding.build_logo_file, branding.logo_embed_url,
    branding.logo_requires_attachment, branding.load. cbv zeta.
  cbn [branding.LOGO_PATH branding.LOGO_ATTACHMENT_NAME branding.LOGO_URL].
  set (raw := default "assets/jakobys_bot.png" (branding.BOT_LOGO_PATH e)).
  set (url := branding.strip e (default EmptyString (branding.BOT_LOGO_URL e))).
  assert (Hurl : ∀ u : option string,
            u = (if negb (str_truthy url) then None else Some url) →
            (if optstr_truthy u then u else None) = u ∧
            optstr_truthy u = bool_decide (u ≠ None)).
  { intros u ->. by destruct url. }
  destruct (Hurl _ eq_refl) as [Hu1 Hu2].
  destruct (branding.path_exists e raw) eqn:Ex.
  - set (name := if optstr_truthy (branding.BOT_LOGO_ATTACHMENT_NAME e)
                 then option_map (branding.strip e)
                        (branding.BOT_LOGO_ATTACHMENT_NAME e)
                 else branding.BOT_LOGO_ATTACHMENT_NAME e).
    destruct (optstr_truthy name) eqn:En; cbn [negb].
    + rewrite En.
      pose proof En as (n & Hn & Hne)%optstr_truthy_true.
      rewrite Hn. simpl.
      split; [done|]. split; [by intros path nm [= <- <-]|].
      split; [done|]. split; [done|]. done.
    + set (last := branding.path_name e raw).
      cbn [optstr_truthy]. rewrite bool_decide_eq_true_2 by done. simpl.
      destruct (str_truthy last) eqn:El.
      * apply str_truthy_true in El as Hne.
        split; [done|]. split; [by intros path nm [= <- <-]|].
        split; [done|]. split; [done|]. done.
      * split; [done|]. split; [done|].
        split; [intros _; exact Hu1|]. rewrite Hu1. split; [exact Hu2|].
        intros _ _. exists raw. split; [done|]. unfold last in El.
        by destruct (branding.path_name e raw).
  - split; [by destruct (bool_decide _ && _)|]. split; [done|].
    split; [intros _; exact Hu1|]. rewrite Hu1. split; [exact Hu2|].
    by rewrite bool_decide_eq_false_2 by (by intros ?).
Qed.

(** The last case happens: with the root directory as logo path and no
    attachment name, an attachment is said to be required and no file is
    built. *)
Example logo_required_without_file :
  let c := branding.load
             {| branding.BOT_LOGO_PATH := Some "/";
                branding.BOT_LOGO_ATTACHMENT_NAME := None;
                branding.BOT_LOGO_URL := None;
                branding.path_exists := fun _ => true;
                branding.path_name := fun _ => EmptyString;
                branding.strip := fun s => s |} in
  branding.logo_requires_attachment c = true ∧
  branding.build_logo_file c = None.
Proof. vm_compute. done. Qed.

(** * The chat commands *)

Lemma _run_llm_chat_inflight base_url model sp start finish now answer m :
  (0 ≤ _llm_inflight m)%Z →
  _llm_inflight (_run_llm_chat base_url model sp start finish now answer m).2
  = _llm_inflight m.
Proof.
  intros Hm. unfold _run_llm_chat.
  destruct (negb base_url || negb model); [done|]. cbv zeta.
  destruct answer as [msg|code [data|msg]]; simpl; [lia| |].
  - destruct (code =? 200)%Z; simpl; [|lia].
    destruct (data_message data); simpl; [lia|].
    destruct (list_truthy _); simpl; lia.
  - destruct (code =? 200)%Z; simpl; lia.
Qed.

(** X29. A chat request leaves the in-flight gauge where it was: on
    every path of [_run_llm_chat] (not configured, the request raises, a
    status other than 200, an unreadable body, an answer) a gauge that is
    not negative is back at its value afterwards.  A text is returned only
    for an answer with status 200 and a readable body, and then a success
    is recorded (latency set, last error cleared).  [joke] answers with
    that text, cut after 1900 code points and then marked with the three
    code points U+201A, U+00C4, U+00B6 of the literal of the source, so
    at most 1903 code points and never empty, and with the offline notice
    when there is no text or an empty one. *)
Theorem llm_chat_balances_inflight_and_bounds_reply
    (base_url model : bool) (unicode_space : Z → bool)
    (start finish now : Z) (answer : ChatAnswer) (m : LLMMetrics) :
  let chat := _run_llm_chat base_url model unicode_space start finish now answer m in
  let told := joke base_url model unicode_space start finish now answer m in
  ((0 ≤ _llm_inflight m)%Z → _llm_inflight chat.2 = _llm_inflight m) ∧
  (∀ content, chat.1 = Some content →
     base_url = true ∧ model = true ∧
     (∃ data, answer = Status 200 (Ok data)) ∧
     _llm_last_error chat.2 = None ∧
     _llm_last_latency chat.2 = Some (finish - start)%Z ∧
     _llm_last_success chat.2 = Some now) ∧
  ((0 ≤ _llm_inflight m)%Z → _llm_inflight told.2 = _llm_inflight m) ∧
  match told.1 with
  | Said reply =>
      reply ≠ [] ∧ (length reply ≤ 1903)%nat ∧
      ∃ content, chat.1 = Some content ∧
        reply = if (1900 <? length content)%nat
                then take 1900 content ++ [8218%Z; 196%Z; 182%Z]
                else content
  | Offline => base_url = false ∨ chat.1 = None ∨ chat.1 = Some []
  end.
Proof.
  intros chat told.
  split; [apply _run_llm_chat_inflight|]. split.
  - subst chat. unfold _run_llm_chat. intros content.
    destruct base_url, model; simpl; try done.
    destruct answer as [msg|code [data|msg]]; simpl; [done| |].
    + destruct (Z.eqb_spec code 200) as [->|]; simpl; [|done].
      destruct (data_message data) as [c|]; simpl.
      * intros _. split; [done|]. split; [done|]. split; [by exists data|done].
      * destruct (default [] (data_response data)) as [|x xs]; simpl.
        -- done.
        -- intros _. split; [done|]. split; [done|].
           split; [by exists data|done].
    + by destruct (code =? 200)%Z.
  - subst told. unfold joke.
    destruct base_url; cbn [negb]; [|split; [done | by left]].
    fold chat.
    pose proof (_run_llm_chat_inflight true model unicode_space start
                  finish now answer m) as Hbal.
    fold chat in Hbal.
    destruct chat as [[content|] m']; cbn [fst snd] in *.
    + destruct (list_truthy content) eqn:Et; cbn [negb fst snd].
      2:{ split; [done|]. right. right. by destruct content. }
      assert (Hne : content ≠ []) by (by destruct content).
      destruct (Nat.ltb_spec 1900 (length content)) as [Hlong|Hshort];
        cbn [fst snd].
      * split; [done|]. split; [by destruct (take 1900 content)|].
        split; [rewrite length_app, length_take; unfold CUT_MARK;
                cbn [length]; lia|].
        exists content. split; [done|].
        by destruct (Nat.ltb_spec 1900 (length content)); [|lia].
      * split; [done|]. split; [done|]. split; [lia|].
        exists content. split; [done|].
        by destruct (Nat.ltb_spec 1900 (length content)); [lia|].
    + split; [done|]. right. by left.
Qed.

(** An answer of 2000 characters is cut to 1900 and marked: the reply
    has 1903 code points. *)
Example long_joke_is_cut_and_marked :
  let m := {| _llm_inflight := 0; _llm_last_latency := None;
              _llm_last_success := None; _llm_last_error := None |} in
  let answer := Status 200 (Ok {| data_message := Some (Some (replicate 2000 97%Z));
                                  data_response := None |}) in
  (joke true true ascii_only_space 10 25 99 answer m).1
  = Said (replicate 1900 97%Z ++ [8218%Z; 196%Z; 182%Z]) ∧
  length (replicate 1900 97%Z ++ [8218%Z; 196%Z; 182%Z]) = 1903%nat.
Proof. vm_compute. done. Qed.

(** An answer whose message has no content counts as a success, and the
    user is told the service is offline. *)
Example empty_chat_message_is_success_and_offline :
  let m := {| _llm_inflight := 0; _llm_last_latency := None;
              _llm_last_success := None; _llm_last_error := Some "HTTP 500" |} in
  let answer := Status 200 (Ok {| data_message := Some None;
                                  data_response := None |}) in
  let told := joke true true ascii_only_space 10 25 99 answer m in
  told.1 = Offline ∧ _llm_last_error told.2 = None ∧
  _llm_last_latency told.2 = Some 15%Z.
Proof. vm_compute. done. Qed.

(** * The idle task *)

(** X30. The idle task disconnects an idle player and nothing else: when
    its 300 seconds are over, [_idle_wait] drops the voice handle, the
    current track and the queue exactly when the player is then
    connected, not playing, not paused and has nothing queued (also when
    the panel update that follows raises); otherwise it returns and
    changes nothing; in both cases the task and the start of the
    countdown are cleared.  And [_start_idle_timer_if_needed] creates the
    task for a connected player with a listener that is idle, so that
    such a player, left alone for the 300 seconds, is disconnected. *)
Theorem idle_task_disconnects_only_an_idle_player
    (cfg : Config) (now_mono : Z) (io : PanelIO) (p : GuildPlayer) :
  let p' := _idle_wait_expired cfg now_mono io p in
  let idle q := voice_connected q = true ∧ voice_playing q = false ∧
                voice_paused q = false ∧ queue q = [] in
  _idle_task p' = false ∧ _idle_started_mono p' = None ∧
  (idle p →
   voice p' = None ∧ current p' = None ∧ queue p' = [] ∧
   _last_activity_mono p' = now_mono) ∧
  (¬ idle p →
   p' = Returns (set_idle_started_mono None (set_idle_task false p))) ∧
  (∀ now0 now1 io0,
     idle p → _has_humans p = true → _idle_task p = false →
     let p1 := _idle_wait_start now1
                 (_start_idle_timer_if_needed cfg now0 io0 p) in
     _idle_task p1 = true ∧ _idle_started_mono p1 = Some now1 ∧ idle p1 ∧
     voice (_idle_wait_expired cfg now_mono io p1) = None).
Proof.
  intros p' idle. subst p'.
  assert (Hexp : ∀ q, idle q →
            voice (_idle_wait_expired cfg now_mono io q) = None ∧
            current (_idle_wait_expired cfg now_mono io q) = None ∧
            queue (_idle_wait_expired cfg now_mono io q) = [] ∧
            _last_activity_mono (_idle_wait_expired cfg now_mono io q) = now_mono).
  { intros q (Hc & Hpl & Hpa & Hq). unfold _idle_wait_expired.
    rewrite Hc, Hpl, Hpa. unfold _queue_empty. rewrite Hq. simpl.
    rewrite finally_left.
    cbn [voice current queue _last_activity_mono set_idle_started_mono
         set_idle_task].
    destruct (_safe_disconnect_cleared cfg now_mono io q) as (Hv & Hcur & Hqq & _).
    split; [exact Hv|]. split; [exact Hcur|]. split; [exact Hqq|].
    unfold _safe_disconnect. cbv zeta.
    match goal with
    | |- context [idle_panel cfg io ?r] =>
        pose proof (idle_panel_frame cfg io r) as Hf
    end.
    by apply (f_equal _last_activity_mono) in Hf. }
  split; [unfold _idle_wait_expired; by rewrite finally_left|].
  split; [unfold _idle_wait_expired; by rewrite finally_left|].
  split; [exact (Hexp p)|]. split.
  - intros Hnot. unfold _idle_wait_expired.
    destruct (voice_connected p) eqn:Hc; simpl; [|done].
    destruct (voice_playing p) eqn:Hpl; simpl; [done|].
    destruct (voice_paused p) eqn:Hpa; simpl; [done|].
    unfold _queue_empty. destruct (queue p) as [|t q] eqn:Hq; simpl; [|done].
    by destruct Hnot.
  - intros now0 now1 io0 (Hc & Hpl & Hpa & Hq) Hh Ht.
    assert (Hstart : _start_idle_timer_if_needed cfg now0 io0 p
                     = Returns (set_idle_task true p)).
    { unfold _start_idle_timer_if_needed.
      rewrite Hc, Hh, Hpl, Hpa, Ht. unfold _queue_empty. by rewrite Hq. }
    rewrite Hstart. cbv zeta.
    split; [done|]. split; [done|].
    assert (Hidle : idle (_idle_wait_start now1 (set_idle_task true p))) by done.
    split; [exact Hidle|]. by apply Hexp.
Qed.
